(** * Limpieza de datos FIFA: a shallow embedding of
      [src/preprocesamiento/limpieza_datos.py] and its properties.

    The pipeline is a pandas program.  The embedding keeps the slice of the
    pandas semantics the pipeline relies on:

    - the cell of a numeric column holds the exact rational value ([Q]) of
      its number, or nothing (None / NaN); a column carries no dtype and is
      read as float64;
    - the arithmetic of stage 6 and the row means of stage 4 are the
      arithmetic of binary64: every sum, difference, product and quotient
      is rounded to the nearest binary64 number ([redondear64]).  A column
      that pandas holds as int64 computes the same values in stage 6 as
      long as its differences stay below 2^53; beyond 2^63 its products
      wrap, which the embedding does not follow.  The means of the
      inference and the medians and quartiles of stages 3 and 7 are taken
      exactly;
    - a DataFrame is the ordered list of its labelled columns; labels may
      repeat (as [pd.concat] allows), and [datos[columna]] is a Series only
      when the label is borne by exactly one column;
    - an exception raised by pandas or by Python is a value of [Resultado];
      a [try]/[except] is a case analysis on it. *)

From Stdlib Require Import List String Ascii Bool Arith ZArith QArith Qround Qabs Qpower.
From Stdlib Require Import Lia Lqa.
From Stdlib Require Import Permutation Sorted Orders Mergesort.
Import ListNotations.

Local Open Scope string_scope.
Local Open Scope list_scope.
Local Open Scope Q_scope.

(** ** Exceptions *)

Module Exc.

Inductive Resultado (A : Type) : Type :=
| Ok (a : A)
| Excepcion (mensaje : string).
Arguments Ok {A} a.
Arguments Excepcion {A} mensaje.

Definition bind {A B} (r : Resultado A) (k : A -> Resultado B) : Resultado B :=
  match r with
  | Ok a => k a
  | Excepcion e => Excepcion e
  end.

(** [for x in xs: st = paso(st, x)], where any iteration may raise. *)
Fixpoint para_cada {S X} (paso : S -> X -> Resultado S) (xs : list X) (st : S)
  : Resultado S :=
  match xs with
  | [] => Ok st
  | x :: xs' => bind (paso st x) (para_cada paso xs')
  end.

End Exc.
Export Exc.

Notation "x <- c ;; k" := (bind c (fun x => k))
  (at level 61, c at next level, right associativity).

(** ** The slice of pandas used by the pipeline *)

Module Pandas.

(** *** Scalars and rows *)

(** A cell as Python sees it: a number or a text, or nothing at all
    ([None] / [NaN]: what [pd.notnull] rejects). *)
Inductive escalar : Type :=
| ENum (q : Q)
| ETexto (s : string).

Definition valor := option escalar.

(** A row handed to [DataFrame.apply(..., axis=1)]: a Series indexed by
    the column labels. *)
Definition fila := list (string * valor).

Inductive busqueda : Type :=
| Ausente                (* [attr in row] is False *)
| Unico (v : valor)      (* [row.get(attr, 0)] is a scalar *)
| Repetido.              (* [row.get(attr, 0)] is itself a Series *)

Definition buscar (row : fila) (attr : string) : busqueda :=
  match filter (fun kv => String.eqb (fst kv) attr) row with
  | [] => Ausente
  | [kv] => Unico (snd kv)
  | _ => Repetido
  end.

Definition Qlt_bool (x y : Q) : bool := negb (Qle_bool y x).

(** Python's builtin [max(a, b)]: the first argument unless the second is
    strictly greater. *)
Definition py_max (a b : Q) : Q := if Qlt_bool a b then b else a.

Definition suma (l : list Q) : Q := fold_right Qplus 0 l.

Definition media (l : list Q) : Q :=
  suma l / inject_Z (Z.of_nat (List.length l)).

(** [np.mean(valores)] on a Python list of scalars: a text among the
    values makes the reduction raise. *)
Fixpoint numeros (vs : list escalar) : Resultado (list Q) :=
  match vs with
  | [] => Ok []
  | ENum q :: vs' => qs <- numeros vs' ;; Ok (q :: qs)
  | ETexto _ :: _ => Excepcion "TypeError"
  end.

Definition np_mean (vs : list escalar) : Resultado Q :=
  qs <- numeros vs ;; Ok (media qs).

(** *** binary64 *)

(** The integer nearest to [t], the even one of the two when [t] is half
    way. *)
Definition cercano_par (t : Q) : Z :=
  let f := Qfloor t in
  match Qcompare (t - inject_Z f) (1 # 2) with
  | Lt => f
  | Gt => (f + 1)%Z
  | Eq => if Z.even f then f else (f + 1)%Z
  end.

(** For [q > 0], the exponent [e] with [2^e <= q < 2^(e+1)]. *)
Definition exponente (q : Q) : Z :=
  let e0 := (Z.log2 (Qnum q) - Z.log2 (Zpos (Qden q)))%Z in
  if Qle_bool (2 ^ e0) q then e0 else (e0 - 1)%Z.

(** The spacing of the binary64 numbers around [q]: 53 significant bits,
    and the fixed spacing [2^-1074] of the subnormal numbers. *)
Definition ulp (q : Q) : Q := 2 ^ (Z.max (exponente (Qabs q)) (-1022) - 52).

(** The binary64 number nearest to [q], ties to even.  The overflow to
    infinity, beyond [2^1024], is not followed. *)
Definition redondear64 (q : Q) : Q :=
  if Qeq_bool q 0 then 0
  else Qred (inject_Z (cercano_par (q / ulp q)) * ulp q).

(** [a - b], [a * b] and [a / b] on float64 values. *)
Definition resta64 (a b : Q) : Q := redondear64 (a - b).
Definition multiplicacion64 (a b : Q) : Q := redondear64 (a * b).
Definition division64 (a b : Q) : Q := redondear64 (a / b).

(** *** Sorting, as [numpy] and [Categorical] do it *)

Lemma Qle_bool_total (a1 a2 : Q) : Qle_bool a1 a2 = true \/ Qle_bool a2 a1 = true.
Proof.
  rewrite !Qle_bool_iff.
  destruct (Qlt_le_dec a1 a2) as [H | H]; [left; apply Qlt_le_weak, H | right; exact H].
Qed.

Module OrdenQ <: TotalLeBool.
Definition t := Q.
Definition leb := Qle_bool.
Definition leb_total : forall a1 a2, leb a1 a2 = true \/ leb a2 a1 = true :=
  Qle_bool_total.
End OrdenQ.

Module OrdenTexto <: TotalLeBool.
Definition t := string.
Definition leb := String.leb.
Definition leb_total : forall a1 a2, leb a1 a2 = true \/ leb a2 a1 = true :=
  String.leb_total.
End OrdenTexto.

Module OrdenarQ := Sort OrdenQ.
Module OrdenarTexto := Sort OrdenTexto.

(** *** Series *)

(** A numeric Series is a list of cells that hold a number or NaN; an
    [object] Series holds texts or None. *)
Definition no_nulos {A} (l : list (option A)) : list A :=
  flat_map (fun v => match v with Some x => [x] | None => [] end) l.

Definition es_nulo {A} (v : option A) : bool :=
  match v with None => true | Some _ => false end.

(** [s.isnull().any()] *)
Definition isnull_any {A} (l : list (option A)) : bool := existsb es_nulo l.

(** [s.min()] and [s.max()] skip NaN and are NaN on an all-NaN Series. *)
Definition min_serie (l : list (option Q)) : option Q :=
  match no_nulos l with
  | [] => None
  | x :: xs => Some (fold_left (fun m y => if Qlt_bool y m then y else m) xs x)
  end.

Definition max_serie (l : list (option Q)) : option Q :=
  match no_nulos l with
  | [] => None
  | x :: xs => Some (fold_left (fun m y => if Qlt_bool m y then y else m) xs x)
  end.

(** [s.median()]: the middle of the sorted non-null values, the mean of the
    two middle ones when their number is even, NaN when there is none. *)
Definition mediana (l : list (option Q)) : option Q :=
  let s := OrdenarQ.sort (no_nulos l) in
  let n := List.length s in
  match n with
  | O => None
  | _ =>
      if Nat.even n
      then Some ((nth (n / 2 - 1)%nat s 0 + nth (n / 2)%nat s 0) / 2)
      else Some (nth (n / 2)%nat s 0)
  end.

(** [s.quantile(q)] with the default linear interpolation: position
    [(n - 1) * q] in the sorted non-null values. *)
Definition quantile (l : list (option Q)) (q : Q) : option Q :=
  let s := OrdenarQ.sort (no_nulos l) in
  match s with
  | [] => None
  | _ =>
      let h := inject_Z (Z.of_nat (List.length s - 1)) * q in
      let i := Qfloor h in
      let inferior := nth (Z.to_nat i) s 0 in
      let superior := nth (Z.to_nat (i + 1)) s inferior in
      Some (inferior + (superior - inferior) * (h - inject_Z i))
  end.

(** The distinct non-null values, sorted: the categories of a column. *)
Definition unicos (l : list (option string)) : list string :=
  OrdenarTexto.sort (nodup string_dec (no_nulos l)).

(** [s.nunique()] *)
Definition nunique (l : list (option string)) : nat := List.length (unicos l).

(** [s.mode()[0]] when [s.mode()] is not empty: the most frequent non-null
    value, the smallest one on a tie. *)
Definition moda (l : list (option string)) : option string :=
  let xs := no_nulos l in
  fold_left
    (fun mejor c =>
       match mejor with
       | None => Some c
       | Some b =>
           if Nat.ltb (count_occ string_dec xs b) (count_occ string_dec xs c)
           then Some c else Some b
       end)
    (unicos l) None.

(** [s.fillna(otra)], row by row, and [s.fillna(escalar)]; filling with
    NaN fills nothing. *)
Fixpoint fillna {A} (vs rellenos : list (option A)) : list (option A) :=
  match vs, rellenos with
  | [], _ => []
  | _, [] => vs
  | Some x :: vs', _ :: rs' => Some x :: fillna vs' rs'
  | None :: vs', r :: rs' => r :: fillna vs' rs'
  end.

Definition fillna_escalar {A} (vs : list (option A)) (relleno : option A)
  : list (option A) :=
  map (fun v => match v with Some x => Some x | None => relleno end) vs.

(** [s.clip(lower=..., upper=...)] *)
Definition clip (lower upper : Q) (vs : list (option Q)) : list (option Q) :=
  map (option_map (fun x => if Qlt_bool x lower then lower
                            else if Qlt_bool upper x then upper else x)) vs.

(** *** DataFrames *)

Inductive columna : Type :=
| Numerica (vs : list (option Q))
| Categorica (vs : list (option string)).

Definition Dataset := list (string * columna).

Definition etiquetas (d : Dataset) : list string := map fst d.

Definition es_numerica (c : columna) : bool :=
  match c with Numerica _ => true | Categorica _ => false end.

Definition es_categorica (c : columna) : bool := negb (es_numerica c).

Definition longitud (c : columna) : nat :=
  match c with Numerica vs => List.length vs | Categorica vs => List.length vs end.

Definition n_filas (d : Dataset) : nat :=
  match d with
  | [] => O
  | (_, c) :: _ => longitud c
  end.

(** [datos.select_dtypes(include=[np.number]).columns] and
    [datos.select_dtypes(include=['object']).columns] *)
Definition columnas_numericas (d : Dataset) : list string :=
  etiquetas (filter (fun nc => es_numerica (snd nc)) d).

Definition columnas_object (d : Dataset) : list string :=
  etiquetas (filter (fun nc => es_categorica (snd nc)) d).

(** [datos[n]] as a Series: defined when exactly one column bears the
    label. *)
Definition serie (d : Dataset) (n : string) : option columna :=
  match filter (fun nc => String.eqb (fst nc) n) d with
  | [nc] => Some (snd nc)
  | _ => None
  end.

(** [datos[n] = c]: in place when the label exists, a new last column
    otherwise. *)
Definition asignar (n : string) (c : columna) (d : Dataset) : Dataset :=
  if existsb (fun nc => String.eqb (fst nc) n) d
  then map (fun nc => if String.eqb (fst nc) n then (n, c) else nc) d
  else d ++ [(n, c)].

(** [datos.drop(columns=ns)] *)
Definition drop (ns : list string) (d : Dataset) : Dataset :=
  filter (fun nc => negb (existsb (String.eqb (fst nc)) ns)) d.

Definition celda (c : columna) (i : nat) : valor :=
  match c with
  | Numerica vs => option_map ENum (nth i vs None)
  | Categorica vs => option_map ETexto (nth i vs None)
  end.

Definition celdas (c : columna) : list valor :=
  match c with
  | Numerica vs => map (option_map ENum) vs
  | Categorica vs => map (option_map ETexto) vs
  end.

(** The [i]-th row, as [apply(axis=1)] passes it. *)
Definition fila_de (d : Dataset) (i : nat) : fila :=
  map (fun nc => (fst nc, celda (snd nc) i)) d.

(** *** [groupby(clave)[columna].transform(agg)] *)

Definition escalar_eqb (a b : escalar) : bool :=
  match a, b with
  | ENum x, ENum y => Qeq_bool x y
  | ETexto s, ETexto t => String.eqb s t
  | _, _ => false
  end.

Definition en_grupo (k : escalar) (clave : valor) : bool :=
  match clave with
  | Some k' => escalar_eqb k' k
  | None => false
  end.

Definition grupo {A} (k : escalar) (claves : list valor) (vs : list (option A))
  : list (option A) :=
  map snd (filter (fun kv => en_grupo k (fst kv)) (combine claves vs)).

(** Every row receives the aggregate of its own group; a row whose key is
    missing belongs to no group and receives NaN. *)
Definition transform {A} (agg : list (option A) -> option A)
  (claves : list valor) (vs : list (option A)) : list (option A) :=
  map (fun clave =>
         match clave with
         | Some k => agg (grupo k claves vs)
         | None => None
         end) claves.

(** *** [pd.get_dummies(..., dtype=int)] of one column *)

Definition indicador (v : string) (l : list (option string)) : list (option Q) :=
  map (fun x => match x with
                | Some s => if String.eqb s v then Some 1 else Some 0
                | None => Some 0
                end) l.

Definition get_dummies (prefix : string) (l : list (option string)) : Dataset :=
  map (fun v => (prefix ++ "_" ++ v, Numerica (indicador v l)))%string (unicos l).

End Pandas.
Export Pandas.

(** ** Stage 2: position inference *)

Module Inferencia.

Definition gk_attrs : list string :=
  ["gk_diving"; "gk_handling"; "gk_kicking"; "gk_positioning"; "gk_reflexes"].
Definition atributos_defensa : list string :=
  ["marking"; "standing_tackle"; "sliding_tackle"; "interceptions"].
Definition atributos_medio : list string :=
  ["vision"; "short_passing"; "long_passing"; "ball_control"].
Definition atributos_ataque : list string :=
  ["finishing"; "shot_power"; "long_shots"; "positioning"].

(** [any(pd.notnull(row.get(attr, 0)) and row.get(attr, 0) > 50
         for attr in gk_attrs if attr in row)]:
    the generator is consumed left to right and stops at the first True;
    comparing a text with 50 raises, and so does taking the truth value
    of a Series. *)
Fixpoint alguno_supera (row : fila) (umbral : Q) (attrs : list string)
  : Resultado bool :=
  match attrs with
  | [] => Ok false
  | attr :: resto =>
      match buscar row attr with
      | Ausente => alguno_supera row umbral resto
      | Unico None => alguno_supera row umbral resto
      | Unico (Some (ENum q)) =>
          if Qlt_bool umbral q then Ok true
          else alguno_supera row umbral resto
      | Unico (Some (ETexto _)) => Excepcion "TypeError"
      | Repetido => Excepcion "ValueError"
      end
  end.

(** [[row.get(attr, 0) for attr in attrs
      if attr in row and pd.notnull(row.get(attr, 0))]] *)
Fixpoint valores_presentes (row : fila) (attrs : list string)
  : Resultado (list escalar) :=
  match attrs with
  | [] => Ok []
  | attr :: resto =>
      match buscar row attr with
      | Ausente => valores_presentes row resto
      | Unico None => valores_presentes row resto
      | Unico (Some v) => vs <- valores_presentes row resto ;; Ok (v :: vs)
      | Repetido => Excepcion "ValueError"
      end
  end.

Definition promedio_atributos (row : fila) (attrs : list string) : Resultado Q :=
  valores <- valores_presentes row attrs ;;
  match valores with
  | [] => Ok 0
  | _ => np_mean valores
  end.

(** The body of the [try] block. *)
Definition decidir (row : fila) : Resultado string :=
  portero <- alguno_supera row 50 gk_attrs ;;
  if portero then Ok "Portero"
  else
    score_def <- promedio_atributos row atributos_defensa ;;
    score_med <- promedio_atributos row atributos_medio ;;
    score_ataq <- promedio_atributos row atributos_ataque ;;
    if Qlt_bool (py_max score_def score_med) score_ataq then Ok "Delantero"
    else if Qlt_bool (py_max score_def score_ataq) score_med then Ok "Mediocampista"
    else if Qlt_bool (py_max score_med score_ataq) score_def then Ok "Defensa"
    else Ok "Versatil".

(** [try: ... except: return 'Desconocido'] *)
Definition inferir_posicion (row : fila) : string :=
  match decidir row with
  | Ok etiqueta => etiqueta
  | Excepcion _ => "Desconocido"
  end.

Definition etiquetas_posicion : list string :=
  ["Portero"; "Delantero"; "Mediocampista"; "Defensa"; "Versatil"; "Desconocido"].

End Inferencia.
Export Inferencia.


(** ** Stages 2 to 8 of [limpiar_datos_fifa] *)

Module Limpieza.

Definition en_lista (n : string) (l : list string) : bool :=
  existsb (String.eqb n) l.

(** *** Stage 2: [datos['posicion_inferida'] = datos.apply(inferir_posicion, axis=1)] *)

(** Every record gets the label of its own row.  On a table without rows
    [apply] never calls the function on a record and answers an empty
    float64 Series. *)
Definition inferir_posiciones (datos : Dataset) : Dataset :=
  asignar "posicion_inferida"
    (match n_filas datos with
     | O => Numerica []
     | S _ =>
         Categorica (map (fun i => Some (inferir_posicion (fila_de datos i)))
                         (seq 0 (n_filas datos)))
     end)
    datos.

(** *** Stage 3: missing values, by position *)

(** The text columns that stages 3 and 5 leave alone. *)
Definition categoricas_excluidas : list string :=
  ["date"; "birthday"; "player_name"; "posicion_inferida"].

(** [datos.groupby('posicion_inferida', observed=True)]: the grouping
    column has to be there, once. *)
Definition claves_posicion (datos : Dataset) : Resultado (list valor) :=
  match serie datos "posicion_inferida" with
  | Some c => Ok (celdas c)
  | None => Excepcion "posicion_inferida"
  end.

(** One iteration of [for columna in columnas_numericas].  The test
    [datos[columna].isnull().any()] needs a Series: a repeated label
    raises. *)
Definition imputar_numerica (datos : Dataset) (columna : string)
  : Resultado Dataset :=
  match serie datos columna with
  | Some (Numerica vs) =>
      if isnull_any vs then
        claves <- claves_posicion datos ;;
        let mediana_por_posicion := transform mediana claves vs in
        let vs1 := fillna vs mediana_por_posicion in
        let datos1 := asignar columna (Numerica vs1) datos in
        (* Si aun hay nulos, usar mediana global *)
        if isnull_any vs1
        then Ok (asignar columna (Numerica (fillna_escalar vs1 (mediana vs1))) datos1)
        else Ok datos1
      else Ok datos
  | Some (Categorica _) => Ok datos
  | None => Excepcion "ValueError"
  end.

(** [lambda x: x.mode()[0] if not x.mode().empty else 'Unknown'] *)
Definition moda_o_unknown (x : list (option string)) : option string :=
  match moda x with
  | Some m => Some m
  | None => Some "Unknown"
  end.

(** One iteration of [for columna in columnas_categoricas]; [and] does not
    look at the column of an excluded label. *)
Definition imputar_categorica (datos : Dataset) (columna : string)
  : Resultado Dataset :=
  if en_lista columna categoricas_excluidas then Ok datos
  else
    match serie datos columna with
    | Some (Categorica vs) =>
        if isnull_any vs then
          claves <- claves_posicion datos ;;
          let moda_por_posicion := transform moda_o_unknown claves vs in
          Ok (asignar columna (Categorica (fillna vs moda_por_posicion)) datos)
        else Ok datos
    | Some (Numerica _) => Ok datos
    | None => Excepcion "ValueError"
    end.

Definition imputar (datos : Dataset) : Resultado Dataset :=
  datos1 <- para_cada imputar_numerica (columnas_numericas datos) datos ;;
  para_cada imputar_categorica (columnas_object datos1) datos1.

(** *** Stage 5: one-hot encoding *)

Definition seleccionar_onehot (datos : Dataset) (seleccion : list string)
  (columna : string) : Resultado (list string) :=
  if en_lista columna categoricas_excluidas then Ok seleccion
  else
    match serie datos columna with
    | Some (Categorica vs) =>
        if (nunique vs <=? 15)%nat then Ok (seleccion ++ [columna]) else Ok seleccion
    | Some (Numerica _) => Ok seleccion
    | None => Excepcion "ValueError"
    end.

Definition columnas_categoricas_onehot (datos : Dataset) : Resultado (list string) :=
  para_cada (seleccionar_onehot datos) (columnas_object datos) [].

(** [pd.get_dummies(datos[seleccion], columns=seleccion, prefix=seleccion, dtype=int)] *)
Definition datos_encoded (datos : Dataset) (seleccion : list string) : Dataset :=
  flat_map (fun n => match serie datos n with
                     | Some (Categorica vs) => get_dummies n vs
                     | _ => []
                     end) seleccion.

Definition codificar (datos : Dataset) : Resultado Dataset :=
  seleccion <- columnas_categoricas_onehot datos ;;
  match seleccion with
  | [] => Ok datos
  | _ => Ok (drop seleccion datos ++ datos_encoded datos seleccion)
  end.

(** *** Stage 6: 0-100 normalisation *)

Definition excluir_normalizacion : list string :=
  ["id"; "player_fifa_api_id"; "player_api_id"; "edad_estimada";
   "score_fisico"; "score_tecnico"; "score_mental"].

Definition columnas_a_normalizar (datos : Dataset) : list string :=
  filter (fun col => negb (en_lista col excluir_normalizacion))
         (columnas_numericas datos).

(** One iteration, [try] block included: whatever raises (a label borne by
    several columns makes [maximo > minimo] a Series without a truth value)
    leaves the data as they are; so do NaN bounds, which compare false. *)
Definition normalizar_columna (datos : Dataset) (columna : string) : Dataset :=
  match serie datos columna with
  | Some (Numerica vs) =>
      match min_serie vs, max_serie vs with
      | Some minimo, Some maximo =>
          if Qlt_bool minimo maximo then
            asignar columna
              (Numerica
                 (map (option_map
                         (fun x => division64 (multiplicacion64 (resta64 x minimo) 100)
                                              (resta64 maximo minimo)))
                      vs))
              datos
          else if Qeq_bool maximo minimo then
            asignar columna (Numerica (map (fun _ => Some 50) vs)) datos
          else datos
      | _, _ => datos
      end
  | _ => datos
  end.

Definition normalizar (datos : Dataset) : Dataset :=
  fold_left normalizar_columna (columnas_a_normalizar datos) datos.

(** *** Stage 7: outliers *)

Definition columnas_clave : list string :=
  ["overall_rating"; "potential"; "score_fisico"; "score_tecnico";
   "score_mental"; "crossing"; "finishing"; "short_passing";
   "dribbling"; "ball_control"].

Definition columnas_existentes (datos : Dataset) : list string :=
  filter (fun col => en_lista col (etiquetas datos)) columnas_clave.

(** A Python [dict] with text keys: insertion ordered, one entry per key. *)
Definition dict := list (string * nat).

(** [dic[k] = v] *)
Fixpoint dict_set (k : string) (v : nat) (dic : dict) : dict :=
  match dic with
  | [] => [(k, v)]
  | (k', v') :: resto =>
      if String.eqb k' k then (k, v) :: resto
      else (k', v') :: dict_set k v resto
  end.


Definition fuera_de_limites (limite_inferior limite_superior : Q) (v : option Q)
  : bool :=
  match v with
  | Some x => Qlt_bool x limite_inferior || Qlt_bool limite_superior x
  | None => false
  end.

(** [((s < limite_inferior) | (s > limite_superior)).sum()] *)
Definition contar_outliers (limite_inferior limite_superior : Q)
  (vs : list (option Q)) : nat :=
  List.length (filter (fuera_de_limites limite_inferior limite_superior) vs).

(** One iteration over the data and [outliers_tratados]; the [try] block
    turns a failing [quantile] (a text column, a repeated label) into
    [continue]. *)
Definition tratar_columna (estado : Dataset * dict) (columna : string)
  : Dataset * dict :=
  let (datos, outliers_tratados) := estado in
  match serie datos columna with
  | Some (Numerica vs) =>
      match quantile vs (1 # 4), quantile vs (3 # 4) with
      | Some Q1, Some Q3 =>
          let IQR := Q3 - Q1 in
          if Qlt_bool 0 IQR then
            let limite_inferior := Q1 - (3 # 2) * IQR in
            let limite_superior := Q3 + (3 # 2) * IQR in
            let outliers_count := contar_outliers limite_inferior limite_superior vs in
            if (0 <? outliers_count)%nat then
              (asignar columna (Numerica (clip limite_inferior limite_superior vs)) datos,
               dict_set columna outliers_count outliers_tratados)
            else estado
          else estado
      | _, _ => estado
      end
  | _ => estado
  end.

Definition tratar_outliers (datos : Dataset) : Dataset * dict :=
  fold_left tratar_columna (columnas_existentes datos) (datos, []).

(** *** Stages 1 and 8, and the whole run *)

(** The SQLite file: either it cannot be opened, or it holds tables. *)
Definition Almacen := option (list (string * Dataset)).

Definition read_table (tablas : list (string * Dataset)) (nombre : string)
  : Resultado Dataset :=
  match find (fun t => String.eqb (fst t) nombre) tablas with
  | Some t => Ok (snd t)
  | None => Excepcion ("no such table: " ++ nombre)
  end.

(** [SELECT c1, c2, ... FROM t] *)
Fixpoint proyectar (cols : list string) (t : Dataset) : Resultado Dataset :=
  match cols with
  | [] => Ok []
  | col :: resto =>
      match serie t col with
      | Some c => t' <- proyectar resto t ;; Ok ((col, c) :: t')
      | None => Excepcion ("no such column: " ++ col)
      end
  end.

(** The [try] block of stage 1. *)
Definition cargar (a : Almacen) : Resultado (Dataset * Dataset) :=
  match a with
  | None => Excepcion "unable to open database file"
  | Some tablas =>
      datos <- read_table tablas "Player_Attributes" ;;
      player <- read_table tablas "Player" ;;
      players_info <- proyectar ["player_api_id"; "player_name"; "birthday"] player ;;
      Ok (datos, players_info)
  end.

(** What a run can leave behind: the lines printed, the output directory,
    and the two artifacts. *)
Record Mundo : Type := {
  consola : list string;
  directorio_salida : bool;
  tabla_salida : option Dataset;
  csv_salida : option Dataset
}.

Definition print (linea : string) (w : Mundo) : Mundo :=
  {| consola := consola w ++ [linea];
     directorio_salida := directorio_salida w;
     tabla_salida := tabla_salida w;
     csv_salida := csv_salida w |}.

Definition to_sql (datos : Dataset) (w : Mundo) : Mundo :=
  {| consola := consola w;
     directorio_salida := directorio_salida w;
     tabla_salida := Some datos;
     csv_salida := csv_salida w |}.

Definition to_csv (datos : Dataset) (w : Mundo) : Mundo :=
  {| consola := consola w;
     directorio_salida := directorio_salida w;
     tabla_salida := tabla_salida w;
     csv_salida := Some datos |}.

(** How the disk answers stage 8.  The directory may refuse to be created.
    A write that fails need not leave its target as it was: [to_sql]
    replaces the table before it inserts, [to_csv] truncates the file
    before it writes; [resto] is what the failed write left. *)
Inductive Disco : Type :=
| DiscoOk
| FallaMkdir (e : string)
| FallaSqlite (e : string) (resto : option Dataset)
| FallaCsv (e : string) (resto : option Dataset).

(** [Path(RUTA_SALIDA).parent.mkdir(parents=True, exist_ok=True)] *)
Definition mkdir (disco : Disco) (w : Mundo) : Mundo * Resultado unit :=
  match disco with
  | FallaMkdir e => (w, Excepcion e)
  | _ => ({| consola := consola w;
             directorio_salida := true;
             tabla_salida := tabla_salida w;
             csv_salida := csv_salida w |}, Ok tt)
  end.

Definition dejar_tabla (resto : option Dataset) (w : Mundo) : Mundo :=
  {| consola := consola w;
     directorio_salida := directorio_salida w;
     tabla_salida := resto;
     csv_salida := csv_salida w |}.

Definition dejar_csv (resto : option Dataset) (w : Mundo) : Mundo :=
  {| consola := consola w;
     directorio_salida := directorio_salida w;
     tabla_salida := tabla_salida w;
     csv_salida := resto |}.

(** The [try] block of stage 8. *)
Definition guardar (disco : Disco) (datos : Dataset) (w : Mundo)
  : Mundo * Resultado unit :=
  match disco with
  | FallaSqlite e resto => (dejar_tabla resto w, Excepcion e)
  | FallaCsv e resto => (dejar_csv resto (to_sql datos w), Excepcion e)
  | _ => (to_csv datos (to_sql datos w), Ok tt)
  end.

Section Ejecucion.

(** The two steps no property below depends on are parameters of the run:
    the left join of stage 2 and the derived variables of stage 4.  Either
    may raise (the join a KeyError when a table lacks the key), and
    nothing catches it. *)
Variable merge : Dataset -> Dataset -> Resultado Dataset.
Variable crear_variables_derivadas : Dataset -> Resultado Dataset.

(** Stages 2 to 7 on the loaded tables; an exception of stages 2 to 5 is
    not caught.  Of the progress report only the stage headers and the
    error lines are kept. *)
Definition transformar (datos players_info : Dataset) (w : Mundo)
  : Mundo * Resultado (Dataset * dict) :=
  let w := print "2. Preparando datos..." w in
  match merge datos players_info with
  | Excepcion e => (w, Excepcion e)
  | Ok datos =>
      let datos := inferir_posiciones datos in
      let w := print "3. Tratando valores nulos..." w in
      match imputar datos with
      | Excepcion e => (w, Excepcion e)
      | Ok datos =>
          let w := print "4. Creando variables derivadas..." w in
          match crear_variables_derivadas datos with
          | Excepcion e => (w, Excepcion e)
          | Ok datos =>
              let w := print "5. Aplicando codificacion one-hot..." w in
              match codificar datos with
              | Excepcion e => (w, Excepcion e)
              | Ok datos =>
                  let w := print "6. Normalizando atributos numericos..." w in
                  let datos := normalizar datos in
                  let w := print "7. Tratando outliers..." w in
                  (w, Ok (tratar_outliers datos))
              end
          end
      end
  end.

(** The run: the final world, and either the value returned ([None] after
    a caught failure) or the exception that escaped.  The directory is
    made before the [try] block of stage 8 opens. *)
Definition limpiar_datos_fifa (a : Almacen) (disco : Disco) (w : Mundo)
  : Mundo * Resultado (option Dataset) :=
  let w := print "Limpieza de datos FIFA" w in
  let w := print "1. Cargando datos..." w in
  match cargar a with
  | Excepcion e => (print ("   Error al cargar datos: " ++ e) w, Ok None)
  | Ok (datos, players_info) =>
      match transformar datos players_info w with
      | (w, Excepcion e) => (w, Excepcion e)
      | (w, Ok (datos, _)) =>
          let w := print "8. Guardando resultados..." w in
          match mkdir disco w with
          | (w, Excepcion e) => (w, Excepcion e)
          | (w, Ok _) =>
              match guardar disco datos w with
              | (w, Excepcion e) => (print ("   Error al guardar: " ++ e) w, Ok None)
              | (w, Ok _) => (print "Limpieza completada" w, Ok (Some datos))
              end
          end
      end
  end.

End Ejecucion.

End Limpieza.
Export Limpieza.


(** ** Vocabulary of the properties *)

Module Vocabulario.

(** A rating as the data model has it: absent from the row, missing, or a
    number; never a text, never a repeated label. *)
Definition numerico_o_nulo (row : fila) (attr : string) : Prop :=
  match buscar row attr with
  | Ausente => True
  | Unico None => True
  | Unico (Some (ENum _)) => True
  | Unico (Some (ETexto _)) => False
  | Repetido => False
  end.

(** The goalkeeper condition: some goalkeeper attribute is present, not
    null and above 50. *)
Definition condicion_portero (row : fila) : Prop :=
  exists attr q,
    In attr gk_attrs /\ buscar row attr = Unico (Some (ENum q)) /\ 50 < q.

(** The numbers a row holds for a list of attributes, nulls and absent
    attributes skipped, and their mean, 0 when there is none. *)
Definition calificaciones (row : fila) (attrs : list string) : list Q :=
  flat_map (fun attr => match buscar row attr with
                        | Unico (Some (ENum q)) => [q]
                        | _ => []
                        end) attrs.

Definition promedio_grupo (row : fila) (attrs : list string) : Q :=
  match calificaciones row attrs with
  | [] => 0
  | qs => media qs
  end.


Definition nulo_o_cero (row : fila) (attr : string) : Prop :=
  match buscar row attr with
  | Ausente => True
  | Unico None => True
  | Unico (Some (ENum q)) => q == 0
  | _ => False
  end.

(** What stage 6 does to the values of a column it handles. *)
Definition reescalar (vs : list (option Q)) : list (option Q) :=
  match min_serie vs, max_serie vs with
  | Some minimo, Some maximo =>
      if Qlt_bool minimo maximo
      then map (option_map
                  (fun x => division64 (multiplicacion64 (resta64 x minimo) 100)
                                       (resta64 maximo minimo)))
               vs
      else if Qeq_bool maximo minimo then map (fun _ => Some 50) vs
      else vs
  | _, _ => vs
  end.

Definition efecto_normalizar (c : columna) : columna :=
  match c with
  | Numerica vs => Numerica (reescalar vs)
  | Categorica _ => c
  end.

(** What stage 7 does to the values of a column it handles. *)
Definition recortar (vs : list (option Q)) : list (option Q) :=
  match quantile vs (1 # 4), quantile vs (3 # 4) with
  | Some Q1, Some Q3 =>
      if Qlt_bool 0 (Q3 - Q1)
      then clip (Q1 - (3 # 2) * (Q3 - Q1)) (Q3 + (3 # 2) * (Q3 - Q1)) vs
      else vs
  | _, _ => vs
  end.

Definition efecto_recortar (c : columna) : columna :=
  match c with
  | Numerica vs => Numerica (recortar vs)
  | Categorica _ => c
  end.



(** The number a column holds in row [i], an empty cell counting for 0,
    and the sum of a row over a group of columns. *)
Definition numero_en (c : columna) (i : nat) : Q :=
  match c with
  | Numerica vs => match nth i vs None with Some q => q | None => 0 end
  | Categorica _ => 0
  end.

Definition suma_fila (cols : Dataset) (i : nat) : Q :=
  suma (map (fun nc => numero_en (snd nc) i) cols).

(** The name get_dummies gives to the indicator of a value. *)
Definition nombre_indicador (columna v : string) : string :=
  (columna ++ "_" ++ v)%string.

Definition es_valor (v : string) (x : option string) : bool :=
  match x with
  | Some s => String.eqb s v
  | None => false
  end.


(** A column with at least one value, and a column without null. *)
Definition tiene_valor (c : columna) : Prop :=
  match c with
  | Numerica vs => exists q, In (Some q) vs
  | Categorica vs => exists s, In (Some s) vs
  end.

Definition sin_nulos (c : columna) : Prop :=
  match c with
  | Numerica vs => ~ In None vs
  | Categorica vs => ~ In None vs
  end.

(** Every one of [k] records has its position label. *)
Definition posiciones_completas (datos : Dataset) (k : nat) : Prop :=
  exists claves,
    serie datos "posicion_inferida" = Some (Categorica claves) /\
    ~ In None claves /\ List.length claves = k.

(** The invariant of stage 3 for one column of a table: if the column
    held a value before the stage, it holds no null after it. *)
Definition invariante_imputacion (datos : Dataset) (columna : string) : Prop :=
  forall datos' c,
    imputar datos = Ok datos' ->
    serie datos columna = Some c -> tiene_valor c ->
    exists c', serie datos' columna = Some c' /\ sin_nulos c'.

(** The store has no relation of that name. *)
Definition relacion_ausente (tablas : list (string * Dataset)) (nombre : string)
  : Prop :=
  forall t, ~ In (nombre, t) tablas.

End Vocabulario.
Export Vocabulario.

(** ** Sample tables *)

Module Ejemplos.

Definition jugadores : Dataset :=
  [("id", Numerica [Some 1; Some 2; Some 3; Some 4]);
   ("overall_rating", Numerica [Some 40; None; Some 90; Some 65]);
   ("potential", Numerica [Some 70; Some 70; Some 70; Some 70]);
   ("preferred_foot", Categorica [Some "left"; Some "right"; None; Some "left"]);
   ("attacking_work_rate", Categorica [Some "high"; Some "low"; Some "medium"; Some "low"]);
   ("player_name", Categorica [Some "Lionel Messi"; None; Some "Iker Casillas"; None]);
   ("gk_reflexes", Numerica [Some 12; None; Some 88; Some 15]);
   ("finishing", Numerica [Some 95; Some 60; Some 10; None])].

End Ejemplos.


(** ** Stage 3: the report on nulls *)

Module Informe.

Definition nulos_columna (c : columna) : nat :=
  match c with
  | Numerica vs => List.length (filter es_nulo vs)
  | Categorica vs => List.length (filter es_nulo vs)
  end.

(** [datos.isnull().sum().sum()] *)
Definition contar_nulos (datos : Dataset) : nat :=
  list_sum (map (fun nc => nulos_columna (snd nc)) datos).

(** The value of a float expression over counts: a rational, or one of
    the two special values a zero divisor produces (numpy warns, it does
    not raise). *)
Inductive flotante : Type :=
| Finito (q : Q)
| NaN
| MenosInfinito.

(** [(1 - nulos_finales/nulos_iniciales)*100] *)
Definition reduccion_nulos (nulos_iniciales nulos_finales : nat) : flotante :=
  match nulos_iniciales, nulos_finales with
  | O, O => NaN
  | O, S _ => MenosInfinito
  | S _, _ =>
      Finito ((1 - inject_Z (Z.of_nat nulos_finales) / inject_Z (Z.of_nat nulos_iniciales))
              * 100)
  end.

End Informe.
Export Informe.


(** ** Stage 4: the three scores *)

Module Derivadas.

Definition atributos_fisicos : list string :=
  ["acceleration"; "sprint_speed"; "stamina"; "strength"].

Definition atributos_tecnicos : list string :=
  ["ball_control"; "dribbling"; "short_passing"].

Definition atributos_mentales : list string :=
  ["positioning"; "vision"; "reactions"].

(** [datos[lista]]: the columns bearing a label of the list, in the order
    of the list. *)
Definition seleccionar (lista : list string) (d : Dataset) : Dataset :=
  flat_map (fun n => filter (fun nc => String.eqb (fst nc) n) d) lista.

(** The columns as a reduction over rows reads them; a text among the
    values makes it raise (a TypeError in pandas 2, whose message is not
    kept), an object column holding only nulls counts as nulls. *)
Fixpoint valores (cols : Dataset) : Resultado (list (list (option Q))) :=
  match cols with
  | [] => Ok []
  | (_, Numerica vs) :: resto => vss <- valores resto ;; Ok (vs :: vss)
  | (_, Categorica vs) :: resto =>
      if forallb es_nulo vs
      then vss <- valores resto ;; Ok (map (fun _ => None) vs :: vss)
      else Excepcion "TypeError"
  end.

(** The mean of a row as binary64 computes it: the values are added one
    after the other in the order of the columns, each sum rounded, and the
    total is divided by their number.  The source leaves the order of the
    additions to the library; a reduction over so few values adds them in
    sequence, and the NaN, counted as 0 there, leave the sum as it is. *)
Definition suma64 (a b : Q) : Q := redondear64 (a + b).

Definition media64 (l : list Q) : Q :=
  division64 (fold_left suma64 l 0) (inject_Z (Z.of_nat (List.length l))).

(** The mean of row [i], NaN skipped, NaN when the row holds no value. *)
Definition media_fila (vss : list (list (option Q))) (i : nat) : option Q :=
  match no_nulos (map (fun vs => nth i vs None) vss) with
  | [] => None
  | x :: xs => Some (media64 (x :: xs))
  end.

(** [cols.mean(axis=1)] on a frame of [filas] rows. *)
Definition mean_axis1 (filas : nat) (cols : Dataset) : Resultado (list (option Q)) :=
  vss <- valores cols ;; Ok (map (media_fila vss) (seq 0 filas)).

(** One of the three blocks: the attributes of the list that are labels of
    the table, and their row mean when there is one. *)
Definition crear_score (nombre : string) (atributos : list string) (datos : Dataset)
  : Resultado Dataset :=
  let atributos := filter (fun attr => en_lista attr (etiquetas datos)) atributos in
  match atributos with
  | [] => Ok datos
  | _ =>
      s <- mean_axis1 (n_filas datos) (seleccionar atributos datos) ;;
      Ok (asignar nombre (Numerica s) datos)
  end.

Definition crear_scores (datos : Dataset) : Resultado Dataset :=
  datos <- crear_score "score_fisico" atributos_fisicos datos ;;
  datos <- crear_score "score_tecnico" atributos_tecnicos datos ;;
  crear_score "score_mental" atributos_mentales datos.

End Derivadas.
Export Derivadas.


(** ** Further vocabulary *)

Module Complementos.

(** The three scores and what each is the mean of. *)
Definition puntajes : list (string * list string) :=
  [("score_fisico", atributos_fisicos);
   ("score_tecnico", atributos_tecnicos);
   ("score_mental", atributos_mentales)].

(** The numbers row [i] holds for a list of attributes, nulls and absent
    attributes skipped, and their mean as stage 4 computes it, a null when
    there is none. *)
Definition valores_fila (d : Dataset) (attrs : list string) (i : nat) : list Q :=
  flat_map (fun a => match serie d a with
                     | Some (Numerica vs) =>
                         match nth i vs None with Some x => [x] | None => [] end
                     | _ => []
                     end) attrs.

Definition media_de_presentes (d : Dataset) (attrs : list string) (i : nat) : option Q :=
  match valores_fila d attrs i with
  | [] => None
  | x :: xs => Some (media64 (x :: xs))
  end.

(** The seventeen attributes the inference reads. *)
Definition atributos_leidos : list string :=
  gk_attrs ++ atributos_defensa ++ atributos_medio ++ atributos_ataque.

(** A record of the data model: every attribute read is a rating. *)
Definition registro_de_calificaciones (row : fila) : Prop :=
  forall a, In a atributos_leidos -> numerico_o_nulo row a.

(** [vs'] is [vs] with some of its nulls filled: as many rows, and every
    cell that held a value still holds it. *)
Definition rellena {A} (vs vs' : list (option A)) : Prop :=
  Forall2 (fun v v' => forall x, v = Some x -> v' = Some x) vs vs'.

Definition columna_rellenada (c c' : columna) : Prop :=
  match c, c' with
  | Numerica vs, Numerica vs' => rellena vs vs'
  | Categorica vs, Categorica vs' => rellena vs vs'
  | _, _ => False
  end.

(** Column by column, in order: same label, same kind, nulls filled. *)
Definition tabla_rellenada (d d' : Dataset) : Prop :=
  Forall2 (fun nc nc' => fst nc = fst nc' /\ columna_rellenada (snd nc) (snd nc')) d d'.

(** Some column that stage 3 handles holds a null. *)
Definition hay_que_imputar (d : Dataset) : Prop :=
  (exists n vs, In (n, Numerica vs) d /\ In None vs) \/
  (exists n vs, In (n, Categorica vs) d /\ ~ In n categoricas_excluidas /\ In None vs).

(** The cells of a column in the rows whose position is [k]. *)
Definition valores_del_grupo {A} (k : string) (claves : list (option string))
  (vs : list (option A)) : list (option A) :=
  grupo (ETexto k) (celdas (Categorica claves)) vs.


Definition relleno_categorico (claves : list valor) (vs : list (option string))
  : list (option string) :=
  if isnull_any vs then fillna vs (transform moda_o_unknown claves vs) else vs.

(** Same kind and same number of rows. *)
Definition misma_forma (c c' : columna) : Prop :=
  es_numerica c = es_numerica c' /\ longitud c = longitud c'.

(** Column by column, in order: same label, same kind, same number of
    rows. *)
Definition mismo_esquema (d d' : Dataset) : Prop :=
  Forall2 (fun nc nc' => fst nc = fst nc' /\ misma_forma (snd nc) (snd nc')) d d'.

(** The linear interpolation [quantile] makes at position [h] of the sorted
    values. *)
Definition interpolar (s : list Q) (h : Q) : Q :=
  let i := Qfloor h in
  let inferior := nth (Z.to_nat i) s 0 in
  let superior := nth (Z.to_nat (i + 1)) s inferior in
  inferior + (superior - inferior) * (h - inject_Z i).

(** [w'] differs from [w] by lines printed only. *)
Definition solo_imprime (w w' : Mundo) : Prop :=
  directorio_salida w' = directorio_salida w /\
  tabla_salida w' = tabla_salida w /\
  csv_salida w' = csv_salida w /\
  exists lineas, consola w' = consola w ++ lineas.

End Complementos.
Export Complementos.


(** ** Position inference (stage 2) *)

Lemma Qlt_bool_iff x y : Qlt_bool x y = true <-> x < y.
Proof.
  unfold Qlt_bool. rewrite negb_true_iff.
  split; intro H.
  - apply Qnot_le_lt. intro Hle. apply Qle_bool_iff in Hle. congruence.
  - destruct (Qle_bool y x) eqn:E; [|reflexivity].
    apply Qle_bool_iff in E. exfalso. exact (Qlt_not_le _ _ H E).
Qed.

Lemma Qlt_bool_false_iff x y : Qlt_bool x y = false <-> y <= x.
Proof.
  unfold Qlt_bool. rewrite negb_false_iff. apply Qle_bool_iff.
Qed.


(** The goalkeeper test answers True at the first rating above the
    threshold, provided the attributes examined before it are ratings. *)
Lemma alguno_supera_prefijo row umbral antes attr despues q :
  (forall a, In a antes -> numerico_o_nulo row a) ->
  buscar row attr = Unico (Some (ENum q)) -> umbral < q ->
  alguno_supera row umbral (antes ++ attr :: despues) = Ok true.
Proof.
  intros Htipos Hb Hq. induction antes as [| a antes IH]; simpl.
  - rewrite Hb. apply Qlt_bool_iff in Hq. now rewrite Hq.
  - assert (Ha := Htipos a (or_introl eq_refl)).
    assert (Hresto := IH (fun a' Ha' => Htipos a' (or_intror Ha'))).
    unfold numerico_o_nulo in Ha.
    destruct (buscar row a) as [| [[q' | s] |] |]; try contradiction; try exact Hresto.
    destruct (Qlt_bool umbral q'); [reflexivity | exact Hresto].
Qed.

Lemma alguno_supera_true row umbral attrs :
  (forall a, In a attrs -> numerico_o_nulo row a) ->
  (exists attr q, In attr attrs /\ buscar row attr = Unico (Some (ENum q)) /\ umbral < q) ->
  alguno_supera row umbral attrs = Ok true.
Proof.
  intros Htipos (attr & q & Hin & Hb & Hq).
  destruct (in_split _ _ Hin) as (antes & despues & ->).
  apply (alguno_supera_prefijo row umbral antes attr despues q); try assumption.
  intros a Ha. apply Htipos, in_or_app. now left.
Qed.

Lemma alguno_supera_false row umbral attrs :
  (forall a, In a attrs -> numerico_o_nulo row a) ->
  ~ (exists attr q, In attr attrs /\ buscar row attr = Unico (Some (ENum q)) /\ umbral < q) ->
  alguno_supera row umbral attrs = Ok false.
Proof.
  induction attrs as [| a resto IH]; intros Htipos Hno; [reflexivity |].
  assert (Ha := Htipos a (or_introl eq_refl)).
  assert (Hresto : alguno_supera row umbral resto = Ok false).
  { apply IH.
    - intros a' Ha'. apply Htipos. now right.
    - intros (attr & q & Hin & Hb & Hq). apply Hno.
      exists attr, q. split; [now right |]. split; [exact Hb | exact Hq]. }
  unfold numerico_o_nulo in Ha. simpl.
  destruct (buscar row a) as [| [[q' | s] |] |] eqn:Eb; try contradiction; try exact Hresto.
  destruct (Qlt_bool umbral q') eqn:E; [| exact Hresto].
  exfalso. apply Hno. exists a, q'.
  split; [now left |]. split; [exact Eb | now apply Qlt_bool_iff].
Qed.

(** On well-typed attributes the comprehension yields the ratings, and
    [np.mean] their mean. *)
Lemma valores_presentes_calificaciones row attrs :
  (forall a, In a attrs -> numerico_o_nulo row a) ->
  valores_presentes row attrs = Ok (map ENum (calificaciones row attrs)).
Proof.
  induction attrs as [| a resto IH]; intro Htipos; [reflexivity |].
  assert (Ha := Htipos a (or_introl eq_refl)).
  assert (Hresto := IH (fun a' Ha' => Htipos a' (or_intror Ha'))).
  unfold numerico_o_nulo in Ha. unfold calificaciones in *. simpl.
  destruct (buscar row a) as [| [[q' | s] |] |]; try contradiction; simpl;
    rewrite Hresto; reflexivity.
Qed.

Lemma numeros_map_ENum qs : numeros (map ENum qs) = Ok qs.
Proof.
  induction qs as [| q qs IH]; [reflexivity |].
  simpl. rewrite IH. reflexivity.
Qed.

Lemma promedio_atributos_grupo row attrs :
  (forall a, In a attrs -> numerico_o_nulo row a) ->
  promedio_atributos row attrs = Ok (promedio_grupo row attrs).
Proof.
  intro Htipos. unfold promedio_atributos, promedio_grupo.
  rewrite (valores_presentes_calificaciones _ _ Htipos).
  destruct (calificaciones row attrs) as [| q qs]; [reflexivity |].
  unfold bind at 1. change (ENum q :: map ENum qs) with (map ENum (q :: qs)).
  cbv iota. unfold np_mean. rewrite numeros_map_ENum. reflexivity.
Qed.


Lemma decidir_etiqueta row etiqueta :
  decidir row = Ok etiqueta -> In etiqueta etiquetas_posicion.
Proof.
  unfold decidir, bind.
  destruct (alguno_supera row 50 gk_attrs) as [[|] | e]; [| | discriminate].
  - intros [= <-]. simpl. tauto.
  - destruct (promedio_atributos row atributos_defensa) as [sd | e]; [| discriminate].
    destruct (promedio_atributos row atributos_medio) as [sm | e]; [| discriminate].
    destruct (promedio_atributos row atributos_ataque) as [sa | e]; [| discriminate].
    destruct (Qlt_bool (py_max sd sm) sa); [intros [= <-]; simpl; tauto |].
    destruct (Qlt_bool (py_max sd sa) sm); [intros [= <-]; simpl; tauto |].
    destruct (Qlt_bool (py_max sm sa) sd); intros [= <-]; simpl; tauto.
Qed.

Lemma inferir_posicion_etiqueta row : In (inferir_posicion row) etiquetas_posicion.
Proof.
  unfold inferir_posicion.
  destruct (decidir row) as [etiqueta | e] eqn:E.
  - eapply decidir_etiqueta, E.
  - simpl. tauto.
Qed.

Lemma nulo_o_cero_numerico row attr : nulo_o_cero row attr -> numerico_o_nulo row attr.
Proof.
  unfold nulo_o_cero, numerico_o_nulo.
  destruct (buscar row attr) as [| [[q | s] |] |]; tauto.
Qed.

(** C4, as the code has it.  A record in which a goalkeeper attribute is
    present, not null and strictly above 50 is labelled Portero whatever
    all its other attributes hold, provided the goalkeeper attributes
    examined before the qualifying one (in the order gk_diving,
    gk_handling, gk_kicking, gk_positioning, gk_reflexes) are numbers or
    null.  In particular a record with gk_reflexes = 80 and every other
    attribute null or zero is Portero. *)
Theorem portero_cortocircuito :
  (forall row : fila,
      (forall a, In a gk_attrs -> numerico_o_nulo row a) ->
      condicion_portero row ->
      inferir_posicion row = "Portero") /\
  (forall (row : fila) (antes despues : list string) (attr : string) (q : Q),
      gk_attrs = antes ++ attr :: despues ->
      (forall a, In a antes -> numerico_o_nulo row a) ->
      buscar row attr = Unico (Some (ENum q)) -> 50 < q ->
      inferir_posicion row = "Portero") /\
  (forall row : fila,
      buscar row "gk_reflexes" = Unico (Some (ENum 80)) ->
      (forall a, a <> "gk_reflexes" -> nulo_o_cero row a) ->
      inferir_posicion row = "Portero").
Proof.
  assert (H : forall row : fila,
             (forall a, In a gk_attrs -> numerico_o_nulo row a) ->
             condicion_portero row -> inferir_posicion row = "Portero").
  { intros row Htipos Hc. unfold inferir_posicion, decidir.
    rewrite (alguno_supera_true row 50 gk_attrs Htipos Hc). reflexivity. }
  split; [exact H |]. split.
  - intros row antes despues attr q E Htipos Hb Hq.
    unfold inferir_posicion, decidir. rewrite E.
    rewrite (alguno_supera_prefijo row 50 antes attr despues q Htipos Hb Hq).
    reflexivity.
  - intros row Hb Hotros. apply H.
    + intros a _. destruct (string_dec a "gk_reflexes") as [-> | Hne].
      * unfold numerico_o_nulo. rewrite Hb. exact I.
      * apply nulo_o_cero_numerico, Hotros, Hne.
    + exists "gk_reflexes", 80.
      split; [simpl; tauto |]. split; [exact Hb | reflexivity].
Qed.

Lemma portero_cortocircuito_witness :
  inferir_posicion
    [("gk_diving", None); ("gk_reflexes", Some (ENum 80));
     ("finishing", Some (ENum 95)); ("player_name", Some (ETexto "Iker"))]
  = "Portero".
Proof.
  apply (proj1 portero_cortocircuito).
  - intros a Ha. simpl in Ha.
    repeat (destruct Ha as [<- | Ha]; [exact I |]). destruct Ha.
  - exists "gk_reflexes", 80.
    split; [simpl; tauto |]. split; reflexivity.
Defined.

(** The claim does not hold of every record: a text in a goalkeeper
    attribute examined before the qualifying one makes the comparison with
    50 raise, and the [except] branch answers Desconocido. *)
Lemma portero_texto_previo :
  ~ (forall row : fila, condicion_portero row -> inferir_posicion row = "Portero").
Proof.
  intro H.
  assert (E : inferir_posicion
                [("gk_diving", Some (ETexto "n/d")); ("gk_reflexes", Some (ENum 80))]
              = "Portero").
  { apply H. exists "gk_reflexes", 80.
    split; [simpl; tauto |]. split; reflexivity. }
  vm_compute in E. discriminate E.
Qed.




(** ** DataFrames: labels, lookup and assignment *)

Section EtiquetaFija.

Variable n : string.

Let con_etiqueta (nc : string * columna) : bool := String.eqb (fst nc) n.

Lemma filtro_sin_etiqueta (d : Dataset) :
  ~ In n (etiquetas d) -> filter con_etiqueta d = [].
Proof.
  induction d as [| [m c] d IH]; intro H; [reflexivity |].
  simpl in *. unfold con_etiqueta at 1. simpl.
  destruct (String.eqb_spec m n) as [-> | Hne]; [exfalso; tauto |].
  apply IH. tauto.
Qed.

Lemma filtro_vacio_sin_etiqueta (d : Dataset) :
  filter con_etiqueta d = [] -> ~ In n (etiquetas d).
Proof.
  induction d as [| [m c] d IH]; intro H; [simpl; tauto |].
  simpl in *. unfold con_etiqueta in H at 1. simpl in H.
  destruct (String.eqb_spec m n) as [-> | Hne]; [discriminate |].
  intros [E | Hin]; [congruence | exact (IH H Hin)].
Qed.

(** A label designates a Series exactly when one column bears it. *)
Lemma serie_Some_iff (d : Dataset) (c : columna) :
  serie d n = Some c <->
  exists d1 d2, d = d1 ++ (n, c) :: d2 /\
                ~ In n (etiquetas d1) /\ ~ In n (etiquetas d2).
Proof.
  unfold serie. fold con_etiqueta. split.
  - induction d as [| [m c'] d IH]; simpl; [discriminate |].
    unfold con_etiqueta at 1. simpl.
    destruct (String.eqb_spec m n) as [-> | Hne].
    + destruct (filter con_etiqueta d) as [| x l] eqn:E; [| discriminate].
      intros [= <-]. exists [], d. simpl.
      repeat split; [tauto | now apply filtro_vacio_sin_etiqueta].
    + intro H. destruct (IH H) as (d1 & d2 & -> & H1 & H2).
      exists ((m, c') :: d1), d2. simpl. repeat split; [| exact H2].
      intros [E | Hin]; [congruence | exact (H1 Hin)].
  - intros (d1 & d2 & -> & H1 & H2).
    rewrite filter_app. simpl. unfold con_etiqueta at 2. simpl.
    rewrite String.eqb_refl, (filtro_sin_etiqueta d1 H1), (filtro_sin_etiqueta d2 H2).
    reflexivity.
Qed.

Lemma serie_In (d : Dataset) (c : columna) :
  serie d n = Some c -> In (n, c) d.
Proof.
  intro H. apply serie_Some_iff in H. destruct H as (d1 & d2 & -> & _).
  apply in_or_app. right. now left.
Qed.

Lemma serie_unica (d : Dataset) (c c' : columna) :
  serie d n = Some c -> In (n, c') d -> c' = c.
Proof.
  intros H Hin. apply serie_Some_iff in H. destruct H as (d1 & d2 & -> & H1 & H2).
  apply in_app_or in Hin. destruct Hin as [Hin | [E | Hin]].
  - exfalso. apply H1. apply in_map_iff. now exists (n, c').
  - congruence.
  - exfalso. apply H2. apply in_map_iff. now exists (n, c').
Qed.

Lemma existsb_con_etiqueta (d : Dataset) :
  existsb con_etiqueta d = true <-> In n (etiquetas d).
Proof.
  rewrite existsb_exists. unfold etiquetas. rewrite in_map_iff. unfold con_etiqueta.
  split; intros ([m c] & H1 & H2); exists (m, c); simpl in *.
  - apply String.eqb_eq in H2. tauto.
  - subst. rewrite String.eqb_refl. tauto.
Qed.

Variable c0 : columna.

Let poner (nc : string * columna) : string * columna :=
  if String.eqb (fst nc) n then (n, c0) else nc.

Lemma poner_etiqueta nc : fst (poner nc) = fst nc.
Proof.
  unfold poner. destruct (String.eqb_spec (fst nc) n) as [E | _]; [now rewrite E | reflexivity].
Qed.

Lemma asignar_presente (d : Dataset) :
  In n (etiquetas d) -> asignar n c0 d = map poner d.
Proof.
  intro H. unfold asignar. fold con_etiqueta.
  apply existsb_con_etiqueta in H. rewrite H. reflexivity.
Qed.

Lemma asignar_ausente (d : Dataset) :
  ~ In n (etiquetas d) -> asignar n c0 d = d ++ [(n, c0)].
Proof.
  intro H. unfold asignar. fold con_etiqueta.
  destruct (existsb con_etiqueta d) eqn:E; [| reflexivity].
  apply existsb_con_etiqueta in E. contradiction.
Qed.

Lemma etiquetas_asignar (d : Dataset) :
  In n (etiquetas d) -> etiquetas (asignar n c0 d) = etiquetas d.
Proof.
  intro H. rewrite (asignar_presente d H). unfold etiquetas.
  rewrite map_map. apply map_ext. exact poner_etiqueta.
Qed.

(** After [datos[n] = c0] every column labelled [n] is [c0]. *)
Lemma asignar_In (d : Dataset) (c : columna) :
  In (n, c) (asignar n c0 d) -> c = c0.
Proof.
  destruct (in_dec string_dec n (etiquetas d)) as [H | H].
  - rewrite (asignar_presente d H). intro Hin.
    apply in_map_iff in Hin. destruct Hin as ([m c'] & E & _).
    unfold poner in E. simpl in E.
    destruct (String.eqb_spec m n) as [-> | Hne]; congruence.
  - rewrite (asignar_ausente d H). intro Hin.
    apply in_app_or in Hin. destruct Hin as [Hin | [E | []]]; [| congruence].
    exfalso. apply H. apply in_map_iff. now exists (n, c).
Qed.

Lemma serie_asignar_mismo (d : Dataset) (c : columna) :
  serie d n = Some c -> serie (asignar n c0 d) n = Some c0.
Proof.
  intro H. apply serie_Some_iff in H. destruct H as (d1 & d2 & -> & H1 & H2).
  rewrite asignar_presente.
  2:{ unfold etiquetas. rewrite map_app. apply in_or_app. right. now left. }
  apply serie_Some_iff. exists (map poner d1), (map poner d2).
  rewrite map_app. simpl. unfold poner at 2. simpl. rewrite String.eqb_refl.
  repeat split; unfold etiquetas; rewrite map_map;
    rewrite (map_ext _ fst poner_etiqueta); assumption.
Qed.

Lemma serie_asignar_otro (d : Dataset) (m : string) :
  m <> n -> serie (asignar n c0 d) m = serie d m.
Proof.
  intro Hne. unfold serie.
  destruct (in_dec string_dec n (etiquetas d)) as [H | H].
  - rewrite (asignar_presente d H).
    replace (filter (fun nc => String.eqb (fst nc) m) (map poner d))
      with (filter (fun nc => String.eqb (fst nc) m) d); [reflexivity |].
    clear H. induction d as [| [k c] d IH]; [reflexivity |].
    cbn [map filter]. rewrite poner_etiqueta. cbn [fst].
    destruct (String.eqb_spec k m) as [-> | Hk]; [| exact IH].
    rewrite <- IH. f_equal. unfold poner. cbn [fst].
    destruct (String.eqb_spec m n) as [E | _]; [congruence | reflexivity].
  - rewrite (asignar_ausente d H), filter_app. simpl.
    destruct (String.eqb_spec n m) as [E | _]; [congruence |].
    now rewrite app_nil_r.
Qed.

End EtiquetaFija.

(** ** Loops over column labels *)

Section Recorrido.

(** A loop whose iteration on a label rewrites at most the Series of that
    label, as a function of that Series alone. *)
Variable Estado : Type.
Variable datos_de : Estado -> Dataset.
Variable paso : Estado -> string -> Estado.
Variable efecto : columna -> columna.

Hypothesis paso_otro : forall st n m,
  m <> n -> serie (datos_de (paso st n)) m = serie (datos_de st) m.
Hypothesis paso_mismo : forall st n,
  serie (datos_de (paso st n)) n = option_map efecto (serie (datos_de st) n).

Lemma recorrido_otro (l : list string) (st : Estado) (n : string) :
  ~ In n l ->
  serie (datos_de (fold_left paso l st)) n = serie (datos_de st) n.
Proof.
  revert st. induction l as [| m l IH]; intros st H; [reflexivity |].
  simpl. rewrite IH by (simpl in H; tauto).
  apply paso_otro. simpl in H. intro E. apply H. now left.
Qed.

Lemma recorrido_una_vez (l1 l2 : list string) (st : Estado) (n : string) :
  ~ In n l1 -> ~ In n l2 ->
  serie (datos_de (fold_left paso (l1 ++ n :: l2) st)) n
  = option_map efecto (serie (datos_de st) n).
Proof.
  intros H1 H2. rewrite fold_left_app. simpl.
  rewrite (recorrido_otro l2 _ n H2), paso_mismo, (recorrido_otro l1 _ n H1).
  reflexivity.
Qed.

Lemma recorrido_None (l : list string) (st : Estado) (n : string) :
  serie (datos_de st) n = None ->
  serie (datos_de (fold_left paso l st)) n = None.
Proof.
  revert st. induction l as [| m l IH]; intros st H; [exact H |].
  simpl. apply IH. destruct (string_dec n m) as [-> | Hne].
  - rewrite paso_mismo, H. reflexivity.
  - rewrite paso_otro by exact Hne. exact H.
Qed.

End Recorrido.

(** Where a unique label sits in a list of labels computed from the
    columns. *)
Lemma etiquetas_filtradas_particion (p : string * columna -> bool) (d : Dataset)
  (n : string) (c : columna) :
  serie d n = Some c -> p (n, c) = true ->
  exists l1 l2, etiquetas (filter p d) = l1 ++ n :: l2 /\ ~ In n l1 /\ ~ In n l2.
Proof.
  intros H Hp. apply serie_Some_iff in H. destruct H as (d1 & d2 & -> & H1 & H2).
  exists (etiquetas (filter p d1)), (etiquetas (filter p d2)).
  rewrite filter_app. simpl. rewrite Hp. unfold etiquetas. rewrite map_app. simpl.
  split; [reflexivity |].
  split; intro Hin; apply in_map_iff in Hin; destruct Hin as (x & Ex & Hx);
    apply filter_In in Hx; [apply H1 | apply H2]; apply in_map_iff; exists x; tauto.
Qed.

Lemma etiquetas_filtradas_In (p : string * columna -> bool) (d : Dataset) (n : string) :
  In n (etiquetas (filter p d)) <-> exists c, In (n, c) d /\ p (n, c) = true.
Proof.
  unfold etiquetas. rewrite in_map_iff. split.
  - intros ([m c] & E & H). simpl in E. subst m. apply filter_In in H. now exists c.
  - intros (c & H1 & H2). exists (n, c). split; [reflexivity |].
    apply filter_In. tauto.
Qed.

Lemma filter_particion {A} (p : A -> bool) (l l1 l2 : list A) (x : A) :
  l = l1 ++ x :: l2 -> p x = true ->
  filter p l = filter p l1 ++ x :: filter p l2.
Proof.
  intros -> Hp. rewrite filter_app. simpl. now rewrite Hp.
Qed.

(** In a table whose labels are distinct every column is a Series. *)
Lemma serie_NoDup (d : Dataset) (n : string) (c : columna) :
  NoDup (etiquetas d) -> In (n, c) d -> serie d n = Some c.
Proof.
  intros Hnd Hin. destruct (in_split _ _ Hin) as (d1 & d2 & ->).
  apply serie_Some_iff. exists d1, d2. split; [reflexivity |].
  unfold etiquetas in Hnd. rewrite map_app in Hnd. simpl in Hnd.
  apply NoDup_remove_2 in Hnd. unfold etiquetas.
  split; intro H; apply Hnd, in_or_app; tauto.
Qed.

Lemma serie_etiqueta (d : Dataset) (n : string) :
  NoDup (etiquetas d) -> In n (etiquetas d) -> exists c, serie d n = Some c.
Proof.
  intros Hnd Hin. apply in_map_iff in Hin. destruct Hin as ([m c] & E & Hin).
  simpl in E. subst m. exists c. now apply serie_NoDup.
Qed.

Lemma etiquetas_filtradas_incl (p : string * columna -> bool) (d : Dataset) (n : string) :
  In n (etiquetas (filter p d)) -> In n (etiquetas d).
Proof.
  intro H. apply etiquetas_filtradas_In in H. destruct H as (c & Hin & _).
  apply in_map_iff. now exists (n, c).
Qed.


(** ** Stage 2 on the whole table *)

(** C8.  An exception raised while deciding the position of a record is
    turned into the label Desconocido, and inference always returns one of
    the six labels.  After stage 2 the table has a column posicion_inferida
    with one cell per record; the cell of a record is never null: it holds
    the label inferred from that record, one of the six, and Desconocido
    when deciding that record raised. *)
Theorem inferencia_nunca_propaga :
  (forall (row : fila) (e : string),
      decidir row = Excepcion e -> inferir_posicion row = "Desconocido") /\
  (forall row : fila, In (inferir_posicion row) etiquetas_posicion) /\
  (forall datos : Dataset,
      In "posicion_inferida" (etiquetas (inferir_posiciones datos)) /\
      forall c : columna,
        In ("posicion_inferida", c) (inferir_posiciones datos) ->
        longitud c = n_filas datos /\
        forall i : nat,
          (i < n_filas datos)%nat ->
          celda c i = Some (ETexto (inferir_posicion (fila_de datos i))) /\
          In (inferir_posicion (fila_de datos i)) etiquetas_posicion /\
          (forall e, decidir (fila_de datos i) = Excepcion e ->
                     celda c i = Some (ETexto "Desconocido"))).
Proof.
  assert (H1 : forall (row : fila) (e : string),
             decidir row = Excepcion e -> inferir_posicion row = "Desconocido").
  { intros row e H. unfold inferir_posicion. now rewrite H. }
  split; [exact H1 |]. split; [exact inferir_posicion_etiqueta |].
  intro datos. split.
  - unfold inferir_posiciones.
    set (c0 := match n_filas datos with O => _ | S _ => _ end).
    destruct (in_dec string_dec "posicion_inferida" (etiquetas datos)) as [Hin | Hno].
    + now rewrite (etiquetas_asignar _ c0 datos Hin).
    + rewrite (asignar_ausente _ c0 datos Hno). unfold etiquetas.
      rewrite map_app. apply in_or_app. right. now left.
  - intros c H. unfold inferir_posiciones in H. apply asignar_In in H. subst c.
    destruct (n_filas datos) as [| k] eqn:Ek.
    + split; [reflexivity |]. intros i Hi. lia.
    + rewrite <- Ek. split.
      * simpl. now rewrite length_map, length_seq.
      * intros i Hi.
        assert (Hc : celda (Categorica
                              (map (fun i => Some (inferir_posicion (fila_de datos i)))
                                   (seq 0 (n_filas datos)))) i
                     = Some (ETexto (inferir_posicion (fila_de datos i)))).
        { cbn [celda].
          rewrite (nth_indep _ None (Some (inferir_posicion (fila_de datos O))))
            by now rewrite length_map, length_seq.
          rewrite (map_nth (fun i => Some (inferir_posicion (fila_de datos i)))).
          rewrite seq_nth by exact Hi. reflexivity. }
        split; [exact Hc |]. split; [apply inferir_posicion_etiqueta |].
        intros e He. rewrite Hc, (H1 _ e He). reflexivity.
Qed.

Lemma inferencia_nunca_propaga_witness :
  inferir_posicion
    [("marking", Some (ETexto "n/d")); ("finishing", Some (ENum 70))]
  = "Desconocido".
Proof.
  apply (proj1 inferencia_nunca_propaga _ "TypeError"). reflexivity.
Defined.

(** ** binary64: rounding to the nearest *)

Lemma cercano_par_comp (t1 t2 : Q) : t1 == t2 -> cercano_par t1 = cercano_par t2.
Proof.
  intro E. unfold cercano_par. rewrite <- (Qfloor_comp _ _ E).
  assert (H : t1 - inject_Z (Qfloor t1) == t2 - inject_Z (Qfloor t1)) by (unfold Qminus; apply Qplus_comp; [exact E | reflexivity]).
  now rewrite (Qcompare_comp _ _ H _ _ (Qeq_refl (1 # 2))).
Qed.

Lemma cercano_par_cotas (t : Q) :
  (Qfloor t <= cercano_par t <= Qfloor t + 1)%Z.
Proof.
  unfold cercano_par. destruct (Qcompare _ _); [destruct (Z.even _) | |]; lia.
Qed.

Lemma cercano_par_mono (t1 t2 : Q) : t1 <= t2 -> (cercano_par t1 <= cercano_par t2)%Z.
Proof.
  intro H. assert (Hf := Qfloor_resp_le _ _ H).
  destruct (Z.eq_dec (Qfloor t1) (Qfloor t2)) as [E | Hne].
  - unfold cercano_par. rewrite <- E.
    destruct (Qcompare_spec (t1 - inject_Z (Qfloor t1)) (1 # 2)) as [C1 | C1 | C1];
      destruct (Qcompare_spec (t2 - inject_Z (Qfloor t1)) (1 # 2)) as [C2 | C2 | C2];
      try (destruct (Z.even (Qfloor t1))); try lia; exfalso; lra.
  - assert (H1 := cercano_par_cotas t1). assert (H2 := cercano_par_cotas t2). lia.
Qed.

Lemma cercano_par_Z (z : Z) : cercano_par (inject_Z z) = z.
Proof.
  unfold cercano_par. rewrite Qfloor_Z.
  assert (H : inject_Z z - inject_Z z == 0) by ring.
  now rewrite (Qcompare_comp _ _ H _ _ (Qeq_refl (1 # 2))).
Qed.

Lemma cercano_par_menor (t : Q) (k : Z) : t <= inject_Z k -> (cercano_par t <= k)%Z.
Proof. intro H. rewrite <- (cercano_par_Z k). now apply cercano_par_mono. Qed.

Lemma cercano_par_mayor (t : Q) (k : Z) : inject_Z k <= t -> (k <= cercano_par t)%Z.
Proof. intro H. rewrite <- (cercano_par_Z k). now apply cercano_par_mono. Qed.

Lemma potencia_positiva (e : Z) : 0 < 2 ^ e.
Proof. apply Qpower_0_lt. reflexivity. Qed.

Lemma potencia_siguiente (e : Z) : 2 ^ (e + 1) == 2 * 2 ^ e.
Proof. rewrite Qpower_plus by discriminate. change (2 ^ 1) with 2. ring. Qed.

Lemma log2_en_Q (n : Z) :
  (0 < n)%Z -> 2 ^ Z.log2 n <= inject_Z n /\ inject_Z n < 2 * 2 ^ Z.log2 n.
Proof.
  intro Hn. destruct (Z.log2_spec n Hn) as [H1 H2].
  assert (Hl := Z.log2_nonneg n).
  rewrite <- potencia_siguiente.
  change 2 with (inject_Z 2).
  rewrite <- !Zpower_Qpower by lia.
  rewrite <- Zle_Qle, <- Zlt_Qlt. unfold Z.succ in H2. tauto.
Qed.

Lemma exponente_spec (q : Q) :
  0 < q -> 2 ^ exponente q <= q /\ q < 2 ^ (exponente q + 1).
Proof.
  intro Hq. unfold exponente.
  assert (Hn : (0 < Qnum q)%Z).
  { unfold Qlt in Hq. simpl in Hq. lia. }
  destruct (log2_en_Q (Qnum q) Hn) as [A1 A2].
  destruct (log2_en_Q (Zpos (Qden q)) eq_refl) as [B1 B2].
  set (A := 2 ^ Z.log2 (Qnum q)) in *. set (B := 2 ^ Z.log2 (Zpos (Qden q))) in *.
  set (e0 := (Z.log2 (Qnum q) - Z.log2 (Z.pos (Qden q)))%Z).
  assert (HP : 2 ^ e0 * B == A).
  { unfold e0, A, B. rewrite Qpower_minus by discriminate. field.
    apply Qpower_not_0. discriminate. }
  assert (HA : 0 < A) by apply potencia_positiva.
  assert (HB : 0 < B) by apply potencia_positiva.
  assert (HP0 : 0 < 2 ^ e0) by apply potencia_positiva.
  assert (Hd : 0 < inject_Z (Zpos (Qden q))) by reflexivity.
  assert (Eq : q * inject_Z (Zpos (Qden q)) == inject_Z (Qnum q)).
  { destruct q as [n d]. cbn [Qnum Qden]. rewrite (Qmake_Qdiv n d). field. discriminate. }
  generalize dependent (inject_Z (Qnum q)). generalize dependent (inject_Z (Zpos (Qden q))).
  intros d B1 B2 Hd n A1 A2 Eq.
  destruct (Qle_bool (2 ^ e0) q) eqn:Eb.
  - apply Qle_bool_iff in Eb. split; [exact Eb |].
    rewrite potencia_siguiente.
    generalize dependent (2 ^ e0). intros P HP HP0 Eb. nra.
  - assert (Hlt : q < 2 ^ e0).
    { apply Qnot_le_lt. intro H. apply Qle_bool_iff in H. congruence. }
    replace (e0 - 1 + 1)%Z with e0 by ring. split; [| exact Hlt].
    assert (E2 : 2 ^ e0 == 2 * 2 ^ (e0 - 1)).
    { rewrite <- potencia_siguiente. now replace (e0 - 1 + 1)%Z with e0 by ring. }
    assert (HP1 : 0 < 2 ^ (e0 - 1)) by apply potencia_positiva.
    generalize dependent (2 ^ (e0 - 1)). generalize dependent (2 ^ e0).
    intros P HP HP0 Eb Hlt P1 E2 HP1. nra.
Qed.

Lemma exponente_mono (x y : Q) : 0 < x -> x <= y -> (exponente x <= exponente y)%Z.
Proof.
  intros Hx Hxy.
  destruct (exponente_spec x Hx) as [X1 _].
  destruct (exponente_spec y) as [_ Y2]; [lra |].
  assert (H : 2 ^ exponente x < 2 ^ (exponente y + 1)) by lra.
  apply Qpower_lt_compat_l_inv in H; [lia | reflexivity].
Qed.

Lemma exponente_comp (x y : Q) : 0 < x -> x == y -> exponente x = exponente y.
Proof.
  intros Hx E.
  assert (H1 := exponente_mono x y Hx ltac:(lra)).
  assert (H2 := exponente_mono y x ltac:(lra) ltac:(lra)). lia.
Qed.

Lemma redondear64_ulp (q : Q) :
  ~ q == 0 -> redondear64 q == inject_Z (cercano_par (q / ulp q)) * ulp q.
Proof.
  intro H. unfold redondear64.
  destruct (Qeq_bool q 0) eqn:E; [apply Qeq_bool_iff in E; contradiction |].
  apply Qred_correct.
Qed.

Lemma redondear64_cero (q : Q) : q == 0 -> redondear64 q = 0.
Proof.
  intro H. unfold redondear64. apply Qeq_bool_iff in H. now rewrite H.
Qed.

Lemma redondear64_no_negativo (q : Q) : 0 <= q -> 0 <= redondear64 q.
Proof.
  intro H. destruct (Qeq_dec q 0) as [E | Hne].
  - rewrite (redondear64_cero q E). apply Qle_refl.
  - rewrite (redondear64_ulp q Hne).
    assert (Hu : 0 < ulp q) by apply potencia_positiva.
    apply Qmult_le_0_compat; [| lra].
    change 0 with (inject_Z 0). rewrite <- Zle_Qle.
    apply cercano_par_mayor. change (inject_Z 0) with 0.
    apply Qle_shift_div_l; [exact Hu | lra].
Qed.

(** Within the binade: a positive number and its unit. *)
Lemma binada (q : Q) :
  0 < q ->
  let e := Z.max (exponente (Qabs q)) (-1022) in
  q / ulp q <= inject_Z (2 ^ 53) /\
  ((-1022 <= exponente (Qabs q))%Z -> inject_Z (2 ^ 52) <= q / ulp q) /\
  2 ^ (e + 1) == inject_Z (2 ^ 53) * ulp q /\
  2 ^ e == inject_Z (2 ^ 52) * ulp q.
Proof.
  intros Hq e.
  assert (Ha : Qabs q == q) by (apply Qabs_pos; lra).
  assert (Hqa : 0 < Qabs q) by lra.
  destruct (exponente_spec (Qabs q) Hqa) as [S1 S2].
  assert (Hu : 0 < ulp q) by apply potencia_positiva.
  assert (P53 : 2 ^ (e + 1) == inject_Z (2 ^ 53) * ulp q).
  { unfold ulp. fold e. rewrite (Zpower_Qpower 2 53) by lia.
    change (inject_Z 2) with 2. rewrite <- Qpower_plus by discriminate.
    now replace (53 + (e - 52))%Z with (e + 1)%Z by ring. }
  assert (P52 : 2 ^ e == inject_Z (2 ^ 52) * ulp q).
  { unfold ulp. fold e. rewrite (Zpower_Qpower 2 52) by lia.
    change (inject_Z 2) with 2. rewrite <- Qpower_plus by discriminate.
    now replace (52 + (e - 52))%Z with e by ring. }
  split; [| split; [| split; [exact P53 | exact P52]]].
  - apply Qle_shift_div_r; [exact Hu |]. rewrite <- P53.
    assert (Hle : 2 ^ (exponente (Qabs q) + 1) <= 2 ^ (e + 1)).
    { apply Qpower_le_compat_l; [unfold e; lia | discriminate]. }
    lra.
  - intro Hn. apply Qle_shift_div_l; [exact Hu |]. rewrite <- P52.
    replace e with (exponente (Qabs q)) by (unfold e; lia). lra.
Qed.

(** Rounding is increasing on the numbers that are not negative. *)
Lemma redondear64_mono (x y : Q) : 0 <= x -> x <= y -> redondear64 x <= redondear64 y.
Proof.
  intros Hx Hxy.
  destruct (Qeq_dec x 0) as [Ex | Hnx].
  { rewrite (redondear64_cero x Ex). apply redondear64_no_negativo. lra. }
  assert (Hx0 : 0 < x) by (destruct (Qlt_le_dec 0 x); [assumption | exfalso; apply Hnx; lra]).
  assert (Hy0 : 0 < y) by lra.
  assert (Hny : ~ y == 0) by lra.
  rewrite (redondear64_ulp x Hnx), (redondear64_ulp y Hny).
  destruct (binada x Hx0) as (X1 & _ & X3 & _).
  destruct (binada y Hy0) as (_ & Y2 & _ & Y4).
  assert (Hux : 0 < ulp x) by apply potencia_positiva.
  assert (Huy : 0 < ulp y) by apply potencia_positiva.
  assert (He : (exponente (Qabs x) <= exponente (Qabs y))%Z).
  { apply exponente_mono; [rewrite Qabs_pos; lra |].
    rewrite !Qabs_pos by lra. exact Hxy. }
  set (ex := Z.max (exponente (Qabs x)) (-1022)) in *.
  set (ey := Z.max (exponente (Qabs y)) (-1022)) in *.
  destruct (Z.eq_dec ex ey) as [E | Hne].
  - assert (Eu : ulp x = ulp y) by (unfold ulp; fold ex; fold ey; now rewrite E).
    rewrite Eu. apply Qmult_le_compat_r; [| lra].
    rewrite <- Zle_Qle. apply cercano_par_mono.
    apply Qmult_le_compat_r; [exact Hxy |]. apply Qlt_le_weak, Qinv_lt_0_compat, Huy.
  - assert (Hlt : (ex < ey)%Z) by (unfold ex, ey in *; lia).
    assert (Hn : (-1022 <= exponente (Qabs y))%Z) by (unfold ex, ey in *; lia).
    assert (Mx : (cercano_par (x / ulp x) <= 2 ^ 53)%Z) by now apply cercano_par_menor.
    assert (My : (2 ^ 52 <= cercano_par (y / ulp y))%Z) by (apply cercano_par_mayor; auto).
    rewrite Zle_Qle in Mx, My.
    assert (Hp : 2 ^ (ex + 1) <= 2 ^ ey).
    { apply Qpower_le_compat_l; [lia | discriminate]. }
    apply Qle_trans with (inject_Z (2 ^ 53) * ulp x).
    + apply Qmult_le_compat_r; [exact Mx | lra].
    + rewrite <- X3. apply Qle_trans with (2 ^ ey); [exact Hp |].
      rewrite Y4. apply Qmult_le_compat_r; [exact My | lra].
Qed.

Lemma Qabs_positivo (x : Q) : ~ x == 0 -> 0 < Qabs x.
Proof.
  intro H. destruct (Qlt_le_dec x 0) as [Hn | Hp].
  - rewrite Qabs_neg; lra.
  - rewrite Qabs_pos; [| exact Hp].
    destruct (Qlt_le_dec 0 x); [assumption | exfalso; apply H; lra].
Qed.

(** Rounding depends on the number, not on the fraction that writes it. *)
Lemma redondear64_comp (x y : Q) : x == y -> redondear64 x = redondear64 y.
Proof.
  intro E. unfold redondear64.
  destruct (Qeq_bool x 0) eqn:Ex.
  - apply Qeq_bool_iff in Ex. assert (Ey : y == 0) by lra.
    apply Qeq_bool_iff in Ey. now rewrite Ey.
  - assert (Hx : ~ x == 0) by (intro H; apply Qeq_bool_iff in H; congruence).
    assert (Ey : Qeq_bool y 0 = false).
    { destruct (Qeq_bool y 0) eqn:Ey; [| reflexivity].
      apply Qeq_bool_iff in Ey. exfalso. apply Hx. lra. }
    rewrite Ey.
    assert (Eu : ulp x = ulp y).
    { unfold ulp. rewrite (exponente_comp (Qabs x) (Qabs y)); [reflexivity | |].
      - now apply Qabs_positivo.
      - now rewrite E. }
    rewrite <- Eu.
    assert (Ec : cercano_par (x / ulp x) = cercano_par (y / ulp x)).
    { apply cercano_par_comp. unfold Qdiv. apply Qmult_comp; [exact E | reflexivity]. }
    now rewrite Ec.
Qed.

Lemma redondear64_0 : redondear64 0 = 0.
Proof. reflexivity. Qed.

Lemma redondear64_100 : redondear64 100 = 100.
Proof. vm_compute. reflexivity. Qed.

(** ** Series: bounds *)

Lemma en_lista_In (n : string) (l : list string) : en_lista n l = true <-> In n l.
Proof.
  unfold en_lista. rewrite existsb_exists. split.
  - intros (x & Hin & E). apply String.eqb_eq in E. now subst.
  - intro H. exists n. split; [exact H | apply String.eqb_refl].
Qed.

Lemma en_lista_false (n : string) (l : list string) : en_lista n l = false <-> ~ In n l.
Proof.
  rewrite <- en_lista_In. destruct (en_lista n l); split; congruence.
Qed.

Lemma no_nulos_In {A} (l : list (option A)) (x : A) : In x (no_nulos l) <-> In (Some x) l.
Proof.
  unfold no_nulos. rewrite in_flat_map. split.
  - intros ([y |] & Hin & Hx); simpl in Hx; [| tauto].
    destruct Hx as [-> | []]. exact Hin.
  - intro H. exists (Some x). simpl. tauto.
Qed.

Section Extremos.

(** [mejor a b]: [a] is at least as extreme as [b]; the scan keeps the
    current extreme unless the next value is strictly more extreme. *)
Variable mejor : Q -> Q -> Prop.
Variable mejor_bool : Q -> Q -> bool.
Hypothesis mejor_refl : forall a, mejor a a.
Hypothesis mejor_trans : forall a b c, mejor a b -> mejor b c -> mejor a c.
Hypothesis mejor_bool_true : forall y m, mejor_bool y m = true -> mejor y m.
Hypothesis mejor_bool_false : forall y m, mejor_bool y m = false -> mejor m y.

Let barrido := fold_left (fun m y => if mejor_bool y m then y else m).

Lemma barrido_cota (xs : list Q) (x : Q) :
  mejor (barrido xs x) x /\ forall y, In y xs -> mejor (barrido xs x) y.
Proof.
  revert x. induction xs as [| z xs IH]; intro x; simpl.
  - split; [apply mejor_refl | tauto].
  - destruct (mejor_bool z x) eqn:E.
    + destruct (IH z) as [H1 H2]. split.
      * eapply mejor_trans; [exact H1 | apply mejor_bool_true, E].
      * intros y [<- | Hy]; [exact H1 | exact (H2 y Hy)].
    + destruct (IH x) as [H1 H2]. split; [exact H1 |].
      intros y [<- | Hy]; [| exact (H2 y Hy)].
      eapply mejor_trans; [exact H1 | apply mejor_bool_false, E].
Qed.

Lemma barrido_alcanzado (xs : list Q) (x : Q) : In (barrido xs x) (x :: xs).
Proof.
  revert x. induction xs as [| z xs IH]; intro x; simpl; [tauto |].
  destruct (mejor_bool z x); [right; apply (IH z) |].
  destruct (IH x) as [H | H]; [left; exact H | right; right; exact H].
Qed.

End Extremos.

Lemma min_serie_cota (vs : list (option Q)) (minimo : Q) :
  min_serie vs = Some minimo ->
  In (Some minimo) vs /\ forall q, In (Some q) vs -> minimo <= q.
Proof.
  unfold min_serie. destruct (no_nulos vs) as [| x xs] eqn:E; [discriminate |].
  intros [= <-]. split.
  - apply no_nulos_In. rewrite E.
    apply (barrido_alcanzado (fun y m => Qlt_bool y m)).
  - intros q Hq. apply no_nulos_In in Hq. rewrite E in Hq.
    destruct (barrido_cota Qle (fun y m => Qlt_bool y m) Qle_refl Qle_trans) with (xs := xs) (x := x)
      as [H1 H2].
    + intros y m H. apply Qlt_bool_iff in H. now apply Qlt_le_weak.
    + intros y m H. now apply Qlt_bool_false_iff in H.
    + destruct Hq as [<- | Hq]; [exact H1 | exact (H2 q Hq)].
Qed.

Lemma max_serie_cota (vs : list (option Q)) (maximo : Q) :
  max_serie vs = Some maximo ->
  In (Some maximo) vs /\ forall q, In (Some q) vs -> q <= maximo.
Proof.
  unfold max_serie. destruct (no_nulos vs) as [| x xs] eqn:E; [discriminate |].
  intros [= <-]. split.
  - apply no_nulos_In. rewrite E.
    apply (barrido_alcanzado (fun y m => Qlt_bool m y)).
  - intros q Hq. apply no_nulos_In in Hq. rewrite E in Hq.
    destruct (barrido_cota (fun a b => b <= a) (fun y m => Qlt_bool m y)) with (xs := xs) (x := x)
      as [H1 H2].
    + intro a. apply Qle_refl.
    + intros a b c Hab Hbc. eapply Qle_trans; eassumption.
    + intros y m H. apply Qlt_bool_iff in H. now apply Qlt_le_weak.
    + intros y m H. now apply Qlt_bool_false_iff in H.
    + destruct Hq as [<- | Hq]; [exact H1 | exact (H2 q Hq)].
Qed.



Lemma reescalar_constante (vs : list (option Q)) (minimo maximo : Q) :
  min_serie vs = Some minimo -> max_serie vs = Some maximo -> maximo == minimo ->
  reescalar vs = map (fun _ => Some 50) vs.
Proof.
  intros Emin Emax Eq. unfold reescalar. rewrite Emin, Emax.
  assert (Elt : Qlt_bool minimo maximo = false) by (apply Qlt_bool_false_iff; lra).
  apply Qeq_bool_iff in Eq. now rewrite Elt, Eq.
Qed.

(** ** Stage 6: normalisation *)

Lemma normalizar_columna_mismo (datos : Dataset) (n : string) :
  serie (normalizar_columna datos n) n = option_map efecto_normalizar (serie datos n).
Proof.
  unfold normalizar_columna.
  destruct (serie datos n) as [[vs | vs] |] eqn:E; try (rewrite E; reflexivity).
  simpl. unfold reescalar.
  destruct (min_serie vs) as [minimo |]; [| rewrite E; reflexivity].
  destruct (max_serie vs) as [maximo |]; [| rewrite E; reflexivity].
  destruct (Qlt_bool minimo maximo); [eapply serie_asignar_mismo, E |].
  destruct (Qeq_bool maximo minimo); [eapply serie_asignar_mismo, E | exact E].
Qed.

Lemma normalizar_columna_otro (datos : Dataset) (n m : string) :
  m <> n -> serie (normalizar_columna datos n) m = serie datos m.
Proof.
  intro Hne. unfold normalizar_columna.
  destruct (serie datos n) as [[vs | vs] |]; try reflexivity.
  destruct (min_serie vs) as [minimo |]; [| reflexivity].
  destruct (max_serie vs) as [maximo |]; [| reflexivity].
  destruct (Qlt_bool minimo maximo); [apply serie_asignar_otro, Hne |].
  destruct (Qeq_bool maximo minimo); [apply serie_asignar_otro, Hne | reflexivity].
Qed.

Lemma columnas_a_normalizar_In (datos : Dataset) (n : string) :
  In n (columnas_a_normalizar datos) <->
  (exists vs, In (n, Numerica vs) datos) /\ ~ In n excluir_normalizacion.
Proof.
  unfold columnas_a_normalizar, columnas_numericas.
  rewrite filter_In, etiquetas_filtradas_In, negb_true_iff, en_lista_false.
  split; intros [H1 H2]; (split; [| exact H2]).
  - destruct H1 as ([vs | vs] & Hin & Hnum); [now exists vs | discriminate].
  - destruct H1 as (vs & Hin). now exists (Numerica vs).
Qed.

(** A numeric Series outside the exclusion list is handled exactly once. *)
Lemma columnas_a_normalizar_particion (datos : Dataset) (n : string) (vs : list (option Q)) :
  serie datos n = Some (Numerica vs) -> ~ In n excluir_normalizacion ->
  exists l1 l2, columnas_a_normalizar datos = l1 ++ n :: l2 /\ ~ In n l1 /\ ~ In n l2.
Proof.
  intros Hs Hex.
  destruct (etiquetas_filtradas_particion (fun nc => es_numerica (snd nc)) datos n _ Hs eq_refl)
    as (l1 & l2 & E & H1 & H2).
  set (p := fun col => negb (en_lista col excluir_normalizacion)).
  exists (filter p l1), (filter p l2). split; [| split].
  - unfold columnas_a_normalizar, columnas_numericas. fold p.
    apply (filter_particion p _ l1 l2 n E).
    unfold p. apply negb_true_iff, en_lista_false, Hex.
  - intro H. apply filter_In in H. tauto.
  - intro H. apply filter_In in H. tauto.
Qed.

(** The whole loop, seen from one label. *)
Lemma normalizar_serie_Some (datos : Dataset) (n : string) (c : columna) :
  serie datos n = Some c ->
  serie (normalizar datos) n
  = Some (if es_numerica c && negb (en_lista n excluir_normalizacion)
          then efecto_normalizar c else c).
Proof.
  intro E. unfold normalizar.
  destruct (es_numerica c && negb (en_lista n excluir_normalizacion)) eqn:Ecaso.
  - apply andb_true_iff in Ecaso. destruct Ecaso as [Hnum Hex].
    destruct c as [vs | vs]; [| discriminate].
    apply negb_true_iff, en_lista_false in Hex.
    destruct (columnas_a_normalizar_particion datos n vs E Hex) as (l1 & l2 & EL & H1 & H2).
    rewrite EL.
    rewrite (recorrido_una_vez Dataset (fun d => d) normalizar_columna efecto_normalizar
               normalizar_columna_otro normalizar_columna_mismo l1 l2 datos n H1 H2).
    cbv beta. rewrite E. reflexivity.
  - rewrite (recorrido_otro Dataset (fun d => d) normalizar_columna
               normalizar_columna_otro).
    + exact E.
    + intro Hin. apply columnas_a_normalizar_In in Hin.
      destruct Hin as ((vs & Hin) & Hex).
      rewrite <- (serie_unica n datos c (Numerica vs) E Hin) in Ecaso.
      apply en_lista_false in Hex. rewrite Hex in Ecaso. discriminate.
Qed.

Lemma normalizar_serie (datos : Dataset) (n : string) (c' : columna) :
  serie (normalizar datos) n = Some c' ->
  exists c, serie datos n = Some c /\
            c' = (if es_numerica c && negb (en_lista n excluir_normalizacion)
                  then efecto_normalizar c else c).
Proof.
  intro H. destruct (serie datos n) as [c |] eqn:E.
  - rewrite (normalizar_serie_Some datos n c E) in H. exists c. split; congruence.
  - unfold normalizar in H.
    rewrite (recorrido_None Dataset (fun d => d) normalizar_columna efecto_normalizar
               normalizar_columna_otro normalizar_columna_mismo _ _ _ E) in H.
    discriminate.
Qed.

(** C2.  The claim fails on the code.  On a float64 column holding 1.1 and
    6.4, line 163 computes (6.4 - 1.1) * 100 / (6.4 - 1.1) in binary64: the
    product is rounded upwards and the quotient is 100 + 2^-46
    (100.00000000000001), strictly above the 100 that the claim, and the
    stage's own heading, promise for every value. *)
Theorem normalizacion_fuera_de_rango :
  exists q,
    serie (normalizar [("overall_rating",
                        Numerica [Some (redondear64 (11 # 10));
                                  Some (redondear64 (64 # 10))])])
      "overall_rating"
    = Some (Numerica [Some 0; Some q]) /\
    q == 100 + (1 # 70368744177664) /\ 100 < q.
Proof.
  eexists. split; [vm_compute; reflexivity |].
  split; [vm_compute; reflexivity | vm_compute; reflexivity].
Qed.


(** ** Stage 7: outliers *)





(** Without outliers, clipping changes nothing. *)
Lemma clip_sin_outliers (inferior superior : Q) (vs : list (option Q)) :
  contar_outliers inferior superior vs = O -> clip inferior superior vs = vs.
Proof.
  unfold contar_outliers. induction vs as [| v vs IH]; [reflexivity |].
  simpl. destruct (fuera_de_limites inferior superior v) eqn:E; [discriminate |].
  intro H. rewrite (IH H). f_equal.
  destruct v as [x |]; [| reflexivity]. simpl in *.
  apply orb_false_iff in E. destruct E as [-> ->]. reflexivity.
Qed.

Lemma tratar_columna_mismo (estado : Dataset * dict) (n : string) :
  serie (fst (tratar_columna estado n)) n = option_map efecto_recortar (serie (fst estado) n).
Proof.
  destruct estado as [datos registro]. unfold tratar_columna. cbn [fst].
  destruct (serie datos n) as [[vs | vs] |] eqn:E; try (cbn [fst]; rewrite E; reflexivity).
  simpl. unfold recortar.
  destruct (quantile vs (1 # 4)) as [Q1 |]; [| cbn [fst]; rewrite E; reflexivity].
  destruct (quantile vs (3 # 4)) as [Q3 |]; [| cbn [fst]; rewrite E; reflexivity].
  destruct (Qlt_bool 0 (Q3 - Q1)); [| cbn [fst]; exact E].
  destruct (contar_outliers _ _ vs) as [| k] eqn:Ek; cbn [Nat.ltb Nat.leb fst].
  - rewrite (clip_sin_outliers _ _ vs Ek). exact E.
  - eapply serie_asignar_mismo, E.
Qed.

Lemma tratar_columna_otro (estado : Dataset * dict) (n m : string) :
  m <> n -> serie (fst (tratar_columna estado n)) m = serie (fst estado) m.
Proof.
  intro Hne. destruct estado as [datos registro]. unfold tratar_columna. cbn [fst].
  destruct (serie datos n) as [[vs | vs] |]; try reflexivity.
  destruct (quantile vs (1 # 4)) as [Q1 |]; [| reflexivity].
  destruct (quantile vs (3 # 4)) as [Q3 |]; [| reflexivity].
  destruct (Qlt_bool 0 (Q3 - Q1)); [| reflexivity].
  destruct (0 <? contar_outliers _ _ vs)%nat; [| reflexivity].
  cbn [fst]. apply serie_asignar_otro, Hne.
Qed.




Lemma NoDup_particion {A} (l : list A) (x : A) :
  NoDup l -> In x l -> exists l1 l2, l = l1 ++ x :: l2 /\ ~ In x l1 /\ ~ In x l2.
Proof.
  intros Hnd Hin. destruct (in_split x l Hin) as (l1 & l2 & ->).
  exists l1, l2. split; [reflexivity |].
  apply NoDup_remove_2 in Hnd. split; intro H; apply Hnd, in_or_app; tauto.
Qed.

Lemma columnas_clave_NoDup : NoDup columnas_clave.
Proof.
  unfold columnas_clave.
  repeat (constructor; [simpl; intuition discriminate |]). constructor.
Qed.

(** A key column of the table is visited exactly once. *)
Lemma columnas_existentes_particion (datos : Dataset) (n : string) :
  In n columnas_clave -> In n (etiquetas datos) ->
  exists l1 l2, columnas_existentes datos = l1 ++ n :: l2 /\ ~ In n l1 /\ ~ In n l2.
Proof.
  intros Hclave Hin.
  destruct (NoDup_particion columnas_clave n columnas_clave_NoDup Hclave)
    as (l1 & l2 & E & H1 & H2).
  set (p := fun col => en_lista col (etiquetas datos)).
  exists (filter p l1), (filter p l2). split; [| split].
  - unfold columnas_existentes. fold p. apply (filter_particion p _ l1 l2 n E).
    unfold p. now apply en_lista_In.
  - intro H. apply filter_In in H. tauto.
  - intro H. apply filter_In in H. tauto.
Qed.


(** A column outside the allowlist goes through stage 7 untouched. *)
Lemma tratar_outliers_otro (datos : Dataset) (n : string) :
  ~ In n columnas_clave ->
  serie (fst (tratar_outliers datos)) n = serie datos n.
Proof.
  intro H. unfold tratar_outliers.
  rewrite (recorrido_otro _ fst tratar_columna tratar_columna_otro); [reflexivity |].
  unfold columnas_existentes. rewrite filter_In. tauto.
Qed.





(** ** Stage 5: one-hot encoding *)

Lemma unicos_In (l : list (option string)) (v : string) :
  In v (unicos l) <-> In (Some v) l.
Proof.
  unfold unicos.
  transitivity (In v (nodup string_dec (no_nulos l))).
  - split; apply Permutation_in;
      [apply Permutation_sym |]; apply OrdenarTexto.Permuted_sort.
  - rewrite nodup_In. apply no_nulos_In.
Qed.

Lemma unicos_NoDup (l : list (option string)) : NoDup (unicos l).
Proof.
  unfold unicos. eapply Permutation_NoDup; [apply OrdenarTexto.Permuted_sort |].
  apply NoDup_nodup.
Qed.

Lemma get_dummies_length (n : string) (vs : list (option string)) :
  List.length (get_dummies n vs) = nunique vs.
Proof. unfold get_dummies, nunique. apply length_map. Qed.

Lemma get_dummies_In (n m : string) (vs : list (option string)) (c : columna) :
  In (m, c) (get_dummies n vs) <->
  exists v, In (Some v) vs /\ m = nombre_indicador n v /\ c = Numerica (indicador v vs).
Proof.
  unfold get_dummies. rewrite in_map_iff. split.
  - intros (v & [= <- <-] & Hv). exists v. rewrite <- unicos_In. tauto.
  - intros (v & Hv & -> & ->). exists v. rewrite unicos_In. tauto.
Qed.

Lemma indicador_nth (v : string) (vs : list (option string)) (i : nat) :
  (i < List.length vs)%nat ->
  nth i (indicador v vs) None = Some (if es_valor v (nth i vs None) then 1 else 0).
Proof.
  revert i. induction vs as [| x vs IH]; intros i Hi; simpl in Hi; [lia |].
  destruct i as [| i]; simpl.
  - destruct x as [s |]; [| reflexivity]. simpl. now destruct (String.eqb s v).
  - apply IH. lia.
Qed.

Lemma indicador_cero_o_uno (v : string) (vs : list (option string)) (x : option Q) :
  In x (indicador v vs) -> x = Some 0 \/ x = Some 1.
Proof.
  unfold indicador. rewrite in_map_iff. intros ([s |] & <- & _); [| now left].
  destruct (String.eqb s v); [now right | now left].
Qed.

(** Over distinct values, exactly the indicator of the value held is 1. *)
Lemma suma_indicadores (x : option string) (l : list string) :
  NoDup l ->
  suma (map (fun v => if es_valor v x then 1 else 0) l)
  == (if existsb (fun v => es_valor v x) l then 1 else 0).
Proof.
  induction 1 as [| v l Hnotin Hnd IH]; [reflexivity |].
  cbn [map suma fold_right existsb]. fold (suma (map (fun v => if es_valor v x then 1 else 0) l)).
  rewrite IH. destruct (es_valor v x) eqn:E; cbn [orb]; [| ring].
  destruct (existsb (fun v0 => es_valor v0 x) l) eqn:Ex; [| ring].
  exfalso. apply existsb_exists in Ex. destruct Ex as (w & Hw & Ew).
  destruct x as [s |]; simpl in *; [| discriminate].
  apply String.eqb_eq in E, Ew. subst. contradiction.
Qed.

Lemma suma_fila_get_dummies (n : string) (vs : list (option string)) (i : nat) :
  (i < List.length vs)%nat ->
  suma_fila (get_dummies n vs) i
  == match nth i vs None with Some _ => 1 | None => 0 end.
Proof.
  intro Hi. unfold suma_fila, get_dummies. rewrite map_map. cbn [snd numero_en].
  rewrite (map_ext _ (fun v => if es_valor v (nth i vs None) then 1 else 0)).
  2:{ intro v. rewrite (indicador_nth v vs i Hi). reflexivity. }
  rewrite (suma_indicadores _ _ (unicos_NoDup vs)).
  destruct (nth i vs None) as [s |] eqn:E.
  - destruct (existsb _ (unicos vs)) eqn:Ex; [reflexivity |].
    exfalso. assert (Hin : In s (unicos vs)).
    { apply unicos_In. rewrite <- E. apply nth_In, Hi. }
    assert (H : existsb (fun v => es_valor v (Some s)) (unicos vs) = true).
    { apply existsb_exists. exists s. split; [exact Hin | apply String.eqb_refl]. }
    congruence.
  - destruct (existsb _ (unicos vs)) eqn:Ex; [| reflexivity].
    apply existsb_exists in Ex. destruct Ex as (w & _ & Ew). discriminate.
Qed.

(** The selection loop only appends. *)
Lemma seleccion_acumulada (datos : Dataset) (l : list string) (sel0 sel : list string) :
  para_cada (seleccionar_onehot datos) l sel0 = Ok sel ->
  forall n,
    In n sel <->
    In n sel0 \/
    (In n l /\ ~ In n categoricas_excluidas /\
     exists vs, serie datos n = Some (Categorica vs) /\ (nunique vs <= 15)%nat).
Proof.
  unfold seleccionar_onehot. generalize categoricas_excluidas. intro excluidas.
  revert sel0. induction l as [| m l IH]; intros sel0 H n.
  - simpl in H. injection H as <-. simpl. tauto.
  - cbn [para_cada] in H. unfold bind at 1 in H.
    match type of H with
    | match ?paso with _ => _ end = _ => destruct paso as [sel1 | e] eqn:E1; [| discriminate]
    end.
    rewrite (IH sel1 H n). clear IH H.
    destruct (en_lista m excluidas) eqn:Ex.
    { apply en_lista_In in Ex. injection E1 as <-. simpl.
      split; [tauto |]. intros [H | ([<- | H] & H1 & H2)]; tauto. }
    apply en_lista_false in Ex.
    destruct (serie datos m) as [[ws | ws] |] eqn:Es; [| | discriminate].
    { injection E1 as <-. simpl.
      split; [tauto |]. intros [H | ([<- | H] & H1 & H2)]; [tauto | | tauto].
      destruct H2 as (vs & H2 & _). congruence. }
    destruct (nunique ws <=? 15)%nat eqn:Ek; injection E1 as <-.
    + apply Nat.leb_le in Ek. rewrite in_app_iff. simpl. split.
      * intros [[H | [<- | []]] | H]; [tauto | | tauto].
        right. split; [now left |]. split; [exact Ex |]. now exists ws.
      * intros [H | ([<- | H] & H1 & H2)]; tauto.
    + apply Nat.leb_gt in Ek. simpl. split; [tauto |].
      intros [H | ([<- | H] & H1 & H2)]; [tauto | | tauto].
      destruct H2 as (vs & H2 & H3). rewrite Es in H2. injection H2 as <-. lia.
Qed.

Lemma columnas_object_In (datos : Dataset) (n : string) :
  In n (columnas_object datos) <-> exists vs, In (n, Categorica vs) datos.
Proof.
  unfold columnas_object. rewrite etiquetas_filtradas_In. split.
  - intros ([vs | vs] & Hin & Hcat); [discriminate | now exists vs].
  - intros (vs & Hin). now exists (Categorica vs).
Qed.

(** Which columns the encoder selects. *)
Lemma columnas_categoricas_onehot_In (datos : Dataset) (sel : list string) :
  columnas_categoricas_onehot datos = Ok sel ->
  forall n,
    In n sel <->
    (~ In n categoricas_excluidas /\
     exists vs, serie datos n = Some (Categorica vs) /\ (nunique vs <= 15)%nat).
Proof.
  intros H n. rewrite (seleccion_acumulada datos _ [] sel H n). simpl. split.
  - intros [[] | (_ & H1 & H2)]. tauto.
  - intros (H1 & vs & H2 & H3). right. split; [| split; [exact H1 | now exists vs]].
    apply columnas_object_In. exists vs. now apply serie_In.
Qed.

Lemma drop_In (sel : list string) (datos : Dataset) (n : string) (c : columna) :
  In (n, c) (drop sel datos) <-> In (n, c) datos /\ ~ In n sel.
Proof.
  unfold drop. rewrite filter_In, negb_true_iff. cbn [fst].
  fold (en_lista n sel). now rewrite en_lista_false.
Qed.

(** The encoded table: what is kept, then the indicators of each selected
    column in turn. *)
Lemma codificar_forma (datos : Dataset) (sel : list string) :
  columnas_categoricas_onehot datos = Ok sel ->
  codificar datos = Ok (drop sel datos ++ datos_encoded datos sel).
Proof.
  intro H. unfold codificar. rewrite H. cbn [bind].
  destruct sel as [| n sel]; [| reflexivity].
  unfold drop, datos_encoded. simpl. rewrite app_nil_r. f_equal.
  symmetry. apply forallb_filter_id. apply forallb_forall. reflexivity.
Qed.

Lemma datos_encoded_particion (datos : Dataset) (sel : list string) (n : string)
  (vs : list (option string)) :
  In n sel -> serie datos n = Some (Categorica vs) ->
  exists antes despues, datos_encoded datos sel = antes ++ get_dummies n vs ++ despues.
Proof.
  intros Hin Hs. destruct (in_split n sel Hin) as (l1 & l2 & ->).
  exists (datos_encoded datos l1), (datos_encoded datos l2).
  unfold datos_encoded. rewrite flat_map_app. cbn [flat_map]. now rewrite Hs.
Qed.

Lemma datos_encoded_numericas (datos : Dataset) (sel : list string) (m : string) (c : columna) :
  In (m, c) (datos_encoded datos sel) -> es_numerica c = true.
Proof.
  unfold datos_encoded. rewrite in_flat_map. intros (n & _ & H).
  destruct (serie datos n) as [[ws | ws] |]; try contradiction.
  apply get_dummies_In in H. destruct H as (v & _ & _ & ->). reflexivity.
Qed.

(** On a table with distinct labels the encoder does not raise. *)
Lemma codificar_total (datos : Dataset) :
  NoDup (etiquetas datos) ->
  exists seleccion datos',
    columnas_categoricas_onehot datos = Ok seleccion /\ codificar datos = Ok datos'.
Proof.
  intro Hnd.
  assert (H : forall l sel0,
             (forall m, In m l -> In m (etiquetas datos)) ->
             exists sel, para_cada (seleccionar_onehot datos) l sel0 = Ok sel).
  { induction l as [| m l IH]; intros sel0 Hl; [now exists sel0 |].
    cbn [para_cada]. unfold seleccionar_onehot at 1.
    destruct (serie_etiqueta datos m Hnd (Hl m (or_introl eq_refl))) as (c & ->).
    assert (Hl' : forall m', In m' l -> In m' (etiquetas datos))
      by (intros m' Hm'; apply Hl; now right).
    destruct (en_lista m categoricas_excluidas); [exact (IH sel0 Hl') |].
    destruct c as [vs | vs]; [exact (IH sel0 Hl') |].
    destruct (nunique vs <=? 15)%nat; cbn [bind]; apply IH; exact Hl'. }
  destruct (H (columnas_object datos) []) as (sel & Hsel).
  { intro m. apply etiquetas_filtradas_incl. }
  exists sel. eexists. split; [exact Hsel | exact (codificar_forma datos sel Hsel)].
Qed.

(** C6.  The encoder selects exactly the text columns outside date,
    birthday, player_name and posicion_inferida that have at most 15
    distinct values.  Each selected column is replaced by one indicator
    column per distinct value present, named column_value and holding 0 or
    1, and the original is dropped; every other column is kept as it is,
    so a column with more than 15 distinct values is untouched.  There are
    as many indicators as distinct values (exactly 3 for 3 values), and on
    each row they add up to 1 where the original value is not null. *)
Theorem codificacion_onehot :
  forall (datos : Dataset) (seleccion : list string),
    columnas_categoricas_onehot datos = Ok seleccion ->
    (forall n,
        In n seleccion <->
        (~ In n categoricas_excluidas /\
         exists vs, serie datos n = Some (Categorica vs) /\ (nunique vs <= 15)%nat)) /\
    exists datos',
      codificar datos = Ok datos' /\
      (forall n vs,
          In n seleccion -> serie datos n = Some (Categorica vs) ->
          (exists antes despues, datos' = antes ++ get_dummies n vs ++ despues) /\
          (forall m c,
              In (m, c) (get_dummies n vs) <->
              exists v, In (Some v) vs /\ m = nombre_indicador n v /\
                        c = Numerica (indicador v vs)) /\
          (forall v x, In x (indicador v vs) -> x = Some 0 \/ x = Some 1) /\
          (forall ws, ~ In (n, Categorica ws) datos') /\
          List.length (get_dummies n vs) = nunique vs /\
          (nunique vs = 3%nat -> List.length (get_dummies n vs) = 3%nat) /\
          (forall i, (i < List.length vs)%nat -> nth i vs None <> None ->
                     suma_fila (get_dummies n vs) i == 1)) /\
      (forall n c, In (n, c) datos -> ~ In n seleccion -> In (n, c) datos') /\
      (forall n vs, In (n, Categorica vs) datos -> (15 < nunique vs)%nat ->
                    serie datos n = Some (Categorica vs) ->
                    In (n, Categorica vs) datos').
Proof.
  intros datos sel Hsel.
  assert (Hcar := columnas_categoricas_onehot_In datos sel Hsel).
  split; [exact Hcar |].
  exists (drop sel datos ++ datos_encoded datos sel).
  split; [now apply codificar_forma |].
  assert (Hresto : forall n c, In (n, c) datos -> ~ In n sel ->
                               In (n, c) (drop sel datos ++ datos_encoded datos sel)).
  { intros n c Hin Hno. apply in_or_app. left. now apply drop_In. }
  split; [| split; [exact Hresto |]].
  - intros n vs Hin Hs. split; [| split; [| split; [| split; [| split; [| split]]]]].
    + destruct (datos_encoded_particion datos sel n vs Hin Hs) as (antes & despues & E).
      exists (drop sel datos ++ antes), despues. now rewrite E, app_assoc.
    + intros m c. apply get_dummies_In.
    + intros v x. apply indicador_cero_o_uno.
    + intros ws H. apply in_app_or in H. destruct H as [H | H].
      * apply drop_In in H. tauto.
      * apply datos_encoded_numericas in H. discriminate.
    + apply get_dummies_length.
    + intro H3. now rewrite get_dummies_length.
    + intros i Hi Hnn. rewrite (suma_fila_get_dummies n vs i Hi).
      destruct (nth i vs None); [reflexivity | contradiction].
  - intros n vs Hin Hmas Hs. apply Hresto; [exact Hin |].
    intro Hn. apply Hcar in Hn. destruct Hn as (_ & ws & Hws & Hle).
    rewrite Hs in Hws. injection Hws as <-. lia.
Qed.

Lemma codificacion_onehot_witness :
  exists datos',
    codificar Ejemplos.jugadores = Ok datos' /\
    In ("preferred_foot_left", Numerica [Some 1; Some 0; Some 0; Some 1]) datos' /\
    In ("attacking_work_rate_medium", Numerica [Some 0; Some 0; Some 1; Some 0]) datos'.
Proof.
  destruct (codificacion_onehot Ejemplos.jugadores
              ["preferred_foot"; "attacking_work_rate"] eq_refl)
    as (_ & datos' & Hcod & _).
  exists datos'. split; [exact Hcod |].
  vm_compute in Hcod. injection Hcod as <-. simpl. tauto.
Defined.

(** C10.  A row whose value in a selected text column is null gets 0 in
    every indicator of that column: the indicators stand for the non-null
    values only, and the row adds up to 0. *)
Theorem codificacion_fila_nula :
  forall (datos datos' : Dataset) (seleccion : list string) (n : string)
         (vs : list (option string)) (i : nat),
    columnas_categoricas_onehot datos = Ok seleccion ->
    codificar datos = Ok datos' ->
    In n seleccion -> serie datos n = Some (Categorica vs) ->
    nth_error vs i = Some None ->
    (exists antes despues, datos' = antes ++ get_dummies n vs ++ despues) /\
    (forall m c,
        In (m, c) (get_dummies n vs) ->
        exists v l, In (Some v) vs /\ m = nombre_indicador n v /\
                    c = Numerica l /\ nth_error l i = Some (Some 0)) /\
    suma_fila (get_dummies n vs) i == 0.
Proof.
  intros datos datos' sel n vs i Hsel Hcod Hin Hs Hi.
  rewrite (codificar_forma datos sel Hsel) in Hcod. injection Hcod as <-.
  split; [| split].
  - destruct (datos_encoded_particion datos sel n vs Hin Hs) as (antes & despues & E).
    exists (drop sel datos ++ antes), despues. now rewrite E, app_assoc.
  - intros m c H. apply get_dummies_In in H. destruct H as (v & Hv & -> & ->).
    exists v, (indicador v vs). repeat split; try assumption.
    unfold indicador. now rewrite nth_error_map, Hi.
  - assert (Hlt : (i < List.length vs)%nat).
    { apply nth_error_Some. congruence. }
    rewrite (suma_fila_get_dummies n vs i Hlt).
    rewrite (nth_error_nth vs i None Hi). reflexivity.
Qed.

Lemma codificacion_fila_nula_witness :
  suma_fila
    (get_dummies "preferred_foot" [Some "left"; Some "right"; None; Some "left"]) 2
  == 0.
Proof.
  destruct (codificar Ejemplos.jugadores) as [datos' | e] eqn:E; [| discriminate E].
  exact (proj2 (proj2 (codificacion_fila_nula Ejemplos.jugadores datos'
                         ["preferred_foot"; "attacking_work_rate"] "preferred_foot"
                         [Some "left"; Some "right"; None; Some "left"] 2
                         eq_refl E (or_introl eq_refl) eq_refl eq_refl))).
Defined.

(** ** Indicators through stage 6 *)












(** ** Stage 3: imputation *)

Lemma isnull_any_false {A} (l : list (option A)) :
  isnull_any l = false <-> ~ In None l.
Proof.
  unfold isnull_any. split.
  - intros H Hin. assert (existsb es_nulo l = true)
      by (apply existsb_exists; now exists None).
    congruence.
  - intro H. destruct (existsb es_nulo l) eqn:E; [| reflexivity].
    apply existsb_exists in E. destruct E as ([x |] & Hx & Ex); [discriminate | contradiction].
Qed.

Lemma fillna_In_Some {A} (vs rellenos : list (option A)) (x : A) :
  In (Some x) vs -> In (Some x) (fillna vs rellenos).
Proof.
  revert rellenos. induction vs as [| v vs IH]; intros rs H; [destruct H |].
  destruct rs as [| r rs]; [destruct v; exact H |].
  destruct v as [y |]; simpl in *.
  - destruct H as [H | H]; [now left | right; now apply IH].
  - destruct H as [H | H]; [discriminate | right; now apply IH].
Qed.

(** Filling with a non-null relleno for every row leaves no null. *)
Lemma fillna_sin_nulos {A} (vs rellenos : list (option A)) :
  ~ In None rellenos -> List.length rellenos = List.length vs ->
  ~ In None (fillna vs rellenos).
Proof.
  revert rellenos. induction vs as [| v vs IH]; intros rs Hrs Hlen; [simpl; tauto |].
  destruct rs as [| r rs]; [discriminate |].
  simpl in Hrs, Hlen. injection Hlen as Hlen.
  assert (Hresto : ~ In None (fillna vs rs)) by (apply IH; tauto).
  destruct v as [y |]; simpl; intros [H | H]; try discriminate; try contradiction.
  subst r. tauto.
Qed.

Lemma fillna_escalar_sin_nulos {A} (vs : list (option A)) (x : A) :
  ~ In None (fillna_escalar vs (Some x)).
Proof.
  unfold fillna_escalar. rewrite in_map_iff. intros ([y |] & E & _); discriminate.
Qed.

(** A Series with a number has a median. *)
Lemma mediana_Some (vs : list (option Q)) (q : Q) :
  In (Some q) vs -> exists m, mediana vs = Some m.
Proof.
  intro H. apply no_nulos_In in H. unfold mediana.
  assert (Hlen : List.length (OrdenarQ.sort (no_nulos vs)) = List.length (no_nulos vs)).
  { symmetry. apply Permutation_length, OrdenarQ.Permuted_sort. }
  destruct (no_nulos vs) as [| x xs]; [destruct H |].
  destruct (List.length (OrdenarQ.sort (x :: xs))) as [| k]; [discriminate |].
  destruct (Nat.even (S k)); eexists; reflexivity.
Qed.

Lemma transform_length {A} (agg : list (option A) -> option A) (claves : list valor)
  (vs : list (option A)) :
  List.length (transform agg claves vs) = List.length claves.
Proof. unfold transform. apply length_map. Qed.

Lemma transform_moda_sin_nulos (claves : list valor) (vs : list (option string)) :
  ~ In None claves -> ~ In None (transform moda_o_unknown claves vs).
Proof.
  intros H Hin. unfold transform in Hin. apply in_map_iff in Hin.
  destruct Hin as ([k |] & E & Hk); [| contradiction].
  unfold moda_o_unknown in E. destruct (moda _); discriminate.
Qed.

Lemma celdas_categorica (ks : list (option string)) :
  ~ In None ks ->
  ~ In None (celdas (Categorica ks)) /\
  List.length (celdas (Categorica ks)) = List.length ks.
Proof.
  intro H. simpl. rewrite length_map. split; [| reflexivity].
  rewrite in_map_iff. intros ([k |] & E & Hk); [discriminate | contradiction].
Qed.

(** What one numeric iteration does to the Series of its own label... *)
Lemma imputar_numerica_mismo (datos datos' : Dataset) (n : string) (vs : list (option Q)) :
  imputar_numerica datos n = Ok datos' ->
  serie datos n = Some (Numerica vs) ->
  exists vs',
    serie datos' n = Some (Numerica vs') /\
    (~ In None vs -> vs' = vs) /\
    ((exists q, In (Some q) vs) -> ~ In None vs').
Proof.
  intros H Hs. unfold imputar_numerica in H. rewrite Hs in H.
  destruct (isnull_any vs) eqn:Enul.
  2:{ injection H as <-. exists vs. apply isnull_any_false in Enul. tauto. }
  unfold bind in H. destruct (claves_posicion datos) as [claves | e]; [| discriminate].
  set (vs1 := fillna vs (transform mediana claves vs)) in H.
  assert (Hs1 : serie (asignar n (Numerica vs1) datos) n = Some (Numerica vs1))
    by (eapply serie_asignar_mismo, Hs).
  destruct (isnull_any vs1) eqn:Enul1; injection H as <-.
  - exists (fillna_escalar vs1 (mediana vs1)).
    split; [eapply serie_asignar_mismo, Hs1 |].
    split; [intro Hno; apply isnull_any_false in Hno; congruence |].
    intros (q & Hq).
    destruct (mediana_Some vs1 q (fillna_In_Some vs _ q Hq)) as (m & ->).
    apply fillna_escalar_sin_nulos.
  - exists vs1. split; [exact Hs1 |].
    split; [intro Hno; apply isnull_any_false in Hno; congruence |].
    intros _. now apply isnull_any_false.
Qed.

(** ... to a text Series of its own label... *)
Lemma imputar_numerica_categorica (datos datos' : Dataset) (n : string)
  (vs : list (option string)) :
  imputar_numerica datos n = Ok datos' ->
  serie datos n = Some (Categorica vs) -> datos' = datos.
Proof.
  intros H Hs. unfold imputar_numerica in H. rewrite Hs in H. congruence.
Qed.

(** ... and to the Series of the other labels. *)
Lemma imputar_numerica_otro (datos datos' : Dataset) (n m : string) :
  imputar_numerica datos n = Ok datos' -> m <> n ->
  serie datos' m = serie datos m.
Proof.
  intros H Hne. unfold imputar_numerica in H.
  destruct (serie datos n) as [[vs | vs] |]; [| congruence | discriminate].
  destruct (isnull_any vs); [| congruence].
  unfold bind in H. destruct (claves_posicion datos) as [claves | e]; [| discriminate].
  destruct (isnull_any (fillna vs (transform mediana claves vs))); injection H as <-;
    now rewrite ?(serie_asignar_otro n _ _ m Hne).
Qed.

Lemma imputar_numerica_conserva_texto (datos datos' : Dataset) (n m : string)
  (ws : list (option string)) :
  imputar_numerica datos n = Ok datos' ->
  serie datos m = Some (Categorica ws) -> serie datos' m = Some (Categorica ws).
Proof.
  intros H Hs. destruct (string_dec m n) as [-> | Hne].
  - now rewrite (imputar_numerica_categorica datos datos' n ws H Hs).
  - now rewrite (imputar_numerica_otro datos datos' n m H Hne).
Qed.

Lemma imputar_categorica_otro (datos datos' : Dataset) (n m : string) :
  imputar_categorica datos n = Ok datos' -> m <> n ->
  serie datos' m = serie datos m.
Proof.
  intros H Hne. unfold imputar_categorica in H.
  destruct (en_lista n categoricas_excluidas); [congruence |].
  destruct (serie datos n) as [[vs | vs] |]; [congruence | | discriminate].
  destruct (isnull_any vs); [| congruence].
  unfold bind in H. destruct (claves_posicion datos) as [claves | e]; [| discriminate].
  injection H as <-. apply serie_asignar_otro, Hne.
Qed.

Lemma imputar_categorica_numerica (datos datos' : Dataset) (n : string)
  (vs : list (option Q)) :
  imputar_categorica datos n = Ok datos' ->
  serie datos n = Some (Numerica vs) -> datos' = datos.
Proof.
  intros H Hs. unfold imputar_categorica in H. rewrite Hs in H.
  destruct (en_lista n categoricas_excluidas); congruence.
Qed.

Lemma imputar_categorica_excluida (datos datos' : Dataset) (n : string) :
  imputar_categorica datos n = Ok datos' -> In n categoricas_excluidas -> datos' = datos.
Proof.
  intros H Hex. unfold imputar_categorica in H.
  apply en_lista_In in Hex. rewrite Hex in H. congruence.
Qed.

Lemma imputar_categorica_mismo (datos datos' : Dataset) (n : string)
  (vs claves : list (option string)) :
  imputar_categorica datos n = Ok datos' ->
  serie datos n = Some (Categorica vs) ->
  exists vs',
    serie datos' n = Some (Categorica vs') /\
    (~ In None vs -> vs' = vs) /\
    (~ In n categoricas_excluidas ->
     serie datos "posicion_inferida" = Some (Categorica claves) ->
     ~ In None claves -> List.length claves = List.length vs ->
     ~ In None vs').
Proof.
  intros H Hs. unfold imputar_categorica in H.
  destruct (en_lista n categoricas_excluidas) eqn:Ex.
  { injection H as <-. exists vs. split; [exact Hs |]. split; [reflexivity |].
    intro Hno. apply en_lista_In in Ex. contradiction. }
  rewrite Hs in H. destruct (isnull_any vs) eqn:Enul.
  2:{ injection H as <-. exists vs. apply isnull_any_false in Enul. tauto. }
  unfold bind, claves_posicion in H.
  destruct (serie datos "posicion_inferida") as [c |] eqn:Ec; [| discriminate].
  injection H as <-. eexists. split; [eapply serie_asignar_mismo, Hs |].
  split; [intro Hno; apply isnull_any_false in Hno; congruence |].
  intros _ [= ->] Hclaves Hlen.
  destruct (celdas_categorica claves Hclaves) as [Hc1 Hc2].
  apply fillna_sin_nulos.
  - now apply transform_moda_sin_nulos.
  - now rewrite transform_length, Hc2.
Qed.

Section RecorridoConExcepciones.

Variable paso : Dataset -> string -> Resultado Dataset.

Lemma para_cada_invariante (P : Dataset -> Prop) :
  (forall d m d', paso d m = Ok d' -> P d -> P d') ->
  forall l d d', para_cada paso l d = Ok d' -> P d -> P d'.
Proof.
  intros Hpaso l. induction l as [| m l IH]; intros d d' H HP.
  - simpl in H. now injection H as <-.
  - cbn [para_cada] in H. unfold bind in H.
    destruct (paso d m) as [d1 |] eqn:E; [| discriminate].
    exact (IH d1 d' H (Hpaso d m d1 E HP)).
Qed.

(** A property that every iteration on another label keeps, and that the
    iteration on [n] turns into a stable [Q], yields [Q] once [n] has been
    visited. *)
Lemma para_cada_alcanza (P Q : Dataset -> Prop) (n : string) :
  (forall d m d', paso d m = Ok d' -> m <> n -> P d -> P d') ->
  (forall d d', paso d n = Ok d' -> P d -> Q d') ->
  (forall d m d', paso d m = Ok d' -> Q d -> Q d') ->
  forall l d d', In n l -> para_cada paso l d = Ok d' -> P d -> Q d'.
Proof.
  intros Hotro Hmismo Hestable l. induction l as [| m l IH]; intros d d' Hin H HP.
  - destruct Hin.
  - cbn [para_cada] in H. unfold bind in H.
    destruct (paso d m) as [d1 |] eqn:E; [| discriminate].
    destruct (string_dec m n) as [-> | Hne].
    + exact (para_cada_invariante Q Hestable l d1 d' H (Hmismo d d1 E HP)).
    + apply (IH d1 d'); [destruct Hin; [contradiction | assumption] | exact H |].
      exact (Hotro d m d1 E Hne HP).
Qed.

End RecorridoConExcepciones.

(** The numeric loop fills a numeric column that holds a number. *)
Lemma imputar_numericas_llena (datos datos1 : Dataset) (n : string) (vs : list (option Q)) :
  para_cada imputar_numerica (columnas_numericas datos) datos = Ok datos1 ->
  serie datos n = Some (Numerica vs) -> (exists q, In (Some q) vs) ->
  exists vs', serie datos1 n = Some (Numerica vs') /\ ~ In None vs'.
Proof.
  intros H Hs Hq.
  apply (para_cada_alcanza imputar_numerica
           (fun d => serie d n = Some (Numerica vs))
           (fun d => exists vs', serie d n = Some (Numerica vs') /\ ~ In None vs')
           n) with (l := columnas_numericas datos) (d := datos); try assumption.
  - intros d m d' E Hne Hd. now rewrite (imputar_numerica_otro d d' m n E) by congruence.
  - intros d d' E Hd.
    destruct (imputar_numerica_mismo d d' n vs E Hd) as (vs' & H1 & _ & H3).
    exists vs'. split; [exact H1 | exact (H3 Hq)].
  - intros d m d' E (vs' & Hd & Hno). destruct (string_dec m n) as [-> | Hne].
    + destruct (imputar_numerica_mismo d d' n vs' E Hd) as (vs'' & H1 & H2 & _).
      exists vs''. rewrite (H2 Hno) in *. tauto.
    + exists vs'. now rewrite (imputar_numerica_otro d d' m n E) by congruence.
  - unfold columnas_numericas. apply etiquetas_filtradas_In.
    exists (Numerica vs). split; [now apply serie_In | reflexivity].
Qed.

(** The text loop keeps a numeric column as it is. *)
Lemma imputar_categoricas_conserva (l : list string) (datos datos' : Dataset) (n : string)
  (vs : list (option Q)) :
  para_cada imputar_categorica l datos = Ok datos' ->
  serie datos n = Some (Numerica vs) -> serie datos' n = Some (Numerica vs).
Proof.
  apply (para_cada_invariante imputar_categorica
           (fun d => serie d n = Some (Numerica vs))).
  intros d m d' E Hd. destruct (string_dec m n) as [-> | Hne].
  - now rewrite (imputar_categorica_numerica d d' n vs E Hd).
  - now rewrite (imputar_categorica_otro d d' m n E) by congruence.
Qed.

(** The numeric loop keeps every text column as it is. *)
Lemma imputar_numericas_conserva (l : list string) (datos datos' : Dataset) (n : string)
  (ws : list (option string)) :
  para_cada imputar_numerica l datos = Ok datos' ->
  serie datos n = Some (Categorica ws) -> serie datos' n = Some (Categorica ws).
Proof.
  apply (para_cada_invariante imputar_numerica
           (fun d => serie d n = Some (Categorica ws))).
  intros d m d' E Hd. exact (imputar_numerica_conserva_texto d d' m n ws E Hd).
Qed.

(** The text loop fills a text column it does not exclude, provided every
    record has its position. *)
Lemma imputar_categoricas_llena (datos datos' : Dataset) (n : string)
  (vs claves : list (option string)) :
  para_cada imputar_categorica (columnas_object datos) datos = Ok datos' ->
  serie datos n = Some (Categorica vs) -> ~ In n categoricas_excluidas ->
  serie datos "posicion_inferida" = Some (Categorica claves) ->
  ~ In None claves -> List.length claves = List.length vs ->
  exists vs', serie datos' n = Some (Categorica vs') /\ ~ In None vs'.
Proof.
  intros H Hs Hex Hclaves Hno Hlen.
  apply (para_cada_alcanza imputar_categorica
           (fun d => serie d n = Some (Categorica vs) /\
                     serie d "posicion_inferida" = Some (Categorica claves))
           (fun d => exists vs', serie d n = Some (Categorica vs') /\ ~ In None vs')
           n) with (l := columnas_object datos) (d := datos); try tauto.
  - intros d m d' E Hne [Hd Hk]. split.
    + now rewrite (imputar_categorica_otro d d' m n E) by congruence.
    + destruct (string_dec m "posicion_inferida") as [-> | Hm].
      * rewrite (imputar_categorica_excluida d d' _ E); [exact Hk | simpl; tauto].
      * now rewrite (imputar_categorica_otro d d' m _ E) by congruence.
  - intros d d' E [Hd Hk].
    destruct (imputar_categorica_mismo d d' n vs claves E Hd) as (vs' & H1 & _ & H3).
    exists vs'. split; [exact H1 | now apply H3].
  - intros d m d' E (vs' & Hd & Hsin). destruct (string_dec m n) as [-> | Hne].
    + destruct (imputar_categorica_mismo d d' n vs' claves E Hd) as (vs'' & H1 & H2 & _).
      exists vs''. rewrite (H2 Hsin) in *. tauto.
    + exists vs'. now rewrite (imputar_categorica_otro d d' m n E) by congruence.
  - apply columnas_object_In. exists vs. now apply serie_In.
Qed.

(** On a table with distinct labels and a position column, stage 3 does
    not raise. *)
Section ImputarTotal.

Variable datos0 : Dataset.

Let bien_formado (d : Dataset) : Prop :=
  etiquetas d = etiquetas datos0 /\ exists c, serie d "posicion_inferida" = Some c.

Hypothesis etiquetas_distintas : NoDup (etiquetas datos0).

Lemma asignar_bien_formado (d : Dataset) (n : string) (c c0 : columna) :
  bien_formado d -> serie d n = Some c -> bien_formado (asignar n c0 d).
Proof.
  intros [He (k & Hk)] Hs. split.
  - rewrite etiquetas_asignar; [exact He |].
    apply in_map_iff. exists (n, c). split; [reflexivity | now apply serie_In].
  - destruct (string_dec "posicion_inferida" n) as [<- | Hne].
    + exists c0. eapply serie_asignar_mismo, Hk.
    + exists k. now rewrite serie_asignar_otro.
Qed.

Lemma imputar_numerica_total (d : Dataset) (m : string) :
  bien_formado d -> In m (etiquetas datos0) ->
  exists d', imputar_numerica d m = Ok d' /\ bien_formado d'.
Proof.
  intros Hbf Hm. assert (Hbf' := Hbf). destruct Hbf' as [He (k & Hk)].
  destruct (serie_etiqueta d m) as (c & Hc); [now rewrite He | now rewrite He |].
  unfold imputar_numerica, claves_posicion. rewrite Hc, Hk.
  destruct c as [vs | vs]; [| now exists d].
  destruct (isnull_any vs); [| now exists d]. cbn [bind].
  set (vs1 := fillna vs (transform mediana (celdas k) vs)).
  assert (H1 : bien_formado (asignar m (Numerica vs1) d))
    by (eapply asignar_bien_formado; eassumption).
  destruct (isnull_any vs1); eexists; (split; [reflexivity |]); [| exact H1].
  eapply asignar_bien_formado; [exact H1 |]. eapply serie_asignar_mismo, Hc.
Qed.

Lemma imputar_categorica_total (d : Dataset) (m : string) :
  bien_formado d -> In m (etiquetas datos0) ->
  exists d', imputar_categorica d m = Ok d' /\ bien_formado d'.
Proof.
  intros Hbf Hm. assert (Hbf' := Hbf). destruct Hbf' as [He (k & Hk)].
  destruct (serie_etiqueta d m) as (c & Hc); [now rewrite He | now rewrite He |].
  unfold imputar_categorica, claves_posicion. rewrite Hc, Hk.
  destruct (en_lista m categoricas_excluidas); [now exists d |].
  destruct c as [vs | vs]; [now exists d |].
  destruct (isnull_any vs); [| now exists d]. cbn [bind].
  eexists. split; [reflexivity |]. eapply asignar_bien_formado; eassumption.
Qed.

Lemma para_cada_total (paso : Dataset -> string -> Resultado Dataset) :
  (forall d m, bien_formado d -> In m (etiquetas datos0) ->
               exists d', paso d m = Ok d' /\ bien_formado d') ->
  forall l d, (forall m, In m l -> In m (etiquetas datos0)) -> bien_formado d ->
              exists d', para_cada paso l d = Ok d' /\ bien_formado d'.
Proof.
  intros Hpaso l. induction l as [| m l IH]; intros d Hl Hbf; [now exists d |].
  destruct (Hpaso d m Hbf (Hl m (or_introl eq_refl))) as (d1 & E & Hbf1).
  cbn [para_cada]. rewrite E. cbn [bind].
  apply IH; [| exact Hbf1]. intros m' Hm'. apply Hl. now right.
Qed.

Lemma imputar_total :
  (exists c, serie datos0 "posicion_inferida" = Some c) ->
  exists datos', imputar datos0 = Ok datos'.
Proof.
  intro Hk. assert (Hbf : bien_formado datos0) by (split; [reflexivity | exact Hk]).
  destruct (para_cada_total imputar_numerica imputar_numerica_total
              (columnas_numericas datos0) datos0) as (d1 & E1 & [He1 Hk1]);
    [intro m; apply etiquetas_filtradas_incl | exact Hbf |].
  destruct (para_cada_total imputar_categorica imputar_categorica_total
              (columnas_object d1) d1) as (d2 & E2 & _);
    [intros m Hm; rewrite <- He1; eapply etiquetas_filtradas_incl, Hm
    | split; [exact He1 | exact Hk1] |].
  exists d2. unfold imputar. rewrite E1. exact E2.
Qed.

End ImputarTotal.

(** After stage 2 every record has its position, in a table with rows
    whose labels are distinct. *)
Lemma inferir_posiciones_completas (datos : Dataset) :
  NoDup (etiquetas datos) -> n_filas datos <> O ->
  posiciones_completas (inferir_posiciones datos) (n_filas datos).
Proof.
  intros Hnd Hfilas. unfold inferir_posiciones.
  destruct (n_filas datos) as [| k] eqn:Ek; [congruence |]. rewrite <- Ek.
  set (c0 := Categorica _).
  exists (map (fun i => Some (inferir_posicion (fila_de datos i))) (seq 0 (n_filas datos))).
  split; [| split].
  - destruct (in_dec string_dec "posicion_inferida" (etiquetas datos)) as [Hin | Hno].
    + destruct (serie_etiqueta datos _ Hnd Hin) as (c & Hc).
      eapply serie_asignar_mismo, Hc.
    + rewrite (asignar_ausente _ _ _ Hno). apply serie_Some_iff.
      exists datos, []. split; [reflexivity |]. split; [exact Hno | simpl; tauto].
  - rewrite in_map_iff. intros (i & E & _). discriminate.
  - now rewrite length_map, length_seq.
Qed.

Lemma imputar_columnas (datos datos' : Dataset) (columna : string) :
  imputar datos = Ok datos' ->
  (forall vs,
      serie datos columna = Some (Numerica vs) -> (exists q, In (Some q) vs) ->
      exists vs', serie datos' columna = Some (Numerica vs') /\ ~ In None vs') /\
  (forall vs claves,
      serie datos columna = Some (Categorica vs) ->
      ~ In columna categoricas_excluidas ->
      serie datos "posicion_inferida" = Some (Categorica claves) ->
      ~ In None claves -> List.length claves = List.length vs ->
      exists vs', serie datos' columna = Some (Categorica vs') /\ ~ In None vs').
Proof.
  intro H. unfold imputar, bind in H.
  destruct (para_cada imputar_numerica (columnas_numericas datos) datos)
    as [datos1 | e] eqn:E1; [| discriminate].
  split.
  - intros vs Hs Hq.
    destruct (imputar_numericas_llena datos datos1 columna vs E1 Hs Hq) as (vs' & Hs1 & Hno).
    exists vs'. split; [| exact Hno].
    exact (imputar_categoricas_conserva _ datos1 datos' columna vs' H Hs1).
  - intros vs claves Hs Hex Hclaves Hno Hlen.
    apply (imputar_categoricas_llena datos1 datos' columna vs claves H); try assumption.
    + exact (imputar_numericas_conserva _ datos datos1 columna vs E1 Hs).
    + exact (imputar_numericas_conserva _ datos datos1 _ claves E1 Hclaves).
Qed.

(** The text loop leaves the excluded columns as they are. *)
Lemma imputar_categoricas_excluida (l : list string) (datos datos' : Dataset) (n : string)
  (c : columna) :
  para_cada imputar_categorica l datos = Ok datos' ->
  In n categoricas_excluidas -> serie datos n = Some c -> serie datos' n = Some c.
Proof.
  intros H Hex. revert H.
  apply (para_cada_invariante imputar_categorica (fun d => serie d n = Some c)).
  intros d m d' E Hd. destruct (string_dec m n) as [-> | Hne].
  - now rewrite (imputar_categorica_excluida d d' n E Hex).
  - now rewrite (imputar_categorica_otro d d' m n E) by congruence.
Qed.

(** C1, as the code has it.  After stage 3, a numeric column that held at
    least one value before the stage holds no null; and, every record
    having its position, neither does a text column other than date,
    birthday, player_name and posicion_inferida.  These four text columns
    are left as they were, nulls included. *)
Theorem imputacion_sin_nulos :
  forall (datos datos' : Dataset) (nombre : string) (c : columna),
    imputar datos = Ok datos' ->
    serie datos nombre = Some c ->
    (tiene_valor c ->
     es_numerica c = true \/
     (~ In nombre categoricas_excluidas /\ posiciones_completas datos (longitud c)) ->
     exists c', serie datos' nombre = Some c' /\ sin_nulos c') /\
    (es_categorica c = true -> In nombre categoricas_excluidas ->
     serie datos' nombre = Some c).
Proof.
  intros datos datos' n c H Hs. split.
  - intros Hv Hcaso.
    destruct (imputar_columnas datos datos' n H) as [Hnum Hcat].
    destruct c as [vs | vs].
    + destruct (Hnum vs Hs Hv) as (vs' & H1 & H2). now exists (Numerica vs').
    + destruct Hcaso as [Hc | (Hex & claves & Hk & Hno & Hlen)]; [discriminate |].
      destruct (Hcat vs claves Hs Hex Hk Hno Hlen) as (vs' & H1 & H2).
      now exists (Categorica vs').
  - intros Hc Hex. destruct c as [vs | vs]; [discriminate |].
    unfold imputar, bind in H.
    destruct (para_cada imputar_numerica (columnas_numericas datos) datos)
      as [datos1 | e] eqn:E1; [| discriminate].
    apply (imputar_categoricas_excluida _ datos1 datos' n _ H Hex).
    exact (imputar_numericas_conserva _ datos datos1 n vs E1 Hs).
Qed.

Lemma imputacion_sin_nulos_witness :
  exists c',
    serie [("finishing", Numerica [Some 95; Some 60; Some 10; Some 60]);
           ("preferred_foot", Categorica [Some "left"; Some "Unknown"; Some "left"; Some "left"]);
           ("posicion_inferida",
            Categorica [Some "Delantero"; Some "Portero"; Some "Delantero"; Some "Versatil"])]
          "preferred_foot" = Some c' /\
    sin_nulos c'.
Proof.
  refine (proj1 (imputacion_sin_nulos
           [("finishing", Numerica [Some 95; Some 60; Some 10; None]);
            ("preferred_foot", Categorica [Some "left"; None; None; Some "left"]);
            ("posicion_inferida",
             Categorica [Some "Delantero"; Some "Portero"; Some "Delantero"; Some "Versatil"])]
           _ "preferred_foot" (Categorica [Some "left"; None; None; Some "left"]) _ _) _ _).
  - reflexivity.
  - reflexivity.
  - exists "left". simpl. tauto.
  - right. split; [simpl; intuition discriminate |].
    eexists. split; [reflexivity |]. split; [simpl; intuition discriminate | reflexivity].
Defined.

(** The invariant does not hold of every column: stage 3 leaves alone the
    names of the players that the left join did not find. *)
Lemma imputacion_conserva_nulos_player_name :
  ~ invariante_imputacion (inferir_posiciones Ejemplos.jugadores) "player_name".
Proof.
  intro H.
  destruct (H _ (Categorica [Some "Lionel Messi"; None; Some "Iker Casillas"; None])
              eq_refl eq_refl) as (c' & Hc' & Hsin).
  - exists "Lionel Messi". simpl. tauto.
  - vm_compute in Hc'. injection Hc' as <-. apply Hsin. simpl. tauto.
Qed.


(** ** Stage 1: a failed load ends the run *)

Lemma read_table_ausente (tablas : list (string * Dataset)) (nombre : string) :
  relacion_ausente tablas nombre ->
  read_table tablas nombre = Excepcion ("no such table: " ++ nombre).
Proof.
  intro H. unfold read_table.
  destruct (find (fun t => String.eqb (fst t) nombre) tablas) as [[m t] |] eqn:E;
    [| reflexivity].
  exfalso. apply find_some in E. destruct E as [Hin Hm]. simpl in Hm.
  apply String.eqb_eq in Hm. subst m. exact (H t Hin).
Qed.

Section CargaFallida.

Variable merge : Dataset -> Dataset -> Resultado Dataset.
Variable crear_variables_derivadas : Dataset -> Resultado Dataset.

Let ejecutar := limpiar_datos_fifa merge crear_variables_derivadas.

Lemma ejecutar_sin_carga (a : Almacen) (disco : Disco) (w : Mundo) (e : string) :
  cargar a = Excepcion e ->
  ejecutar a disco w
  = (print ("   Error al cargar datos: " ++ e)
       (print "1. Cargando datos..." (print "Limpieza de datos FIFA" w)),
     Ok None).
Proof.
  intro H. unfold ejecutar, limpiar_datos_fifa. now rewrite H.
Qed.

(** C9.  When loading fails (the store cannot be opened, or one of the two
    relations queried does not exist) the run stops at stage 1: it prints
    the error after the header of stage 1 and returns nothing; no later
    stage prints its header, the output directory is not created, and
    neither the output table nor the CSV file is written. *)
Theorem carga_fallida_aborta :
  forall (a : Almacen) (disco : Disco) (w : Mundo),
    (a = None \/
     exists tablas, a = Some tablas /\
                    (relacion_ausente tablas "Player_Attributes" \/
                     relacion_ausente tablas "Player")) ->
    exists e,
      cargar a = Excepcion e /\
      snd (ejecutar a disco w) = Ok None /\
      consola (fst (ejecutar a disco w))
      = consola w ++ ["Limpieza de datos FIFA"; "1. Cargando datos...";
                      "   Error al cargar datos: " ++ e]%string /\
      directorio_salida (fst (ejecutar a disco w)) = directorio_salida w /\
      tabla_salida (fst (ejecutar a disco w)) = tabla_salida w /\
      csv_salida (fst (ejecutar a disco w)) = csv_salida w.
Proof.
  intros a disco w Hfalla.
  assert (Hcarga : exists e, cargar a = Excepcion e).
  { destruct Hfalla as [-> | (tablas & -> & [H | H])].
    - eexists. reflexivity.
    - eexists. unfold cargar. rewrite (read_table_ausente _ _ H). reflexivity.
    - unfold cargar.
      destruct (read_table tablas "Player_Attributes") as [datos | e]; [| now exists e].
      eexists. cbn [bind]. rewrite (read_table_ausente _ _ H). reflexivity. }
  destruct Hcarga as (e & He). exists e. split; [exact He |].
  rewrite (ejecutar_sin_carga a disco w e He). cbn [fst snd print consola
    directorio_salida tabla_salida csv_salida].
  repeat split. now rewrite <- !app_assoc.
Qed.

End CargaFallida.

Lemma carga_fallida_aborta_witness :
  exists e,
    cargar (Some [("Player", [("player_api_id", Numerica [Some 1])])]) = Excepcion e /\
    snd (limpiar_datos_fifa (fun datos _ => Ok datos) (fun datos => Ok datos)
           (Some [("Player", [("player_api_id", Numerica [Some 1])])]) DiscoOk
           {| consola := []; directorio_salida := false;
              tabla_salida := None; csv_salida := None |})
    = Ok None.
Proof.
  destruct (carga_fallida_aborta (fun datos _ => Ok datos) (fun datos => Ok datos)
              (Some [("Player", [("player_api_id", Numerica [Some 1])])]) DiscoOk
              {| consola := []; directorio_salida := false;
                 tabla_salida := None; csv_salida := None |})
    as (e & He & Hr & _).
  - right. eexists. split; [reflexivity |]. left.
    intros t [H | []]. discriminate H.
  - exists e. split; [exact He | exact Hr].
Defined.


(** ** More on position inference *)

Lemma alguno_supera_ext (row row' : fila) (umbral : Q) (attrs : list string) :
  (forall a, In a attrs -> buscar row a = buscar row' a) ->
  alguno_supera row umbral attrs = alguno_supera row' umbral attrs.
Proof.
  induction attrs as [| a resto IH]; intro H; [reflexivity |].
  simpl. rewrite <- (H a (or_introl eq_refl)).
  rewrite (IH (fun a' Ha' => H a' (or_intror Ha'))). reflexivity.
Qed.

Lemma valores_presentes_ext (row row' : fila) (attrs : list string) :
  (forall a, In a attrs -> buscar row a = buscar row' a) ->
  valores_presentes row attrs = valores_presentes row' attrs.
Proof.
  induction attrs as [| a resto IH]; intro H; [reflexivity |].
  simpl. rewrite <- (H a (or_introl eq_refl)).
  rewrite (IH (fun a' Ha' => H a' (or_intror Ha'))). reflexivity.
Qed.

Lemma alguno_supera_true_inv (row : fila) (umbral : Q) (attrs : list string) :
  alguno_supera row umbral attrs = Ok true ->
  exists attr q, In attr attrs /\ buscar row attr = Unico (Some (ENum q)) /\ umbral < q.
Proof.
  induction attrs as [| a resto IH]; simpl; [discriminate |].
  assert (Hresto : alguno_supera row umbral resto = Ok true ->
                   exists attr q, In attr (a :: resto) /\
                                  buscar row attr = Unico (Some (ENum q)) /\ umbral < q).
  { intro H. destruct (IH H) as (attr & q & Hin & Hb & Hq).
    exists attr, q. split; [now right | tauto]. }
  destruct (buscar row a) as [| [[q | s] |] |] eqn:Eb; try exact Hresto; try discriminate.
  destruct (Qlt_bool umbral q) eqn:E; [| exact Hresto].
  intros _. exists a, q. split; [now left |]. split; [exact Eb | now apply Qlt_bool_iff].
Qed.

(** What the body decides for a record of ratings that is not a
    goalkeeper. *)
Lemma decidir_calificaciones (row : fila) :
  registro_de_calificaciones row -> ~ condicion_portero row ->
  decidir row
  = Ok (let score_def := promedio_grupo row atributos_defensa in
        let score_med := promedio_grupo row atributos_medio in
        let score_ataq := promedio_grupo row atributos_ataque in
        if Qlt_bool (py_max score_def score_med) score_ataq then "Delantero"
        else if Qlt_bool (py_max score_def score_ataq) score_med then "Mediocampista"
        else if Qlt_bool (py_max score_med score_ataq) score_def then "Defensa"
        else "Versatil").
Proof.
  intros Htipos Hgk. unfold decidir.
  rewrite (alguno_supera_false row 50 gk_attrs); [| | exact Hgk].
  2:{ intros a Ha. apply Htipos. unfold atributos_leidos. apply in_or_app. now left. }
  cbn [bind].
  rewrite !promedio_atributos_grupo.
  - cbn [bind]. cbv zeta.
    destruct (Qlt_bool _ (promedio_grupo row atributos_ataque)); [reflexivity |].
    destruct (Qlt_bool _ (promedio_grupo row atributos_medio)); [reflexivity |].
    destruct (Qlt_bool _ (promedio_grupo row atributos_defensa)); reflexivity.
  - intros a Ha. apply Htipos. unfold atributos_leidos.
    apply in_or_app. right. apply in_or_app. right. apply in_or_app. now right.
  - intros a Ha. apply Htipos. unfold atributos_leidos.
    apply in_or_app. right. apply in_or_app. right. apply in_or_app. now left.
  - intros a Ha. apply Htipos. unfold atributos_leidos.
    apply in_or_app. right. apply in_or_app. now left.
Qed.




(** X2.  Portero is only ever returned for a record that meets the
    goalkeeper condition: the threshold is strict, so a record whose
    goalkeeper ratings are all at most 50 is never a Portero. *)
Theorem portero_solo_con_condicion :
  forall row : fila,
    (inferir_posicion row = "Portero" -> condicion_portero row) /\
    ((forall a q, In a gk_attrs -> buscar row a = Unico (Some (ENum q)) -> q <= 50) ->
     inferir_posicion row <> "Portero").
Proof.
  intro row.
  assert (H : inferir_posicion row = "Portero" -> condicion_portero row).
  { unfold inferir_posicion, decidir, bind.
    destruct (alguno_supera row 50 gk_attrs) as [[|] | e] eqn:E; [| | discriminate].
    - intros _. exact (alguno_supera_true_inv row 50 gk_attrs E).
    - destruct (promedio_atributos row atributos_defensa) as [sd | e]; [| discriminate].
      destruct (promedio_atributos row atributos_medio) as [sm | e]; [| discriminate].
      destruct (promedio_atributos row atributos_ataque) as [sa | e]; [| discriminate].
      destruct (Qlt_bool (py_max sd sm) sa); [discriminate |].
      destruct (Qlt_bool (py_max sd sa) sm); [discriminate |].
      destruct (Qlt_bool (py_max sm sa) sd); discriminate. }
  split; [exact H |].
  intros Hcota Hp. destruct (H Hp) as (attr & q & Hin & Hb & Hq).
  assert (Hle := Hcota attr q Hin Hb). lra.
Qed.

Lemma portero_solo_con_condicion_witness :
  inferir_posicion [("gk_reflexes", Some (ENum 50)); ("gk_diving", Some (ENum 49))]
  <> "Portero".
Proof.
  apply (proj2 (portero_solo_con_condicion _)).
  intros a q Hin Hb. simpl in Hin.
  repeat (destruct Hin as [<- | Hin];
          [vm_compute in Hb;
           first [discriminate Hb | injection Hb as <-; vm_compute; discriminate] |]).
  destruct Hin.
Defined.

(** X3.  The label depends on the seventeen attributes read and on
    nothing else: two records that hold the same thing for each of them
    receive the same label, whatever their other fields. *)
Theorem inferencia_solo_lee_atributos :
  forall row row' : fila,
    (forall a, In a atributos_leidos -> buscar row a = buscar row' a) ->
    inferir_posicion row = inferir_posicion row'.
Proof.
  intros row row' H. unfold inferir_posicion, decidir, promedio_atributos.
  rewrite (alguno_supera_ext row row' 50 gk_attrs).
  2:{ intros a Ha. apply H. unfold atributos_leidos. apply in_or_app. now left. }
  rewrite (valores_presentes_ext row row' atributos_defensa).
  2:{ intros a Ha. apply H. unfold atributos_leidos.
      apply in_or_app. right. apply in_or_app. now left. }
  rewrite (valores_presentes_ext row row' atributos_medio).
  2:{ intros a Ha. apply H. unfold atributos_leidos.
      apply in_or_app. right. apply in_or_app. right. apply in_or_app. now left. }
  rewrite (valores_presentes_ext row row' atributos_ataque).
  2:{ intros a Ha. apply H. unfold atributos_leidos.
      apply in_or_app. right. apply in_or_app. right. apply in_or_app. now right. }
  reflexivity.
Qed.

Lemma inferencia_solo_lee_atributos_witness :
  inferir_posicion [("vision", Some (ENum 70)); ("player_name", Some (ETexto "Xavi"))]
  = inferir_posicion [("date", Some (ETexto "2016-01-01")); ("vision", Some (ENum 70));
                      ("overall_rating", None)].
Proof.
  apply inferencia_solo_lee_atributos.
  intros a Ha. unfold atributos_leidos in Ha. simpl in Ha.
  repeat (destruct Ha as [<- | Ha]; [reflexivity |]). destruct Ha.
Defined.

Lemma decidir_nunca_desconocido (row : fila) (etiqueta : string) :
  decidir row = Ok etiqueta ->
  In etiqueta ["Portero"; "Delantero"; "Mediocampista"; "Defensa"; "Versatil"].
Proof.
  unfold decidir, bind.
  destruct (alguno_supera row 50 gk_attrs) as [[|] | e]; [| | discriminate].
  - intros [= <-]. simpl. tauto.
  - destruct (promedio_atributos row atributos_defensa) as [sd | e]; [| discriminate].
    destruct (promedio_atributos row atributos_medio) as [sm | e]; [| discriminate].
    destruct (promedio_atributos row atributos_ataque) as [sa | e]; [| discriminate].
    destruct (Qlt_bool (py_max sd sm) sa); [intros [= <-]; simpl; tauto |].
    destruct (Qlt_bool (py_max sd sa) sm); [intros [= <-]; simpl; tauto |].
    destruct (Qlt_bool (py_max sm sa) sd); intros [= <-]; simpl; tauto.
Qed.

Lemma alguno_supera_calificaciones (row : fila) (umbral : Q) (attrs : list string) :
  (forall a, In a attrs -> numerico_o_nulo row a) ->
  exists b, alguno_supera row umbral attrs = Ok b.
Proof.
  induction attrs as [| a resto IH]; intro Htipos; [now exists false |].
  assert (Ha := Htipos a (or_introl eq_refl)).
  assert (Hresto := IH (fun a' Ha' => Htipos a' (or_intror Ha'))).
  unfold numerico_o_nulo in Ha. simpl.
  destruct (buscar row a) as [| [[q | s] |] |]; try contradiction; try exact Hresto.
  destruct (Qlt_bool umbral q); [now exists true | exact Hresto].
Qed.

(** X4.  Desconocido is returned exactly when the body of the try block
    raised; a record whose seventeen attributes are ratings never raises,
    so it is never labelled Desconocido. *)
Theorem desconocido_solo_por_excepcion :
  forall row : fila,
    (inferir_posicion row = "Desconocido" <-> exists e, decidir row = Excepcion e) /\
    (registro_de_calificaciones row ->
     (exists etiqueta, decidir row = Ok etiqueta) /\
     inferir_posicion row <> "Desconocido").
Proof.
  intro row.
  assert (H : inferir_posicion row = "Desconocido" <-> exists e, decidir row = Excepcion e).
  { unfold inferir_posicion. destruct (decidir row) as [etiqueta | e] eqn:E.
    - split; [| intros (e & He); discriminate].
      intros ->. apply decidir_nunca_desconocido in E. simpl in E.
      intuition discriminate.
    - split; [intros _; now exists e | reflexivity]. }
  split; [exact H |].
  intro Htipos.
  assert (Hok : exists etiqueta, decidir row = Ok etiqueta).
  { destruct (alguno_supera row 50 gk_attrs) as [[|] | e] eqn:Egk.
    - exists "Portero". unfold decidir. now rewrite Egk.
    - eexists. apply decidir_calificaciones; [exact Htipos |].
      intros (attr & q & Hin & Hb & Hq).
      assert (Ht : alguno_supera row 50 gk_attrs = Ok true).
      { apply alguno_supera_true; [| now exists attr, q].
        intros a Ha. apply Htipos. unfold atributos_leidos. apply in_or_app. now left. }
      congruence.
    - exfalso.
      destruct (alguno_supera_calificaciones row 50 gk_attrs) as (b & Hb);
        [| congruence].
      intros a Ha. apply Htipos. unfold atributos_leidos. apply in_or_app. now left. }
  split; [exact Hok |].
  intro Hd. apply H in Hd. destruct Hok as (etiqueta & Hok), Hd as (e & He). congruence.
Qed.

Lemma desconocido_solo_por_excepcion_witness :
  inferir_posicion
    [("finishing", Some (ENum 70)); ("vision", None); ("date", Some (ETexto "hoy"))]
  <> "Desconocido".
Proof.
  apply (proj2 (desconocido_solo_por_excepcion _)).
  intros a Ha. unfold atributos_leidos in Ha. simpl in Ha.
  repeat (destruct Ha as [<- | Ha]; [exact I |]). destruct Ha.
Defined.


(** ** Tables related column by column *)

Lemma Forall2_map_derecha {A B} (P : A -> B -> Prop) (f : A -> B) (l : list A) :
  (forall x, In x l -> P x (f x)) -> Forall2 P l (map f l).
Proof.
  induction l as [| x l IH]; intro H; simpl; constructor.
  - apply H. now left.
  - apply IH. intros y Hy. apply H. now right.
Qed.

Section RelacionDeColumnas.

Variable R : columna -> columna -> Prop.
Hypothesis R_refl : forall c, R c c.
Hypothesis R_trans : forall c1 c2 c3, R c1 c2 -> R c2 c3 -> R c1 c3.

Let Rt (d d' : Dataset) : Prop :=
  Forall2 (fun nc nc' => fst nc = fst nc' /\ R (snd nc) (snd nc')) d d'.

Lemma relacion_refl (d : Dataset) : Rt d d.
Proof. induction d; constructor; auto. Qed.

Lemma relacion_trans (d1 d2 d3 : Dataset) : Rt d1 d2 -> Rt d2 d3 -> Rt d1 d3.
Proof.
  intro H. revert d3. induction H as [| x y l l' [H1 H2] _ IH]; intros d3 H3.
  - inversion H3. constructor.
  - inversion H3 as [| y' z l2 l3 [H4 H5] H6]; subst. constructor.
    + split; [congruence | eapply R_trans; eassumption].
    + now apply IH.
Qed.

(** Assigning to a Series a column related to it. *)
Lemma asignar_relacion (d : Dataset) (n : string) (c c0 : columna) :
  serie d n = Some c -> R c c0 -> Rt d (asignar n c0 d).
Proof.
  intros Hs HR. rewrite asignar_presente.
  2:{ apply in_map_iff. exists (n, c). split; [reflexivity | now apply serie_In]. }
  apply Forall2_map_derecha. intros [m c'] Hin. cbn [fst snd].
  destruct (String.eqb_spec m n) as [-> | Hne]; cbn [fst snd].
  - split; [reflexivity |]. now rewrite (serie_unica n d c c' Hs Hin).
  - split; [reflexivity | apply R_refl].
Qed.

Lemma fold_left_relacion (paso : Dataset -> string -> Dataset) :
  (forall d n, Rt d (paso d n)) ->
  forall l d, Rt d (fold_left paso l d).
Proof.
  intros Hpaso l. induction l as [| m l IH]; intro d; simpl.
  - apply relacion_refl.
  - eapply relacion_trans; [apply Hpaso | apply IH].
Qed.

Lemma para_cada_relacion (paso : Dataset -> string -> Resultado Dataset) :
  (forall d n d', paso d n = Ok d' -> Rt d d') ->
  forall l d d', para_cada paso l d = Ok d' -> Rt d d'.
Proof.
  intros Hpaso l d d' H.
  apply (para_cada_invariante paso (fun x => Rt d x)) with (l := l) (d := d);
    [| exact H | apply relacion_refl].
  intros d1 m d2 E H1. eapply relacion_trans; [exact H1 | exact (Hpaso d1 m d2 E)].
Qed.

Lemma relacion_etiquetas (d d' : Dataset) : Rt d d' -> etiquetas d' = etiquetas d.
Proof.
  induction 1 as [| x y l l' [H1 _] _ IH]; [reflexivity |].
  simpl. now rewrite IH, H1.
Qed.

End RelacionDeColumnas.

(** ** More on stage 3 *)

Lemma rellena_refl {A} (vs : list (option A)) : rellena vs vs.
Proof. induction vs; constructor; auto. Qed.

Lemma rellena_trans {A} (v1 v2 v3 : list (option A)) :
  rellena v1 v2 -> rellena v2 v3 -> rellena v1 v3.
Proof.
  intro H. revert v3. induction H as [| x y l l' Hxy _ IH]; intros v3 H3.
  - inversion H3. constructor.
  - inversion H3 as [| y' z l2 l3 Hyz H6]; subst. constructor; [| now apply IH].
    intros a Ha. apply Hyz, Hxy, Ha.
Qed.

Lemma rellena_fillna {A} (vs rellenos : list (option A)) : rellena vs (fillna vs rellenos).
Proof.
  revert rellenos. induction vs as [| v vs IH]; intro rs; [constructor |].
  destruct v as [x |], rs as [| r rs]; simpl; try apply rellena_refl;
    constructor; try apply IH; [auto | discriminate].
Qed.

Lemma rellena_fillna_escalar {A} (vs : list (option A)) (relleno : option A) :
  rellena vs (fillna_escalar vs relleno).
Proof.
  induction vs as [| v vs IH]; simpl; constructor; [| exact IH].
  intros x ->. reflexivity.
Qed.

Lemma columna_rellenada_refl (c : columna) : columna_rellenada c c.
Proof. destruct c; apply rellena_refl. Qed.

Lemma columna_rellenada_trans (c1 c2 c3 : columna) :
  columna_rellenada c1 c2 -> columna_rellenada c2 c3 -> columna_rellenada c1 c3.
Proof.
  destruct c1, c2, c3; simpl; try tauto; apply rellena_trans.
Qed.

Lemma imputar_numerica_rellena (datos datos' : Dataset) (n : string) :
  imputar_numerica datos n = Ok datos' -> tabla_rellenada datos datos'.
Proof.
  intro H. unfold imputar_numerica in H.
  destruct (serie datos n) as [[vs | vs] |] eqn:Hs; [| | discriminate].
  2:{ injection H as <-. apply (relacion_refl _ columna_rellenada_refl). }
  destruct (isnull_any vs).
  2:{ injection H as <-. apply (relacion_refl _ columna_rellenada_refl). }
  unfold bind in H. destruct (claves_posicion datos) as [claves | e]; [| discriminate].
  set (vs1 := fillna vs (transform mediana claves vs)) in H.
  assert (H1 : tabla_rellenada datos (asignar n (Numerica vs1) datos)).
  { apply (asignar_relacion _ columna_rellenada_refl _ n (Numerica vs)); [exact Hs |].
    apply rellena_fillna. }
  destruct (isnull_any vs1); injection H as <-; [| exact H1].
  eapply (relacion_trans _ columna_rellenada_trans); [exact H1 |].
  apply (asignar_relacion _ columna_rellenada_refl _ n (Numerica vs1)).
  - eapply serie_asignar_mismo, Hs.
  - apply rellena_fillna_escalar.
Qed.

Lemma imputar_categorica_rellena (datos datos' : Dataset) (n : string) :
  imputar_categorica datos n = Ok datos' -> tabla_rellenada datos datos'.
Proof.
  intro H. unfold imputar_categorica in H.
  destruct (en_lista n categoricas_excluidas).
  { injection H as <-. apply (relacion_refl _ columna_rellenada_refl). }
  destruct (serie datos n) as [[vs | vs] |] eqn:Hs; [| | discriminate].
  { injection H as <-. apply (relacion_refl _ columna_rellenada_refl). }
  destruct (isnull_any vs).
  2:{ injection H as <-. apply (relacion_refl _ columna_rellenada_refl). }
  unfold bind in H. destruct (claves_posicion datos) as [claves | e]; [| discriminate].
  injection H as <-.
  apply (asignar_relacion _ columna_rellenada_refl _ n (Categorica vs)); [exact Hs |].
  apply rellena_fillna.
Qed.

Lemma imputar_rellena (datos datos' : Dataset) :
  imputar datos = Ok datos' -> tabla_rellenada datos datos'.
Proof.
  intro H. unfold imputar, bind in H.
  destruct (para_cada imputar_numerica (columnas_numericas datos) datos)
    as [datos1 | e] eqn:E1; [| discriminate].
  eapply (relacion_trans _ columna_rellenada_trans).
  - exact (para_cada_relacion _ columna_rellenada_refl columna_rellenada_trans
             imputar_numerica (fun d n d' => imputar_numerica_rellena d d' n) _ _ _ E1).
  - exact (para_cada_relacion _ columna_rellenada_refl columna_rellenada_trans
             imputar_categorica (fun d n d' => imputar_categorica_rellena d d' n) _ _ _ H).
Qed.

Lemma rellena_length {A} (vs vs' : list (option A)) :
  rellena vs vs' -> List.length vs' = List.length vs.
Proof. intro H. symmetry. exact (Forall2_length H). Qed.

Lemma rellena_nulos {A} (vs vs' : list (option A)) :
  rellena vs vs' ->
  (List.length (filter es_nulo vs') <= List.length (filter es_nulo vs))%nat.
Proof.
  induction 1 as [| v v' l l' Hv _ IH]; [apply Nat.le_refl |].
  simpl. destruct v as [x |].
  - rewrite (Hv x eq_refl). simpl. exact IH.
  - destruct v'; simpl; lia.
Qed.

(** X5.  Stage 3 only fills nulls: it keeps the labels and the order of the
    columns, the kind and the number of rows of each, and every cell that
    held a value. *)
Theorem imputacion_solo_rellena :
  forall datos datos' : Dataset,
    imputar datos = Ok datos' ->
    tabla_rellenada datos datos' /\
    etiquetas datos' = etiquetas datos /\
    (forall i n c,
        nth_error datos i = Some (n, c) ->
        exists c',
          nth_error datos' i = Some (n, c') /\
          es_numerica c' = es_numerica c /\
          longitud c' = longitud c /\
          (forall j x, celda c j = Some x -> celda c' j = Some x)).
Proof.
  intros datos datos' H. assert (Hr := imputar_rellena datos datos' H).
  split; [exact Hr |]. split.
  - exact (relacion_etiquetas columna_rellenada datos datos' Hr).
  - clear H. induction Hr as [| [m c0] [m' c0'] l l' [H1 H2] _ IH]; intros i n c Hi.
    + destruct i; discriminate.
    + destruct i as [| i]; [| exact (IH i n c Hi)].
      simpl in Hi. injection Hi as -> ->. simpl in H1. subst m'.
      exists c0'. split; [reflexivity |].
      destruct c as [vs | vs], c0' as [vs' | vs']; simpl in H2; try contradiction;
        (split; [reflexivity |]); (split; [exact (rellena_length _ _ H2) |]);
        intros j x; simpl; revert j;
        induction H2 as [| v v' l1 l2 Hv _ IH2]; intros [| j]; simpl;
        try discriminate; try apply IH2;
        destruct v as [y |]; simpl; try discriminate;
        intros [= <-]; now rewrite (Hv y eq_refl).
Qed.

Lemma imputacion_solo_rellena_witness :
  etiquetas
    [("finishing", Numerica [Some 95; Some 60; Some 10; Some 60]);
     ("preferred_foot", Categorica [Some "left"; Some "Unknown"; Some "left"; Some "left"]);
     ("posicion_inferida",
      Categorica [Some "Delantero"; Some "Portero"; Some "Delantero"; Some "Versatil"])]
  = ["finishing"; "preferred_foot"; "posicion_inferida"].
Proof.
  refine (proj1 (proj2 (imputacion_solo_rellena
           [("finishing", Numerica [Some 95; Some 60; Some 10; None]);
            ("preferred_foot", Categorica [Some "left"; None; None; Some "left"]);
            ("posicion_inferida",
             Categorica [Some "Delantero"; Some "Portero"; Some "Delantero"; Some "Versatil"])]
           _ _))).
  reflexivity.
Defined.

Lemma tabla_rellenada_nulos (d d' : Dataset) :
  tabla_rellenada d d' -> (contar_nulos d' <= contar_nulos d)%nat.
Proof.
  unfold contar_nulos.
  induction 1 as [| [n c] [n' c'] l l' [_ H2] _ IH]; [apply Nat.le_refl |].
  simpl in *. assert (nulos_columna c' <= nulos_columna c)%nat; [| lia].
  destruct c, c'; simpl in *; try contradiction; now apply rellena_nulos.
Qed.

(** X6.  Stage 3 never adds a null: the count of nulls after it is at most
    the count before it.  Hence the reduction it reports is never minus
    infinity; it is NaN exactly when the table had no null to begin with,
    and otherwise a percentage between 0 and 100 that is 100 exactly when
    no null is left. *)
Theorem reduccion_de_nulos :
  forall datos datos' : Dataset,
    imputar datos = Ok datos' ->
    let nulos_iniciales := contar_nulos datos in
    let nulos_finales := contar_nulos datos' in
    (nulos_finales <= nulos_iniciales)%nat /\
    (nulos_iniciales = O -> reduccion_nulos nulos_iniciales nulos_finales = NaN) /\
    ((0 < nulos_iniciales)%nat ->
     exists q, reduccion_nulos nulos_iniciales nulos_finales = Finito q /\
               0 <= q <= 100 /\ (q == 100 <-> nulos_finales = O)).
Proof.
  intros datos datos' H. cbv zeta.
  assert (Hle := tabla_rellenada_nulos _ _ (imputar_rellena _ _ H)). clear H.
  revert Hle. generalize (contar_nulos datos'), (contar_nulos datos).
  intros fin ini Hle.
  split; [exact Hle |]. split.
  - intro H0. subst ini. assert (fin = O) by lia. now subst.
  - intro Hpos. destruct ini as [| k]; [lia |].
    cbn [reduccion_nulos]. remember (S k) as ini eqn:Ei.
    eexists. split; [reflexivity |].
    assert (Hi : 0 < inject_Z (Z.of_nat ini)).
    { change 0 with (inject_Z 0). rewrite <- Zlt_Qlt. lia. }
    assert (Hf0 : 0 <= inject_Z (Z.of_nat fin)).
    { change 0 with (inject_Z 0). rewrite <- Zle_Qle. lia. }
    assert (Hfi : inject_Z (Z.of_nat fin) <= inject_Z (Z.of_nat ini)).
    { rewrite <- Zle_Qle. lia. }
    assert (Hcero : inject_Z (Z.of_nat fin) == 0 <-> fin = O).
    { change 0 with (inject_Z 0). split.
      - intro E. unfold Qeq in E. simpl in E. lia.
      - intros ->. reflexivity. }
    revert Hi Hf0 Hfi Hcero.
    generalize (inject_Z (Z.of_nat fin)), (inject_Z (Z.of_nat ini)).
    intros f i Hi Hf0 Hfi Hcero.
    assert (Hq0 : 0 <= f / i) by (apply Qle_shift_div_l; [exact Hi | lra]).
    assert (Hq1 : f / i <= 1) by (apply Qle_shift_div_r; [exact Hi | lra]).
    split; [lra |]. split.
    + intro E. apply Hcero. assert (Ez : f / i == 0) by lra.
      setoid_replace f with (f / i * i) by (field; lra). rewrite Ez. ring.
    + intro E. apply Hcero in E. rewrite E. unfold Qdiv. ring.
Qed.

Lemma reduccion_de_nulos_witness :
  le (contar_nulos
        [("finishing", Numerica [Some 95; Some 60; Some 10; Some 60]);
         ("player_name", Categorica [Some "Leo"; None; None; Some "Iker"]);
         ("posicion_inferida",
          Categorica [Some "Delantero"; Some "Portero"; Some "Delantero"; Some "Versatil"])])
     (contar_nulos
        [("finishing", Numerica [Some 95; Some 60; Some 10; None]);
         ("player_name", Categorica [Some "Leo"; None; None; Some "Iker"]);
         ("posicion_inferida",
          Categorica [Some "Delantero"; Some "Portero"; Some "Delantero"; Some "Versatil"])]).
Proof.
  refine (proj1 (reduccion_de_nulos _ _ _)). reflexivity.
Defined.

(** *** Where the filled values come from *)

Lemma nth_sort_In (l : list Q) (k : nat) :
  (k < List.length (OrdenarQ.sort l))%nat -> In (nth k (OrdenarQ.sort l) 0) l.
Proof.
  intro H. eapply Permutation_in.
  - apply Permutation_sym, OrdenarQ.Permuted_sort.
  - now apply nth_In.
Qed.

(** The median of a Series lies between any bounds of its values. *)
Lemma mediana_en_rango (l : list (option Q)) (lo hi m : Q) :
  (forall q, In (Some q) l -> lo <= q <= hi) ->
  mediana l = Some m -> lo <= m <= hi.
Proof.
  intros Hr. unfold mediana.
  assert (Hs : forall k, (k < List.length (OrdenarQ.sort (no_nulos l)))%nat ->
                         lo <= nth k (OrdenarQ.sort (no_nulos l)) 0 <= hi).
  { intros k Hk. apply Hr, no_nulos_In, nth_sort_In, Hk. }
  destruct (List.length (OrdenarQ.sort (no_nulos l))) as [| n] eqn:En; [discriminate |].
  assert (H2 : (S n / 2 < S n)%nat) by (apply Nat.div_lt; lia).
  destruct (Nat.even (S n)); intros [= <-];
    change (fst (Nat.divmod n 1 0 0)) with (S n / 2)%nat.
  - assert (H1 := Hs (S n / 2 - 1)%nat ltac:(lia)). assert (H3 := Hs _ H2).
    split.
    + apply Qle_shift_div_l; [reflexivity | lra].
    + apply Qle_shift_div_r; [reflexivity | lra].
  - exact (Hs _ H2).
Qed.

Lemma grupo_In {A} (k : escalar) (claves : list valor) (vs : list (option A)) (v : option A) :
  In v (grupo k claves vs) -> In v vs.
Proof.
  unfold grupo. rewrite in_map_iff. intros ([c w] & <- & H).
  apply filter_In in H. destruct H as [H _]. exact (in_combine_r _ _ _ _ H).
Qed.

Lemma fillna_In {A} (vs rellenos : list (option A)) (v : option A) :
  In v (fillna vs rellenos) -> In v vs \/ In v rellenos.
Proof.
  revert rellenos. induction vs as [| w vs IH]; intros rs H; [destruct H |].
  destruct w as [x |], rs as [| r rs]; simpl in H; try (left; exact H);
    destruct H as [H | H]; try (left; left; exact H); try (right; left; exact H);
    destruct (IH rs H); [left; now right | right; now right
                        | left; now right | right; now right].
Qed.

Lemma fillna_escalar_In {A} (vs : list (option A)) (relleno v : option A) :
  In v (fillna_escalar vs relleno) -> In v vs \/ v = relleno.
Proof.
  unfold fillna_escalar. rewrite in_map_iff. intros ([x |] & <- & H); [now left | now right].
Qed.

(** One numeric iteration keeps the values of its column within any bounds
    they were in. *)
Lemma imputar_numerica_rango (datos datos' : Dataset) (n : string)
  (vs : list (option Q)) (lo hi : Q) :
  imputar_numerica datos n = Ok datos' ->
  serie datos n = Some (Numerica vs) ->
  (forall q, In (Some q) vs -> lo <= q <= hi) ->
  exists vs', serie datos' n = Some (Numerica vs') /\
              forall q, In (Some q) vs' -> lo <= q <= hi.
Proof.
  intros H Hs Hr. unfold imputar_numerica in H. rewrite Hs in H.
  destruct (isnull_any vs).
  2:{ injection H as <-. now exists vs. }
  unfold bind in H. destruct (claves_posicion datos) as [claves | e]; [| discriminate].
  set (vs1 := fillna vs (transform mediana claves vs)) in H.
  assert (Hr1 : forall q, In (Some q) vs1 -> lo <= q <= hi).
  { intros q Hq. apply fillna_In in Hq. destruct Hq as [Hq | Hq]; [now apply Hr |].
    unfold transform in Hq. apply in_map_iff in Hq.
    destruct Hq as ([k |] & E & _); [| discriminate].
    apply (mediana_en_rango (grupo k claves vs)); [| exact E].
    intros q' Hq'. apply Hr. eapply grupo_In, Hq'. }
  assert (Hs1 : serie (asignar n (Numerica vs1) datos) n = Some (Numerica vs1))
    by (eapply serie_asignar_mismo, Hs).
  destruct (isnull_any vs1); injection H as <-; [| now exists vs1].
  eexists. split; [eapply serie_asignar_mismo, Hs1 |].
  intros q Hq. apply fillna_escalar_In in Hq. destruct Hq as [Hq | Hq]; [now apply Hr1 |].
  symmetry in Hq. exact (mediana_en_rango vs1 lo hi q Hr1 Hq).
Qed.

(** X7.  The numbers stage 3 fills in are medians of observed values, so
    they stay within the range of the column: bounds that held for every
    value of a numeric column before the stage hold for every value after
    it (ratings between 0 and 100 stay between 0 and 100). *)
Theorem imputacion_dentro_del_rango :
  forall (datos datos' : Dataset) (n : string) (vs : list (option Q)) (lo hi : Q),
    imputar datos = Ok datos' ->
    serie datos n = Some (Numerica vs) ->
    (forall q, In (Some q) vs -> lo <= q <= hi) ->
    exists vs', serie datos' n = Some (Numerica vs') /\
                forall q, In (Some q) vs' -> lo <= q <= hi.
Proof.
  intros datos datos' n vs lo hi H Hs Hr. unfold imputar, bind in H.
  destruct (para_cada imputar_numerica (columnas_numericas datos) datos)
    as [datos1 | e] eqn:E1; [| discriminate].
  assert (H1 : exists vs', serie datos1 n = Some (Numerica vs') /\
                           forall q, In (Some q) vs' -> lo <= q <= hi).
  { apply (para_cada_invariante imputar_numerica
             (fun d => exists vs', serie d n = Some (Numerica vs') /\
                                   forall q, In (Some q) vs' -> lo <= q <= hi))
      with (l := columnas_numericas datos) (d := datos); [| exact E1 | now exists vs].
    intros d m d' E (vs' & Hd & Hrd). destruct (string_dec m n) as [-> | Hne].
    - exact (imputar_numerica_rango d d' n vs' lo hi E Hd Hrd).
    - exists vs'. now rewrite (imputar_numerica_otro d d' m n E) by congruence. }
  destruct H1 as (vs' & Hs1 & Hr1). exists vs'. split; [| exact Hr1].
  exact (imputar_categoricas_conserva _ datos1 datos' n vs' H Hs1).
Qed.

Lemma imputacion_dentro_del_rango_witness :
  exists vs',
    serie [("finishing", Numerica [Some 95; Some 60; Some 10; Some 60]);
           ("posicion_inferida",
            Categorica [Some "Delantero"; Some "Portero"; Some "Delantero"; Some "Versatil"])]
          "finishing" = Some (Numerica vs') /\
    forall q, In (Some q) vs' -> 0 <= q <= 100.
Proof.
  apply (imputacion_dentro_del_rango
           [("finishing", Numerica [Some 95; Some 60; Some 10; None]);
            ("posicion_inferida",
             Categorica [Some "Delantero"; Some "Portero"; Some "Delantero"; Some "Versatil"])]
           _ "finishing" [Some 95; Some 60; Some 10; None] 0 100).
  - reflexivity.
  - reflexivity.
  - intros q Hq. simpl in Hq.
    repeat (destruct Hq as [Hq | Hq]; [try discriminate Hq; injection Hq as <-; lra |]).
    destruct Hq.
Defined.

Lemma moda_In (l : list (option string)) (m : string) :
  moda l = Some m -> In (Some m) l.
Proof.
  unfold moda. intro H. apply unicos_In.
  assert (G : forall (cands : list string) (ini : option string),
             fold_left
               (fun mejor c =>
                  match mejor with
                  | None => Some c
                  | Some b =>
                      if Nat.ltb (count_occ string_dec (no_nulos l) b)
                                 (count_occ string_dec (no_nulos l) c)
                      then Some c else Some b
                  end) cands ini = Some m ->
             ini = Some m \/ In m cands).
  { induction cands as [| c cands IH]; intros ini Hf; [now left |].
    simpl in Hf. apply IH in Hf. destruct Hf as [Hf | Hf]; [| right; now right].
    destruct ini as [b |].
    - destruct (Nat.ltb _ _); injection Hf as <-; [right; now left | now left].
    - injection Hf as <-. right. now left. }
  destruct (G _ _ H) as [E | E]; [discriminate | exact E].
Qed.

Lemma imputar_categorica_valores (datos datos' : Dataset) (n : string)
  (vs : list (option string)) (permitido : string -> Prop) :
  imputar_categorica datos n = Ok datos' ->
  serie datos n = Some (Categorica vs) ->
  permitido "Unknown" -> (forall s, In (Some s) vs -> permitido s) ->
  exists vs', serie datos' n = Some (Categorica vs') /\
              forall s, In (Some s) vs' -> permitido s.
Proof.
  intros H Hs Hu Hp. unfold imputar_categorica in H.
  destruct (en_lista n categoricas_excluidas); [injection H as <-; now exists vs |].
  rewrite Hs in H. destruct (isnull_any vs); [| injection H as <-; now exists vs].
  unfold bind in H. destruct (claves_posicion datos) as [claves | e]; [| discriminate].
  injection H as <-. eexists. split; [eapply serie_asignar_mismo, Hs |].
  intros s Hin. apply fillna_In in Hin. destruct Hin as [Hin | Hin]; [now apply Hp |].
  unfold transform in Hin. apply in_map_iff in Hin.
  destruct Hin as ([k |] & E & _); [| discriminate].
  unfold moda_o_unknown in E. destruct (moda (grupo k claves vs)) as [m |] eqn:Em.
  - injection E as ->. apply Hp. eapply grupo_In, moda_In, Em.
  - injection E as <-. exact Hu.
Qed.

(** X8.  The texts stage 3 fills in are modes of observed values or the
    literal Unknown: after the stage every value of a text column is a
    value the column already held, or Unknown. *)
Theorem imputacion_de_textos :
  forall (datos datos' : Dataset) (n : string) (vs : list (option string)),
    imputar datos = Ok datos' ->
    serie datos n = Some (Categorica vs) ->
    exists vs', serie datos' n = Some (Categorica vs') /\
                forall s, In (Some s) vs' -> In (Some s) vs \/ s = "Unknown".
Proof.
  intros datos datos' n vs H Hs. unfold imputar, bind in H.
  destruct (para_cada imputar_numerica (columnas_numericas datos) datos)
    as [datos1 | e] eqn:E1; [| discriminate].
  assert (Hs1 := imputar_numericas_conserva _ datos datos1 n vs E1 Hs).
  apply (para_cada_invariante imputar_categorica
           (fun d => exists vs', serie d n = Some (Categorica vs') /\
                                 forall s, In (Some s) vs' -> In (Some s) vs \/ s = "Unknown"))
    with (l := columnas_object datos1) (d := datos1); [| exact H | exists vs; tauto].
  intros d m d' E (vs' & Hd & Hv). destruct (string_dec m n) as [-> | Hne].
  - apply (imputar_categorica_valores d d' n vs'
             (fun s => In (Some s) vs \/ s = "Unknown") E Hd); [now right | exact Hv].
  - exists vs'. now rewrite (imputar_categorica_otro d d' m n E) by congruence.
Qed.

Lemma imputacion_de_textos_witness :
  exists vs',
    serie [("preferred_foot", Categorica [Some "left"; Some "Unknown"; Some "left"; Some "left"]);
           ("posicion_inferida",
            Categorica [Some "Delantero"; Some "Portero"; Some "Delantero"; Some "Versatil"])]
          "preferred_foot" = Some (Categorica vs') /\
    forall s, In (Some s) vs' ->
              In (Some s) [Some "left"; None; None; Some "left"] \/ s = "Unknown".
Proof.
  apply (imputacion_de_textos
           [("preferred_foot", Categorica [Some "left"; None; None; Some "left"]);
            ("posicion_inferida",
             Categorica [Some "Delantero"; Some "Portero"; Some "Delantero"; Some "Versatil"])]
           _ "preferred_foot").
  - reflexivity.
  - reflexivity.
Defined.

(** *** When stage 3 raises *)

Lemma para_cada_identidad {S X} (paso : S -> X -> Resultado S) (l : list X) (st : S) :
  (forall x, In x l -> paso st x = Ok st) -> para_cada paso l st = Ok st.
Proof.
  induction l as [| x l IH]; intro H; [reflexivity |].
  cbn [para_cada]. rewrite (H x (or_introl eq_refl)). cbn [bind].
  apply IH. intros y Hy. apply H. now right.
Qed.

Lemma para_cada_excepcion {S X} (paso : S -> X -> Resultado S) (l : list X) (st : S)
  (e : string) :
  (forall x, In x l -> paso st x = Ok st \/ paso st x = Excepcion e) ->
  (exists x, In x l /\ paso st x = Excepcion e) ->
  para_cada paso l st = Excepcion e.
Proof.
  induction l as [| x l IH]; intros H (y & Hy & Ey); [destruct Hy |].
  cbn [para_cada]. destruct (H x (or_introl eq_refl)) as [E | E]; rewrite E; cbn [bind];
    [| reflexivity].
  apply IH; [intros z Hz; apply H; now right |].
  destruct Hy as [-> | Hy]; [congruence | now exists y].
Qed.

Lemma isnull_any_true {A} (l : list (option A)) : isnull_any l = true <-> In None l.
Proof.
  unfold isnull_any. rewrite existsb_exists. split.
  - intros ([x |] & Hx & Ex); [discriminate | exact Hx].
  - intro H. now exists None.
Qed.

Section SinPosiciones.

Variable datos : Dataset.
Hypothesis etiquetas_distintas : NoDup (etiquetas datos).
Hypothesis sin_posiciones : serie datos "posicion_inferida" = None.

Lemma imputar_numerica_sin_posiciones (m : string) (vs : list (option Q)) :
  In (m, Numerica vs) datos ->
  imputar_numerica datos m
  = if isnull_any vs then Excepcion "posicion_inferida" else Ok datos.
Proof.
  intro Hin. unfold imputar_numerica, claves_posicion.
  rewrite (serie_NoDup datos m _ etiquetas_distintas Hin), sin_posiciones.
  now destruct (isnull_any vs).
Qed.

Lemma imputar_categorica_sin_posiciones (m : string) (vs : list (option string)) :
  In (m, Categorica vs) datos ->
  imputar_categorica datos m
  = if en_lista m categoricas_excluidas then Ok datos
    else if isnull_any vs then Excepcion "posicion_inferida" else Ok datos.
Proof.
  intro Hin. unfold imputar_categorica, claves_posicion.
  rewrite (serie_NoDup datos m _ etiquetas_distintas Hin), sin_posiciones.
  destruct (en_lista m categoricas_excluidas); [reflexivity |].
  now destruct (isnull_any vs).
Qed.

Let numerica_con_nulos (nc : string * columna) : bool :=
  match snd nc with
  | Numerica vs => isnull_any vs
  | Categorica _ => false
  end.

Lemma imputar_sin_posiciones :
  hay_que_imputar datos -> imputar datos = Excepcion "posicion_inferida".
Proof.
  intro Hhay. unfold imputar.
  assert (Hnum : forall m, In m (columnas_numericas datos) ->
                 imputar_numerica datos m = Ok datos \/
                 imputar_numerica datos m = Excepcion "posicion_inferida").
  { intros m Hm. apply etiquetas_filtradas_In in Hm.
    destruct Hm as ([vs | vs] & Hin & Hk); [| discriminate].
    rewrite (imputar_numerica_sin_posiciones m vs Hin).
    destruct (isnull_any vs); tauto. }
  destruct (existsb numerica_con_nulos datos) eqn:Eb.
  - apply existsb_exists in Eb. destruct Eb as ([m c] & Hin & Hc).
    unfold numerica_con_nulos in Hc. simpl in Hc. destruct c as [vs | vs]; [| discriminate].
    rewrite (para_cada_excepcion imputar_numerica _ datos "posicion_inferida" Hnum);
      [reflexivity |].
    exists m. split.
    + apply etiquetas_filtradas_In. now exists (Numerica vs).
    + rewrite (imputar_numerica_sin_posiciones m vs Hin). now rewrite Hc.
  - assert (Hsin : forall m vs, In (m, Numerica vs) datos -> isnull_any vs = false).
    { intros m vs Hin. destruct (isnull_any vs) eqn:E; [| reflexivity].
      assert (existsb numerica_con_nulos datos = true); [| congruence].
      apply existsb_exists. exists (m, Numerica vs). split; [exact Hin | exact E]. }
    rewrite (para_cada_identidad imputar_numerica _ datos).
    2:{ intros m Hm. apply etiquetas_filtradas_In in Hm.
        destruct Hm as ([vs | vs] & Hin & Hk); [| discriminate].
        now rewrite (imputar_numerica_sin_posiciones m vs Hin), (Hsin m vs Hin). }
    cbn [bind].
    destruct Hhay as [(n & vs & Hin & Hnull) | (n & vs & Hin & Hex & Hnull)].
    { apply isnull_any_true in Hnull. rewrite (Hsin n vs Hin) in Hnull. discriminate. }
    apply para_cada_excepcion.
    + intros m Hm. apply columnas_object_In in Hm. destruct Hm as (ws & Hw).
      rewrite (imputar_categorica_sin_posiciones m ws Hw).
      destruct (en_lista m categoricas_excluidas); [now left |].
      destruct (isnull_any ws); tauto.
    + exists n. split; [apply columnas_object_In; now exists vs |].
      rewrite (imputar_categorica_sin_posiciones n vs Hin).
      apply en_lista_false in Hex. apply isnull_any_true in Hnull.
      now rewrite Hex, Hnull.
Qed.

End SinPosiciones.

Lemma imputar_sin_nulos (datos : Dataset) :
  NoDup (etiquetas datos) -> ~ hay_que_imputar datos -> imputar datos = Ok datos.
Proof.
  intros Hnd Hno. unfold imputar.
  rewrite (para_cada_identidad imputar_numerica _ datos).
  - cbn [bind]. apply para_cada_identidad. intros m Hm.
    apply columnas_object_In in Hm. destruct Hm as (vs & Hin).
    unfold imputar_categorica. rewrite (serie_NoDup datos m _ Hnd Hin).
    destruct (en_lista m categoricas_excluidas) eqn:Ex; [reflexivity |].
    destruct (isnull_any vs) eqn:E; [| reflexivity].
    exfalso. apply Hno. right. exists m, vs.
    split; [exact Hin |]. split; [now apply en_lista_false | now apply isnull_any_true].
  - intros m Hm. apply etiquetas_filtradas_In in Hm.
    destruct Hm as ([vs | vs] & Hin & Hk); [| discriminate].
    unfold imputar_numerica. rewrite (serie_NoDup datos m _ Hnd Hin).
    destruct (isnull_any vs) eqn:E; [| reflexivity].
    exfalso. apply Hno. left. exists m, vs. split; [exact Hin | now apply isnull_any_true].
Qed.

(** X9.  On a table with distinct labels, stage 3 needs the column
    posicion_inferida only when there is something to fill.  With the
    column it never raises; without it, it raises exactly when a numeric
    column, or a text column it does not exclude, holds a null, and
    otherwise returns the table as it is. *)
Theorem imputacion_y_posiciones :
  forall datos : Dataset,
    NoDup (etiquetas datos) ->
    ((exists c, serie datos "posicion_inferida" = Some c) ->
     exists datos', imputar datos = Ok datos') /\
    (~ hay_que_imputar datos -> imputar datos = Ok datos) /\
    (serie datos "posicion_inferida" = None -> hay_que_imputar datos ->
     imputar datos = Excepcion "posicion_inferida").
Proof.
  intros datos Hnd. split; [| split].
  - exact (imputar_total datos Hnd).
  - exact (imputar_sin_nulos datos Hnd).
  - exact (imputar_sin_posiciones datos Hnd).
Qed.

Lemma imputacion_y_posiciones_witness :
  imputar [("finishing", Numerica [Some 95; None]); ("date", Categorica [None; Some "2016"])]
  = Excepcion "posicion_inferida".
Proof.
  refine (proj2 (proj2 (imputacion_y_posiciones _ _)) _ _).
  - repeat constructor; simpl; intuition discriminate.
  - reflexivity.
  - left. exists "finishing", [Some 95; None]. simpl. tauto.
Defined.


(** ** More on stage 5 *)

Lemma unicos_sin_valores (vs : list (option string)) :
  (forall v, In v vs -> v = None) -> unicos vs = [].
Proof.
  intro H. destruct (unicos vs) as [| s l] eqn:E; [reflexivity |].
  assert (Hin : In s (unicos vs)) by (rewrite E; now left).
  apply unicos_In in Hin. discriminate (H _ Hin).
Qed.

(** X10.  A text column that holds no value at all (every row null, or no
    row) and is not one of the four excluded names has 0 distinct values:
    the encoder selects it, creates no indicator for it and drops it, so
    the column disappears from the table. *)
Theorem codificacion_columna_vacia :
  forall (datos datos' : Dataset) (n : string) (vs : list (option string)),
    codificar datos = Ok datos' ->
    serie datos n = Some (Categorica vs) ->
    ~ In n categoricas_excluidas ->
    (forall v, In v vs -> v = None) ->
    (exists seleccion, columnas_categoricas_onehot datos = Ok seleccion /\ In n seleccion) /\
    get_dummies n vs = [] /\
    (forall ws, ~ In (n, Categorica ws) datos').
Proof.
  intros datos datos' n vs Hcod Hs Hex Hvac.
  assert (Hu := unicos_sin_valores vs Hvac).
  destruct (columnas_categoricas_onehot datos) as [sel | e] eqn:Hsel.
  2:{ unfold codificar in Hcod. rewrite Hsel in Hcod. discriminate. }
  assert (Hin : In n sel).
  { apply (columnas_categoricas_onehot_In datos sel Hsel). split; [exact Hex |].
    exists vs. split; [exact Hs |]. unfold nunique. rewrite Hu. simpl. lia. }
  split; [now exists sel |]. split; [unfold get_dummies; now rewrite Hu |].
  rewrite (codificar_forma datos sel Hsel) in Hcod. injection Hcod as <-.
  intros ws H. apply in_app_or in H. destruct H as [H | H].
  - apply drop_In in H. tauto.
  - apply datos_encoded_numericas in H. discriminate.
Qed.

Lemma codificacion_columna_vacia_witness :
  get_dummies "preferred_foot" [None; None] = [].
Proof.
  refine (proj1 (proj2 (codificacion_columna_vacia
            [("id", Numerica [Some 1; Some 2]); ("preferred_foot", Categorica [None; None])]
            _ "preferred_foot" [None; None] _ _ _ _))).
  - reflexivity.
  - reflexivity.
  - simpl. intuition discriminate.
  - intros v Hv. simpl in Hv. intuition.
Defined.

Lemma seleccion_necesita_series (datos : Dataset) (l : list string) (sel0 sel : list string) :
  para_cada (seleccionar_onehot datos) l sel0 = Ok sel ->
  forall m, In m l -> ~ In m categoricas_excluidas -> exists c, serie datos m = Some c.
Proof.
  revert sel0. induction l as [| x l IH]; intros sel0 H m Hm Hex; [destruct Hm |].
  cbn [para_cada] in H. unfold bind in H.
  destruct (seleccionar_onehot datos sel0 x) as [sel1 | e] eqn:E; [| discriminate].
  destruct Hm as [-> | Hm]; [| exact (IH sel1 H m Hm Hex)].
  unfold seleccionar_onehot in E. apply en_lista_false in Hex. rewrite Hex in E.
  destruct (serie datos m) as [c |]; [now exists c | discriminate].
Qed.

(** X11.  Encoding is idempotent: in the table the encoder returns, every
    text column left is an excluded one or has more than 15 distinct
    values, so encoding it again (its labels being distinct) selects
    nothing and returns it unchanged. *)
Theorem codificacion_idempotente :
  forall datos datos' : Dataset,
    codificar datos = Ok datos' ->
    NoDup (etiquetas datos') ->
    columnas_categoricas_onehot datos' = Ok [] /\ codificar datos' = Ok datos'.
Proof.
  intros datos datos' Hcod Hnd.
  destruct (columnas_categoricas_onehot datos) as [sel | e] eqn:Hsel.
  2:{ unfold codificar in Hcod. rewrite Hsel in Hcod. discriminate. }
  assert (Hforma := codificar_forma datos sel Hsel). rewrite Hcod in Hforma.
  injection Hforma as Hforma.
  assert (H0 : columnas_categoricas_onehot datos' = Ok []).
  { unfold columnas_categoricas_onehot. apply para_cada_identidad.
    intros m Hm. apply columnas_object_In in Hm. destruct Hm as (ws & Hw).
    unfold seleccionar_onehot.
    destruct (en_lista m categoricas_excluidas) eqn:Ex; [reflexivity |].
    apply en_lista_false in Ex.
    rewrite (serie_NoDup datos' m _ Hnd Hw).
    assert (Hd : In (m, Categorica ws) datos /\ ~ In m sel).
    { rewrite Hforma in Hw. apply in_app_or in Hw. destruct Hw as [Hw | Hw].
      - now apply drop_In in Hw.
      - apply datos_encoded_numericas in Hw. discriminate. }
    destruct Hd as [Hd Hno].
    destruct (seleccion_necesita_series datos _ [] sel Hsel m) as (c & Hc);
      [apply columnas_object_In; now exists ws | exact Ex |].
    assert (Ec := serie_unica m datos c _ Hc Hd). subst c.
    destruct (nunique ws <=? 15)%nat eqn:Ek; [| reflexivity].
    exfalso. apply Hno. apply (columnas_categoricas_onehot_In datos sel Hsel).
    split; [exact Ex |]. exists ws. split; [exact Hc | now apply Nat.leb_le]. }
  split; [exact H0 |]. unfold codificar. now rewrite H0.
Qed.

Lemma codificacion_idempotente_witness :
  exists datos',
    codificar Ejemplos.jugadores = Ok datos' /\ codificar datos' = Ok datos'.
Proof.
  destruct (codificar Ejemplos.jugadores) as [datos' | e] eqn:E; [| discriminate E].
  exists datos'. split; [reflexivity |].
  apply (codificacion_idempotente Ejemplos.jugadores datos' E).
  injection E as <-. repeat constructor; simpl; intuition discriminate.
Defined.


(** ** More on stage 6 *)

Lemma misma_forma_refl (c : columna) : misma_forma c c.
Proof. split; reflexivity. Qed.

Lemma misma_forma_trans (c1 c2 c3 : columna) :
  misma_forma c1 c2 -> misma_forma c2 c3 -> misma_forma c1 c3.
Proof. intros [H1 H2] [H3 H4]. split; congruence. Qed.

Lemma normalizar_columna_esquema (datos : Dataset) (n : string) :
  mismo_esquema datos (normalizar_columna datos n).
Proof.
  unfold normalizar_columna.
  destruct (serie datos n) as [[vs | vs] |] eqn:Hs;
    try apply (relacion_refl _ misma_forma_refl).
  destruct (min_serie vs) as [minimo |]; [| apply (relacion_refl _ misma_forma_refl)].
  destruct (max_serie vs) as [maximo |]; [| apply (relacion_refl _ misma_forma_refl)].
  destruct (Qlt_bool minimo maximo);
    [| destruct (Qeq_bool maximo minimo); [| apply (relacion_refl _ misma_forma_refl)]];
    apply (asignar_relacion _ misma_forma_refl _ n (Numerica vs) _ Hs);
    split; [reflexivity | | reflexivity |]; simpl; now rewrite length_map.
Qed.

(** X12.  Stage 6 keeps the shape of the table: the labels, their order,
    the kind and the number of rows of every column.  It leaves every text
    column and every column named in the exclusion list exactly as it
    was. *)
Theorem normalizacion_conserva_esquema :
  forall datos : Dataset,
    mismo_esquema datos (normalizar datos) /\
    etiquetas (normalizar datos) = etiquetas datos /\
    (forall n c,
        serie datos n = Some c ->
        es_categorica c = true \/ In n excluir_normalizacion ->
        serie (normalizar datos) n = Some c).
Proof.
  intro datos.
  assert (H : mismo_esquema datos (normalizar datos)).
  { unfold normalizar.
    apply (fold_left_relacion _ misma_forma_refl misma_forma_trans normalizar_columna
             normalizar_columna_esquema). }
  split; [exact H |]. split; [exact (relacion_etiquetas misma_forma _ _ H) |].
  intros n c Hs Hcaso. rewrite (normalizar_serie_Some datos n c Hs).
  destruct Hcaso as [Hc | Hex].
  - unfold es_categorica in Hc. apply negb_true_iff in Hc. now rewrite Hc.
  - apply en_lista_In in Hex. rewrite Hex. now rewrite andb_false_r.
Qed.

Lemma normalizacion_conserva_esquema_witness :
  serie (normalizar Ejemplos.jugadores) "id"
  = Some (Numerica [Some 1; Some 2; Some 3; Some 4]).
Proof.
  refine (proj2 (proj2 (normalizacion_conserva_esquema Ejemplos.jugadores)) "id" _ _ _).
  - reflexivity.
  - right. simpl. tauto.
Defined.

(** Line 163 as a map of the cell. *)
Lemma resta64_mono (minimo x y : Q) :
  minimo <= x -> x <= y -> 0 <= resta64 x minimo <= resta64 y minimo.
Proof.
  intros Hx Hxy. unfold resta64. split.
  - apply redondear64_no_negativo. lra.
  - apply redondear64_mono; lra.
Qed.

Lemma paso_163_mono (minimo maximo x y : Q) :
  minimo < maximo -> minimo <= x -> x <= y ->
  0 <= division64 (multiplicacion64 (resta64 x minimo) 100) (resta64 maximo minimo)
    <= division64 (multiplicacion64 (resta64 y minimo) 100) (resta64 maximo minimo).
Proof.
  intros Hlt Hx Hxy.
  destruct (resta64_mono minimo x y Hx Hxy) as [R0 R1].
  assert (Hb : 0 <= resta64 maximo minimo).
  { unfold resta64. apply redondear64_no_negativo. lra. }
  assert (Hi : 0 <= / resta64 maximo minimo) by now apply Qinv_le_0_compat.
  assert (M0 : 0 <= multiplicacion64 (resta64 x minimo) 100).
  { unfold multiplicacion64. apply redondear64_no_negativo.
    apply Qmult_le_0_compat; [exact R0 | discriminate]. }
  assert (M1 : multiplicacion64 (resta64 x minimo) 100
               <= multiplicacion64 (resta64 y minimo) 100).
  { unfold multiplicacion64. apply redondear64_mono.
    - apply Qmult_le_0_compat; [exact R0 | discriminate].
    - apply Qmult_le_compat_r; [exact R1 | discriminate]. }
  unfold division64, Qdiv. split.
  - apply redondear64_no_negativo. now apply Qmult_le_0_compat.
  - apply redondear64_mono.
    + now apply Qmult_le_0_compat.
    + now apply Qmult_le_compat_r.
Qed.

Lemma paso_163_minimo (minimo maximo : Q) :
  division64 (multiplicacion64 (resta64 minimo minimo) 100) (resta64 maximo minimo) = 0.
Proof.
  assert (R : resta64 minimo minimo = 0).
  { unfold resta64. apply redondear64_cero. ring. }
  rewrite R. unfold multiplicacion64. rewrite (redondear64_cero (0 * 100)) by ring.
  unfold division64. apply redondear64_cero. unfold Qdiv. ring.
Qed.

Lemma paso_163_exacto (minimo maximo : Q) :
  minimo < maximo ->
  resta64 maximo minimo == maximo - minimo ->
  multiplicacion64 (maximo - minimo) 100 == (maximo - minimo) * 100 ->
  division64 (multiplicacion64 (resta64 maximo minimo) 100) (resta64 maximo minimo) = 100.
Proof.
  intros Hlt Er Em.
  assert (E1 : multiplicacion64 (resta64 maximo minimo) 100
               = multiplicacion64 (maximo - minimo) 100).
  { unfold multiplicacion64. apply redondear64_comp.
    apply Qmult_comp; [exact Er | reflexivity]. }
  rewrite E1. unfold division64. rewrite <- redondear64_100.
  apply redondear64_comp. rewrite Em, Er. field. lra.
Qed.

(** X13.  On a numeric column that is not excluded, whose maximum is
    strictly above its minimum and at most 2^53 above it (so that a column
    held as int64 computes the same), stage 6 applies to every number the
    map of line 163, rounded as binary64 rounds, and keeps the nulls.  The
    map does not decrease; the minimum becomes exactly 0; every value lies
    between 0 and the image of the maximum; and that image is exactly 100
    whenever the difference and the product are exact at the maximum, as
    they are on integer ratings. *)
Theorem normalizacion_creciente :
  forall (datos : Dataset) (n : string) (vs : list (option Q)) (minimo maximo : Q),
    serie datos n = Some (Numerica vs) ->
    ~ In n excluir_normalizacion ->
    min_serie vs = Some minimo -> max_serie vs = Some maximo ->
    minimo < maximo ->
    maximo - minimo <= inject_Z (2 ^ 53) ->
    let f := fun x => division64 (multiplicacion64 (resta64 x minimo) 100)
                                 (resta64 maximo minimo) in
    serie (normalizar datos) n = Some (Numerica (map (option_map f) vs)) /\
    f minimo = 0 /\
    (forall x y, minimo <= x -> x <= y -> f x <= f y) /\
    (forall q, In (Some q) (map (option_map f) vs) -> 0 <= q <= f maximo) /\
    (resta64 maximo minimo == maximo - minimo ->
     multiplicacion64 (maximo - minimo) 100 == (maximo - minimo) * 100 ->
     f maximo = 100).
Proof.
  intros datos n vs minimo maximo Hs Hex Emin Emax Hlt Hint f.
  destruct (min_serie_cota vs minimo Emin) as [_ Hmin].
  destruct (max_serie_cota vs maximo Emax) as [_ Hmax].
  split; [| split; [| split; [| split]]].
  - rewrite (normalizar_serie_Some datos n _ Hs).
    apply en_lista_false in Hex. rewrite Hex. cbn [es_numerica negb andb efecto_normalizar].
    unfold reescalar. rewrite Emin, Emax.
    apply Qlt_bool_iff in Hlt. now rewrite Hlt.
  - apply paso_163_minimo.
  - intros x y Hx Hxy. exact (proj2 (paso_163_mono minimo maximo x y Hlt Hx Hxy)).
  - intros q Hq. apply in_map_iff in Hq.
    destruct Hq as ([x |] & E & Hx); [| discriminate]. simpl in E. injection E as <-.
    split.
    + exact (proj1 (paso_163_mono minimo maximo x x Hlt (Hmin x Hx) (Qle_refl x))).
    + exact (proj2 (paso_163_mono minimo maximo x maximo Hlt (Hmin x Hx) (Hmax x Hx))).
  - intros Er Em. now apply paso_163_exacto.
Qed.

Lemma normalizacion_creciente_witness :
  division64 (multiplicacion64 (resta64 90 40) 100) (resta64 90 40) = 100.
Proof.
  refine (proj2 (proj2 (proj2 (proj2
            (normalizacion_creciente Ejemplos.jugadores "overall_rating"
               [Some 40; None; Some 90; Some 65] 40 90 _ _ _ _ _ _)))) _ _).
  - reflexivity.
  - simpl. intuition discriminate.
  - reflexivity.
  - reflexivity.
  - reflexivity.
  - vm_compute. discriminate.
  - vm_compute. reflexivity.
  - vm_compute. reflexivity.
Defined.


(** ** Quantiles *)

Lemma quantile_interpolar (l : list (option Q)) (q : Q) :
  quantile l q
  = match OrdenarQ.sort (no_nulos l) with
    | [] => None
    | _ => Some (interpolar (OrdenarQ.sort (no_nulos l))
                   (inject_Z (Z.of_nat (List.length (OrdenarQ.sort (no_nulos l)) - 1)) * q))
    end.
Proof. reflexivity. Qed.

Lemma StronglySorted_nth (s : list Q) :
  StronglySorted Qle s ->
  forall a b, (a <= b)%nat -> (b < List.length s)%nat -> nth a s 0 <= nth b s 0.
Proof.
  induction 1 as [| x s Hs IH Hx]; intros a b Hab Hb; simpl in Hb; [lia |].
  destruct a as [| a], b as [| b]; simpl; try lia.
  - apply Qle_refl.
  - rewrite Forall_forall in Hx. apply Hx, nth_In. lia.
  - apply IH; lia.
Qed.

Lemma sort_ordenado (l : list Q) : StronglySorted Qle (OrdenarQ.sort l).
Proof.
  assert (Ht : Transitive (fun x y => is_true (Qle_bool x y))).
  { intros x y z Hxy Hyz. apply Qle_bool_iff in Hxy, Hyz. apply Qle_bool_iff.
    eapply Qle_trans; eassumption. }
  generalize (OrdenarQ.StronglySorted_sort l Ht).
  generalize (OrdenarQ.sort l). intros s H.
  induction H as [| x s Hs IH Hx]; constructor; [exact IH |].
  rewrite Forall_forall in *. intros y Hy. apply Qle_bool_iff. exact (Hx y Hy).
Qed.

Lemma Qfloor_no_negativo (h : Q) : 0 <= h -> (0 <= Qfloor h)%Z.
Proof. intro H. rewrite <- (Qfloor_Z 0). now apply Qfloor_resp_le. Qed.

(** Where the interpolation takes its two values. *)
Lemma interpolar_posicion (s : list Q) (h : Q) :
  StronglySorted Qle s -> s <> [] ->
  0 <= h -> h <= inject_Z (Z.of_nat (List.length s - 1)) ->
  let i := Z.to_nat (Qfloor h) in
  let inferior := nth i s 0 in
  let superior := nth (Z.to_nat (Qfloor h + 1)) s inferior in
  (i < List.length s)%nat /\
  inject_Z (Z.of_nat i) <= h /\ h < inject_Z (Z.of_nat i) + 1 /\
  inferior <= superior /\
  ((S i < List.length s)%nat -> superior = nth (S i) s 0) /\
  interpolar s h = inferior + (superior - inferior) * (h - inject_Z (Z.of_nat i)).
Proof.
  intros Hs Hne H0 Hn i inferior superior.
  assert (Hi0 : (0 <= Qfloor h)%Z) by now apply Qfloor_no_negativo.
  assert (Hin : (Qfloor h <= Z.of_nat (List.length s - 1))%Z).
  { rewrite <- (Qfloor_Z (Z.of_nat (List.length s - 1))). now apply Qfloor_resp_le. }
  assert (Hlen : (0 < List.length s)%nat) by (destruct s; [congruence | simpl; lia]).
  assert (Ei : Z.of_nat i = Qfloor h) by (unfold i; lia).
  assert (Es : Z.to_nat (Qfloor h + 1) = S i) by (unfold i; lia).
  split; [unfold i; lia |].
  split; [rewrite Ei; apply Qfloor_le |].
  split.
  { rewrite Ei. generalize (Qlt_floor h). rewrite inject_Z_plus. trivial. }
  assert (Hsup : (S i < List.length s)%nat -> superior = nth (S i) s 0).
  { intro Hlt. unfold superior. rewrite Es. apply nth_indep, Hlt. }
  split; [| split; [exact Hsup |]].
  - destruct (Nat.ltb_spec (S i) (List.length s)) as [Hlt | Hge].
    + rewrite (Hsup Hlt). apply StronglySorted_nth; [exact Hs | lia | exact Hlt].
    + unfold superior. rewrite Es, nth_overflow by exact Hge. apply Qle_refl.
  - unfold interpolar. fold i. fold inferior. fold superior. rewrite Ei. reflexivity.
Qed.

Lemma interpolar_monotono (s : list Q) (h1 h2 : Q) :
  StronglySorted Qle s -> s <> [] ->
  0 <= h1 -> h1 <= h2 -> h2 <= inject_Z (Z.of_nat (List.length s - 1)) ->
  interpolar s h1 <= interpolar s h2.
Proof.
  intros Hs Hne H0 H12 Hn.
  destruct (interpolar_posicion s h1 Hs Hne H0 ltac:(lra)) as (L1 & A1 & B1 & C1 & D1 & E1).
  destruct (interpolar_posicion s h2 Hs Hne ltac:(lra) Hn) as (L2 & A2 & B2 & C2 & D2 & E2).
  rewrite E1, E2. clear E1 E2.
  set (i1 := Z.to_nat (Qfloor h1)) in *. set (i2 := Z.to_nat (Qfloor h2)) in *.
  assert (Hi : (i1 <= i2)%nat).
  { unfold i1, i2. apply Z2Nat.inj_le.
    - now apply Qfloor_no_negativo.
    - apply Qfloor_no_negativo. lra.
    - now apply Qfloor_resp_le. }
  destruct (Nat.eq_dec i1 i2) as [E | Hne12].
  - revert C2 B2 A2 D2. rewrite <- E.
    replace (Z.to_nat (Qfloor h2 + 1)) with (Z.to_nat (Qfloor h1 + 1)).
    2:{ assert (0 <= Qfloor h1)%Z by now apply Qfloor_no_negativo.
        assert (0 <= Qfloor h2)%Z by (apply Qfloor_no_negativo; lra).
        unfold i1, i2 in E. lia. }
    generalize dependent (nth (Z.to_nat (Qfloor h1 + 1)) s (nth i1 s 0)).
    generalize (nth i1 s 0). generalize (inject_Z (Z.of_nat i1)).
    intros k a b. intros. nra.
  - assert (Hlt : (S i1 < List.length s)%nat) by lia.
    assert (Hm : nth (S i1) s 0 <= nth i2 s 0).
    { apply StronglySorted_nth; [exact Hs | lia | exact L2]. }
    rewrite (D1 Hlt) in *.
    generalize dependent (nth (Z.to_nat (Qfloor h2 + 1)) s (nth i2 s 0)).
    generalize dependent (nth (S i1) s 0).
    generalize dependent (nth i2 s 0). generalize dependent (nth i1 s 0).
    generalize dependent (inject_Z (Z.of_nat i1)).
    generalize dependent (inject_Z (Z.of_nat i2)).
    intros. nra.
Qed.

Lemma interpolar_rango (s : list Q) (h lo hi : Q) :
  StronglySorted Qle s -> s <> [] ->
  0 <= h -> h <= inject_Z (Z.of_nat (List.length s - 1)) ->
  (forall x, In x s -> lo <= x <= hi) ->
  lo <= interpolar s h <= hi.
Proof.
  intros Hs Hne H0 Hn Hr.
  destruct (interpolar_posicion s h Hs Hne H0 Hn) as (L & A & B & C & D & E).
  rewrite E. clear E.
  set (i := Z.to_nat (Qfloor h)) in *.
  assert (Hinf : lo <= nth i s 0 <= hi) by (apply Hr, nth_In, L).
  assert (Hsup : lo <= nth (Z.to_nat (Qfloor h + 1)) s (nth i s 0) <= hi).
  { destruct (Nat.ltb_spec (S i) (List.length s)) as [Hlt | Hge].
    - rewrite (D Hlt). apply Hr, nth_In, Hlt.
    - assert (Es : Z.to_nat (Qfloor h + 1) = S i).
      { assert (0 <= Qfloor h)%Z by now apply Qfloor_no_negativo.
        unfold i. lia. }
      rewrite Es, nth_overflow by exact Hge. exact Hinf. }
  generalize dependent (nth (Z.to_nat (Qfloor h + 1)) s (nth i s 0)).
  generalize dependent (nth i s 0). generalize dependent (inject_Z (Z.of_nat i)).
  intros. split; nra.
Qed.

Lemma posicion_en_rango (n : nat) (q : Q) :
  0 <= q -> q <= 1 ->
  0 <= inject_Z (Z.of_nat n) * q /\ inject_Z (Z.of_nat n) * q <= inject_Z (Z.of_nat n).
Proof.
  intros H0 H1.
  assert (Hn : 0 <= inject_Z (Z.of_nat n)).
  { change 0 with (inject_Z 0). rewrite <- Zle_Qle. lia. }
  generalize dependent (inject_Z (Z.of_nat n)). intros. split; nra.
Qed.

Lemma quantile_None (vs : list (option Q)) (q : Q) :
  quantile vs q = None <-> no_nulos vs = [].
Proof.
  assert (Hperm := OrdenarQ.Permuted_sort (no_nulos vs)).
  rewrite quantile_interpolar.
  destruct (OrdenarQ.sort (no_nulos vs)) as [| x s] eqn:E.
  - split; [intros _ | reflexivity].
    apply Permutation_sym, Permutation_nil in Hperm. exact Hperm.
  - split; [discriminate |]. intro Hn. rewrite Hn in Hperm.
    apply Permutation_nil in Hperm. discriminate.
Qed.

Lemma quantile_creciente (vs : list (option Q)) (q1 q2 r1 r2 : Q) :
  0 <= q1 -> q1 <= q2 -> q2 <= 1 ->
  quantile vs q1 = Some r1 -> quantile vs q2 = Some r2 -> r1 <= r2.
Proof.
  assert (Hs := sort_ordenado (no_nulos vs)).
  intros H0 H12 H1. rewrite !quantile_interpolar.
  destruct (OrdenarQ.sort (no_nulos vs)) as [| x s] eqn:E; [discriminate |].
  intros [= <-] [= <-].
  destruct (posicion_en_rango (List.length (x :: s) - 1) q1) as [A1 B1]; [lra | lra |].
  destruct (posicion_en_rango (List.length (x :: s) - 1) q2) as [A2 B2]; [lra | lra |].
  apply interpolar_monotono; try assumption; [discriminate |].
  assert (Hn : 0 <= inject_Z (Z.of_nat (List.length (x :: s) - 1))).
  { change 0 with (inject_Z 0). rewrite <- Zle_Qle. lia. }
  rewrite !(Qmult_comm (inject_Z _)). apply Qmult_le_compat_r; [exact H12 | exact Hn].
Qed.

Lemma quantile_en_rango (vs : list (option Q)) (q r lo hi : Q) :
  0 <= q -> q <= 1 ->
  (forall x, In (Some x) vs -> lo <= x <= hi) ->
  quantile vs q = Some r -> lo <= r <= hi.
Proof.
  assert (Hperm := OrdenarQ.Permuted_sort (no_nulos vs)).
  assert (Hs := sort_ordenado (no_nulos vs)).
  intros H0 H1 Hr. rewrite quantile_interpolar.
  destruct (OrdenarQ.sort (no_nulos vs)) as [| x s] eqn:E; [discriminate |].
  intros [= <-].
  destruct (posicion_en_rango (List.length (x :: s) - 1) q H0 H1) as [A B].
  apply interpolar_rango; try assumption; [discriminate |].
  intros y Hy. apply Hr, no_nulos_In.
  eapply Permutation_in; [apply Permutation_sym, Hperm | exact Hy].
Qed.

Lemma cuartiles_en_orden (vs : list (option Q)) (Q1 Q3 : Q) :
  quantile vs (1 # 4) = Some Q1 -> quantile vs (3 # 4) = Some Q3 -> Q1 <= Q3.
Proof.
  intros E1 E3.
  apply (quantile_creciente vs (1 # 4) (3 # 4)); [lra | lra | lra | exact E1 | exact E3].
Qed.

(** X14.  [quantile] answers NaN exactly on a Series without values.  On
    the same Series it is increasing in the level between 0 and 1 and it
    stays within any bounds of the values; so the first quartile is never
    above the third, the interquartile range of stage 7 is never negative
    and the clipping interval always contains both quartiles. *)
Theorem cuartiles_ordenados :
  forall vs : list (option Q),
    (forall q, quantile vs q = None <-> no_nulos vs = []) /\
    (forall q1 q2 r1 r2,
        0 <= q1 -> q1 <= q2 -> q2 <= 1 ->
        quantile vs q1 = Some r1 -> quantile vs q2 = Some r2 -> r1 <= r2) /\
    (forall q r lo hi,
        0 <= q -> q <= 1 ->
        (forall x, In (Some x) vs -> lo <= x <= hi) ->
        quantile vs q = Some r -> lo <= r <= hi) /\
    (forall Q1 Q3,
        quantile vs (1 # 4) = Some Q1 -> quantile vs (3 # 4) = Some Q3 ->
        let IQR := Q3 - Q1 in
        0 <= IQR /\ Q1 - (3 # 2) * IQR <= Q1 /\ Q3 <= Q3 + (3 # 2) * IQR).
Proof.
  intro vs.
  split; [exact (quantile_None vs) |].
  split; [exact (quantile_creciente vs) |].
  split; [exact (quantile_en_rango vs) |].
  intros Q1 Q3 E1 E3 IQR.
  assert (H := cuartiles_en_orden vs Q1 Q3 E1 E3).
  unfold IQR. repeat split; lra.
Qed.

Lemma cuartiles_ordenados_witness :
  exists Q1 Q3,
    quantile [Some 1; Some 2; Some 3; Some 4; Some 5; Some 1000] (1 # 4) = Some Q1 /\
    quantile [Some 1; Some 2; Some 3; Some 4; Some 5; Some 1000] (3 # 4) = Some Q3 /\
    Q1 <= Q3.
Proof.
  eexists. eexists. split; [reflexivity |]. split; [reflexivity |].
  refine (proj1 (proj2 (cuartiles_ordenados
                          [Some 1; Some 2; Some 3; Some 4; Some 5; Some 1000]))
            (1 # 4) (3 # 4) _ _ _ _ _ _ _).
  - lra.
  - lra.
  - lra.
  - reflexivity.
  - reflexivity.
Defined.


(** ** More on stage 7 *)

Lemma tratar_columna_esquema (estado : Dataset * dict) (n : string) :
  mismo_esquema (fst estado) (fst (tratar_columna estado n)).
Proof.
  destruct estado as [datos registro]. unfold tratar_columna. cbn [fst].
  destruct (serie datos n) as [[vs | vs] |] eqn:Hs;
    try apply (relacion_refl _ misma_forma_refl).
  destruct (quantile vs (1 # 4)) as [Q1 |]; [| apply (relacion_refl _ misma_forma_refl)].
  destruct (quantile vs (3 # 4)) as [Q3 |]; [| apply (relacion_refl _ misma_forma_refl)].
  destruct (Qlt_bool 0 (Q3 - Q1)); [| apply (relacion_refl _ misma_forma_refl)].
  destruct (0 <? contar_outliers _ _ vs)%nat; [| apply (relacion_refl _ misma_forma_refl)].
  cbn [fst]. apply (asignar_relacion _ misma_forma_refl _ n (Numerica vs) _ Hs).
  split; [reflexivity |]. unfold clip. simpl. now rewrite length_map.
Qed.

Lemma tratar_columnas_esquema (l : list string) (estado : Dataset * dict) :
  mismo_esquema (fst estado) (fst (fold_left tratar_columna l estado)).
Proof.
  revert estado. induction l as [| m l IH]; intro estado; simpl.
  - apply (relacion_refl _ misma_forma_refl).
  - eapply (relacion_trans _ misma_forma_trans); [apply tratar_columna_esquema | apply IH].
Qed.

(** The whole loop, seen from any label. *)
Lemma tratar_outliers_serie (datos : Dataset) (n : string) :
  serie (fst (tratar_outliers datos)) n
  = if en_lista n columnas_clave
    then option_map efecto_recortar (serie datos n)
    else serie datos n.
Proof.
  destruct (en_lista n columnas_clave) eqn:Hc.
  - apply en_lista_In in Hc.
    destruct (in_dec string_dec n (etiquetas datos)) as [Hin | Hnin].
    + destruct (columnas_existentes_particion datos n Hc Hin) as (l1 & l2 & E & H1 & H2).
      unfold tratar_outliers. rewrite E.
      exact (recorrido_una_vez _ fst tratar_columna efecto_recortar
               tratar_columna_otro tratar_columna_mismo l1 l2 (datos, []) n H1 H2).
    + assert (Hs : serie datos n = None).
      { destruct (serie datos n) as [c |] eqn:Hs; [| reflexivity].
        exfalso. apply Hnin. apply in_map_iff. exists (n, c).
        split; [reflexivity | now apply serie_In]. }
      rewrite Hs. unfold tratar_outliers.
      exact (recorrido_None _ fst tratar_columna efecto_recortar
               tratar_columna_otro tratar_columna_mismo _ (datos, []) n Hs).
  - apply en_lista_false in Hc. now apply tratar_outliers_otro.
Qed.




(** X15.  Stage 7 keeps the shape of the table: the labels, their order,
    the kind and the number of rows of every column.  It leaves every text
    column and every column outside its allowlist exactly as it was. *)
Theorem outliers_conserva_esquema :
  forall datos : Dataset,
    let resultado := tratar_outliers datos in
    mismo_esquema datos (fst resultado) /\
    etiquetas (fst resultado) = etiquetas datos /\
    (forall n c,
        serie datos n = Some c ->
        es_categorica c = true \/ ~ In n columnas_clave ->
        serie (fst resultado) n = Some c).
Proof.
  intros datos resultado.
  assert (H : mismo_esquema datos (fst resultado)).
  { apply (tratar_columnas_esquema (columnas_existentes datos) (datos, [])). }
  split; [exact H |]. split; [exact (relacion_etiquetas misma_forma _ _ H) |].
  intros n c Hs Hcaso. unfold resultado. rewrite tratar_outliers_serie, Hs.
  destruct Hcaso as [Hc | Hex].
  - destruct c as [vs | vs]; [discriminate |].
    destruct (en_lista n columnas_clave); reflexivity.
  - apply en_lista_false in Hex. now rewrite Hex.
Qed.

Lemma outliers_conserva_esquema_witness :
  serie (fst (tratar_outliers Ejemplos.jugadores)) "id"
  = Some (Numerica [Some 1; Some 2; Some 3; Some 4]).
Proof.
  refine (proj2 (proj2 (outliers_conserva_esquema Ejemplos.jugadores)) "id" _ _ _).
  - reflexivity.
  - right. simpl. intuition discriminate.
Defined.





(** ** Stage 8 and the whole run *)

Lemma solo_imprime_refl (w : Mundo) : solo_imprime w w.
Proof.
  repeat split. exists []. now rewrite app_nil_r.
Qed.

Lemma solo_imprime_print (w w' : Mundo) (linea : string) :
  solo_imprime w w' -> solo_imprime w (print linea w').
Proof.
  intros (H1 & H2 & H3 & l & H4). unfold solo_imprime, print. cbn.
  repeat split; try assumption.
  exists (l ++ [linea]). now rewrite H4, app_assoc.
Qed.

Section Artefactos.

Variable merge : Dataset -> Dataset -> Resultado Dataset.
Variable crear_variables_derivadas : Dataset -> Resultado Dataset.

Let ejecutar := limpiar_datos_fifa merge crear_variables_derivadas.
Let etapas := transformar merge crear_variables_derivadas.

Lemma transformar_solo_imprime (datos players_info : Dataset) (w : Mundo) :
  solo_imprime w (fst (etapas datos players_info w)).
Proof.
  unfold etapas, transformar.
  destruct (merge datos players_info) as [d2 | e]; cbn [fst].
  2:{ repeat apply solo_imprime_print. apply solo_imprime_refl. }
  destruct (imputar (inferir_posiciones d2)) as [d3 | e]; cbn [fst].
  2:{ repeat apply solo_imprime_print. apply solo_imprime_refl. }
  destruct (crear_variables_derivadas d3) as [d4 | e]; cbn [fst].
  2:{ repeat apply solo_imprime_print. apply solo_imprime_refl. }
  destruct (codificar d4) as [d5 | e]; cbn [fst];
    repeat apply solo_imprime_print; apply solo_imprime_refl.
Qed.

Lemma transformar_propaga_merge (datos players_info : Dataset) (w : Mundo) (e : string) :
  merge datos players_info = Excepcion e ->
  snd (etapas datos players_info w) = Excepcion e.
Proof.
  intro H. unfold etapas, transformar. now rewrite H.
Qed.

(** X17.  What a run leaves on disk.  A dataset is returned only when the
    disk accepted the directory and both writes, and then the output table
    and the CSV file both hold exactly the dataset returned and the output
    directory exists.  A run that ends in an exception has only printed:
    directory, table and CSV file are as before; so ends a run whose join
    raises, and a run whose output directory cannot be made.  A run that
    returns nothing leaves the CSV file as it was unless it is the CSV
    write that failed.  After the stages succeeded, a failed write of the
    table leaves in it what the failure left and the CSV file untouched,
    and a failed write of the CSV file returns nothing although the output
    table has already been replaced.  No run erases a line already
    printed. *)
Theorem artefactos_de_la_ejecucion :
  forall (a : Almacen) (disco : Disco) (w : Mundo),
    let fin := ejecutar a disco w in
    (forall d,
        snd fin = Ok (Some d) ->
        disco = DiscoOk /\
        tabla_salida (fst fin) = Some d /\ csv_salida (fst fin) = Some d /\
        directorio_salida (fst fin) = true) /\
    (forall e, snd fin = Excepcion e -> solo_imprime w (fst fin)) /\
    (forall datos players_info e,
        cargar a = Ok (datos, players_info) ->
        merge datos players_info = Excepcion e ->
        snd fin = Excepcion e) /\
    (snd fin = Ok None ->
     (forall e resto, disco <> FallaCsv e resto) ->
     csv_salida (fst fin) = csv_salida w) /\
    (forall datos players_info w' d registro,
        cargar a = Ok (datos, players_info) ->
        etapas datos players_info
          (print "1. Cargando datos..." (print "Limpieza de datos FIFA" w))
        = (w', Ok (d, registro)) ->
        match disco with
        | DiscoOk => snd fin = Ok (Some d)
        | FallaMkdir e => snd fin = Excepcion e
        | FallaSqlite e resto =>
            snd fin = Ok None /\
            tabla_salida (fst fin) = resto /\
            csv_salida (fst fin) = csv_salida w
        | FallaCsv e resto =>
            snd fin = Ok None /\
            tabla_salida (fst fin) = Some d /\
            csv_salida (fst fin) = resto
        end) /\
    (exists lineas, consola (fst fin) = consola w ++ lineas).
Proof.
  intros a disco w fin. unfold fin, ejecutar, limpiar_datos_fifa.
  destruct (cargar a) as [[datos players_info] | e0] eqn:Hc.
  2:{ cbn [fst snd]. split; [discriminate |]. split; [discriminate |].
      split; [intros; discriminate |]. split; [reflexivity |].
      split; [intros; discriminate |].
      destruct (solo_imprime_print w _ ("   Error al cargar datos: " ++ e0)
                  (solo_imprime_print w _ "1. Cargando datos..."
                     (solo_imprime_print w _ "Limpieza de datos FIFA" (solo_imprime_refl w))))
        as (_ & _ & _ & H). exact H. }
  assert (Ht := transformar_solo_imprime datos players_info
                  (print "1. Cargando datos..." (print "Limpieza de datos FIFA" w))).
  assert (Hm := fun e => transformar_propaga_merge datos players_info
                  (print "1. Cargando datos..." (print "Limpieza de datos FIFA" w)) e).
  unfold etapas in *.
  destruct (transformar merge crear_variables_derivadas datos players_info
              (print "1. Cargando datos..." (print "Limpieza de datos FIFA" w)))
    as [w1 [[d registro] | e1]] eqn:Et; cbn [fst snd] in Ht, Hm.
  2:{ cbn [fst snd]. split; [discriminate |].
      destruct Ht as (H1 & H2 & H3 & l & H4). cbn in H1, H2, H3, H4.
      split.
      { intros e' _. repeat split; try assumption.
        exists (["Limpieza de datos FIFA"; "1. Cargando datos..."] ++ l).
        rewrite H4, <- !app_assoc. reflexivity. }
      split.
      { intros datos0 pi0 e' Hc' Hm'. injection Hc' as <- <-.
        specialize (Hm e' Hm'). now injection Hm as ->. }
      split; [discriminate |].
      split.
      { intros datos0 pi0 w' d0 registro0 Hc' Ht'.
        injection Hc' as <- <-. rewrite Et in Ht'. discriminate Ht'. }
      exists (["Limpieza de datos FIFA"; "1. Cargando datos..."] ++ l).
      rewrite H4, <- !app_assoc. reflexivity. }
  destruct Ht as (H1 & H2 & H3 & l & H4). cbn in H1, H2, H3, H4.
  assert (Hm' : forall datos0 pi0 e,
             Ok (datos, players_info) = Ok (datos0, pi0) ->
             merge datos0 pi0 = Excepcion e -> False).
  { intros datos0 pi0 e Hc' Hme. injection Hc' as <- <-.
    specialize (Hm e Hme). discriminate Hm. }
  assert (Hd : forall datos0 pi0 w' d0 (registro0 : dict),
             Ok (datos, players_info) = Ok (datos0, pi0) ->
             transformar merge crear_variables_derivadas datos0 pi0
               (print "1. Cargando datos..." (print "Limpieza de datos FIFA" w))
             = (w', Ok (d0, registro0)) -> d0 = d).
  { intros datos0 pi0 w' d0 registro0 Hc' Ht'.
    injection Hc' as <- <-. rewrite Et in Ht'. now injection Ht' as _ <- _. }
  destruct disco as [| e | e resto | e resto]; cbn.
  - split.
    { intros d0 [= <-]. repeat split. }
    split; [discriminate |].
    split; [intros datos0 pi0 e Hc' Hme; destruct (Hm' _ _ _ Hc' Hme) |].
    split; [discriminate |].
    split.
    { intros datos0 pi0 w' d0 registro0 Hc' Ht'.
      now rewrite (Hd _ _ _ _ _ Hc' Ht'). }
    exists (["Limpieza de datos FIFA"; "1. Cargando datos..."] ++ l
            ++ ["8. Guardando resultados..."; "Limpieza completada"]).
    rewrite H4, <- !app_assoc. reflexivity.
  - split; [discriminate |].
    split.
    { intros e' _. unfold solo_imprime. cbn. repeat split; try assumption.
      exists (["Limpieza de datos FIFA"; "1. Cargando datos..."] ++ l
              ++ ["8. Guardando resultados..."]).
      rewrite H4, <- !app_assoc. reflexivity. }
    split; [intros datos0 pi0 e' Hc' Hme; destruct (Hm' _ _ _ Hc' Hme) |].
    split; [discriminate |].
    split; [reflexivity |].
    exists (["Limpieza de datos FIFA"; "1. Cargando datos..."] ++ l
            ++ ["8. Guardando resultados..."]).
    rewrite H4, <- !app_assoc. reflexivity.
  - split; [discriminate |]. split; [discriminate |].
    split; [intros datos0 pi0 e' Hc' Hme; destruct (Hm' _ _ _ Hc' Hme) |].
    split; [intros _ _; exact H3 |].
    split; [intros; repeat split; exact H3 |].
    exists (["Limpieza de datos FIFA"; "1. Cargando datos..."] ++ l
            ++ ["8. Guardando resultados..."; ("   Error al guardar: " ++ e)%string]).
    rewrite H4, <- !app_assoc. reflexivity.
  - split; [discriminate |]. split; [discriminate |].
    split; [intros datos0 pi0 e' Hc' Hme; destruct (Hm' _ _ _ Hc' Hme) |].
    split; [intros _ H; destruct (H e resto eq_refl) |].
    split.
    { intros datos0 pi0 w' d0 registro0 Hc' Ht'.
      rewrite (Hd _ _ _ _ _ Hc' Ht'). repeat split. }
    exists (["Limpieza de datos FIFA"; "1. Cargando datos..."] ++ l
            ++ ["8. Guardando resultados..."; ("   Error al guardar: " ++ e)%string]).
    rewrite H4, <- !app_assoc. reflexivity.
Qed.

End Artefactos.

(** A run the join ends: the attributes table has no [player_api_id], the
    join raises the KeyError and the run has only printed. *)
Lemma artefactos_de_la_ejecucion_witness :
  snd (limpiar_datos_fifa (fun _ _ => Excepcion "'player_api_id'") (fun datos => Ok datos)
         (Some [("Player_Attributes", Ejemplos.jugadores);
                ("Player", [("player_api_id", Numerica [Some 1]);
                            ("player_name", Categorica [Some "Lionel Messi"]);
                            ("birthday", Categorica [Some "1987-06-24 00:00:00"])])])
         DiscoOk
         {| consola := []; directorio_salida := false;
            tabla_salida := None; csv_salida := None |})
  = Excepcion "'player_api_id'" /\
  solo_imprime
    {| consola := []; directorio_salida := false;
       tabla_salida := None; csv_salida := None |}
    (fst (limpiar_datos_fifa (fun _ _ => Excepcion "'player_api_id'") (fun datos => Ok datos)
            (Some [("Player_Attributes", Ejemplos.jugadores);
                   ("Player", [("player_api_id", Numerica [Some 1]);
                               ("player_name", Categorica [Some "Lionel Messi"]);
                               ("birthday", Categorica [Some "1987-06-24 00:00:00"])])])
            DiscoOk
            {| consola := []; directorio_salida := false;
               tabla_salida := None; csv_salida := None |})).
Proof.
  split; [vm_compute; reflexivity |].
  refine (proj1 (proj2 (artefactos_de_la_ejecucion
            (fun _ _ => Excepcion "'player_api_id'") (fun datos => Ok datos) _ DiscoOk _))
            "'player_api_id'" _).
  vm_compute. reflexivity.
Defined.


(** ** Stage 4: the three scores *)

Lemma serie_etiquetas (d : Dataset) (n : string) (c : columna) :
  serie d n = Some c -> In n (etiquetas d).
Proof.
  intro H. apply in_map_iff. exists (n, c). split; [reflexivity | now apply serie_In].
Qed.

Lemma serie_ausente (d : Dataset) (n : string) :
  ~ In n (etiquetas d) -> serie d n = None.
Proof.
  intro H. destruct (serie d n) as [c |] eqn:E; [| reflexivity].
  exfalso. apply H. now apply (serie_etiquetas d n c).
Qed.

Lemma valores_fila_ext (d d0 : Dataset) (attrs : list string) (i : nat) :
  (forall a, In a attrs -> serie d a = serie d0 a) ->
  valores_fila d attrs i = valores_fila d0 attrs i.
Proof.
  induction attrs as [| a attrs IH]; intro H; [reflexivity |].
  unfold valores_fila in *. cbn [flat_map].
  rewrite (H a (or_introl eq_refl)). f_equal. apply IH.
  intros b Hb. apply H. now right.
Qed.

Lemma valores_fila_In (d : Dataset) (attrs : list string) (i : nat) (x : Q) :
  In x (valores_fila d attrs i) ->
  exists a vs, In a attrs /\ serie d a = Some (Numerica vs) /\ nth i vs None = Some x.
Proof.
  unfold valores_fila. intro H. apply in_flat_map in H. destruct H as (a & Ha & Hx).
  destruct (serie d a) as [[vs | vs] |] eqn:Hs; try contradiction.
  destruct (nth i vs None) as [y |] eqn:Hn; [| contradiction].
  destruct Hx as [<- | []]. now exists a, vs.
Qed.

(** What the reduction reads from the selection, when the labels are
    distinct and no attribute is a text column. *)
Lemma seleccion_valores (d : Dataset) (attrs : list string) :
  NoDup (etiquetas d) ->
  (forall a vs, In a attrs -> serie d a <> Some (Categorica vs)) ->
  exists vss,
    valores (seleccionar (filter (fun attr => en_lista attr (etiquetas d)) attrs) d)
    = Ok vss /\
    forall i, no_nulos (map (fun vs => nth i vs None) vss) = valores_fila d attrs i.
Proof.
  intros Hnd. induction attrs as [| a attrs IH]; intro Hnum.
  - exists []. split; reflexivity.
  - destruct IH as (vss & Hv & Hf); [intros b vs Hb; apply Hnum; now right |].
    cbn [filter]. destruct (en_lista a (etiquetas d)) eqn:Ea.
    + apply en_lista_In in Ea.
      destruct (serie_etiqueta d a Hnd Ea) as (c & Hs).
      destruct c as [vs | vs]; [| exfalso; exact (Hnum a vs (or_introl eq_refl) Hs)].
      exists (vs :: vss). split.
      * unfold seleccionar in *. cbn [flat_map].
        assert (Hfil : exists m, filter (fun nc => String.eqb (fst nc) a) d = [(m, Numerica vs)]).
        { unfold serie in Hs.
          destruct (filter (fun nc => String.eqb (fst nc) a) d) as [| [m c] [| nc2 l]];
            try discriminate.
          injection Hs as Hs. simpl in Hs. subst c. now exists m. }
        destruct Hfil as (m & ->). cbn [app valores]. rewrite Hv. reflexivity.
      * intro i. unfold valores_fila. cbn [map flat_map]. rewrite Hs.
        fold (valores_fila d attrs i). rewrite <- Hf.
        unfold no_nulos. cbn [flat_map]. reflexivity.
    + apply en_lista_false in Ea. exists vss. split; [exact Hv |].
      intro i. unfold valores_fila. cbn [flat_map]. rewrite (serie_ausente d a Ea).
      cbn [app]. apply Hf.
Qed.

Lemma asignar_NoDup (n : string) (c : columna) (d : Dataset) :
  NoDup (etiquetas d) -> NoDup (etiquetas (asignar n c d)).
Proof.
  intro Hnd. destruct (in_dec string_dec n (etiquetas d)) as [H | H].
  - now rewrite (etiquetas_asignar n c d H).
  - rewrite (asignar_ausente n c d H). unfold etiquetas. rewrite map_app.
    cbn [map fst]. apply NoDup_app.
    + exact Hnd.
    + constructor; [simpl; tauto | constructor].
    + intros x Hx [<- | []]. exact (H Hx).
Qed.

Lemma asignar_serie_NoDup (n : string) (c : columna) (d : Dataset) :
  NoDup (etiquetas d) -> serie (asignar n c d) n = Some c.
Proof.
  intro Hnd. destruct (in_dec string_dec n (etiquetas d)) as [H | H].
  - destruct (serie_etiqueta d n Hnd H) as (c' & Hc').
    exact (serie_asignar_mismo n c d c' Hc').
  - apply serie_NoDup; [now apply asignar_NoDup |].
    rewrite (asignar_ausente n c d H). apply in_or_app. right. now left.
Qed.

Lemma asignar_n_filas (n : string) (c : columna) (d : Dataset) :
  d <> [] -> longitud c = n_filas d -> n_filas (asignar n c d) = n_filas d.
Proof.
  intros Hne Hlen. destruct d as [| [m c'] d]; [congruence |].
  unfold asignar. destruct (existsb _ _); cbn [map app n_filas fst].
  - destruct (String.eqb m n); cbn [n_filas]; [exact Hlen | reflexivity].
  - reflexivity.
Qed.

Lemma asignar_etiquetas_casos (n : string) (c : columna) (d : Dataset) :
  etiquetas (asignar n c d) = etiquetas d \/
  (~ In n (etiquetas d) /\ etiquetas (asignar n c d) = etiquetas d ++ [n]).
Proof.
  destruct (in_dec string_dec n (etiquetas d)) as [H | H].
  - left. exact (etiquetas_asignar n c d H).
  - right. split; [exact H |]. rewrite (asignar_ausente n c d H).
    unfold etiquetas. now rewrite map_app.
Qed.

(** One block, whatever the table. *)
Lemma crear_score_forma (nombre : string) (attrs : list string) (d d' : Dataset) :
  crear_score nombre attrs d = Ok d' ->
  (forall n, n <> nombre -> serie d' n = serie d n) /\
  (etiquetas d' = etiquetas d \/
   (~ In nombre (etiquetas d) /\ etiquetas d' = etiquetas d ++ [nombre])) /\
  ((forall a, In a attrs -> ~ In a (etiquetas d)) -> d' = d).
Proof.
  unfold crear_score.
  destruct (filter (fun attr => en_lista attr (etiquetas d)) attrs) as [| a pres] eqn:Ef.
  - intros [= <-]. repeat split; auto.
  - destruct (mean_axis1 (n_filas d) (seleccionar (a :: pres) d)) as [s | e];
      [| discriminate].
    cbn [bind]. intros [= <-]. split; [| split].
    + intros n Hne. now apply serie_asignar_otro.
    + apply asignar_etiquetas_casos.
    + intro Hno. exfalso.
      assert (Ha : In a (filter (fun attr => en_lista attr (etiquetas d)) attrs))
        by (rewrite Ef; now left).
      apply filter_In in Ha. destruct Ha as [Ha1 Ha2]. apply en_lista_In in Ha2.
      exact (Hno a Ha1 Ha2).
Qed.

(** One block, on a table with distinct labels whose attributes are
    numbers. *)
Lemma crear_score_paso (nombre : string) (attrs : list string) (d : Dataset) :
  NoDup (etiquetas d) ->
  (forall a vs, In a attrs -> serie d a <> Some (Categorica vs)) ->
  exists d',
    crear_score nombre attrs d = Ok d' /\
    NoDup (etiquetas d') /\
    n_filas d' = n_filas d /\
    ((exists a, In a attrs /\ In a (etiquetas d)) ->
     serie d' nombre
     = Some (Numerica (map (media_de_presentes d attrs) (seq 0 (n_filas d))))).
Proof.
  intros Hnd Hnum.
  destruct (seleccion_valores d attrs Hnd Hnum) as (vss & Hv & Hf).
  unfold crear_score.
  destruct (filter (fun attr => en_lista attr (etiquetas d)) attrs) as [| a pres] eqn:Ef.
  - exists d. split; [reflexivity |]. split; [exact Hnd |]. split; [reflexivity |].
    intros (a & Ha & Hin). exfalso.
    assert (H : In a (filter (fun attr => en_lista attr (etiquetas d)) attrs)).
    { apply filter_In. split; [exact Ha | now apply en_lista_In]. }
    rewrite Ef in H. exact H.
  - unfold mean_axis1. rewrite Hv. cbn [bind].
    assert (Hs : map (media_fila vss) (seq 0 (n_filas d))
                 = map (media_de_presentes d attrs) (seq 0 (n_filas d))).
    { apply map_ext. intro i. unfold media_fila, media_de_presentes. now rewrite Hf. }
    rewrite Hs. eexists. split; [reflexivity |].
    split; [now apply asignar_NoDup |]. split.
    + apply asignar_n_filas.
      * assert (Ha : In a (filter (fun attr => en_lista attr (etiquetas d)) attrs))
          by (rewrite Ef; now left).
        apply filter_In in Ha. destruct Ha as [_ Ha]. apply en_lista_In in Ha.
        destruct d; [contradiction | discriminate].
      * simpl. now rewrite length_map, length_seq.
    + intros _. now apply asignar_serie_NoDup.
Qed.

Lemma atributo_no_es_puntaje (nombre : string) (attrs : list string) (a : string) :
  In (nombre, attrs) puntajes -> In a attrs ->
  a <> "score_fisico" /\ a <> "score_tecnico" /\ a <> "score_mental".
Proof.
  unfold puntajes, atributos_fisicos, atributos_tecnicos, atributos_mentales.
  intros H Ha. simpl in H.
  destruct H as [H | [H | [H | []]]]; injection H as <- <-; simpl in Ha;
    repeat (destruct Ha as [<- | Ha]; [repeat split; discriminate |]);
    contradiction.
Qed.

(** X18.  When the three score blocks of stage 4 go through, every column
    with another label is as before; the labels of the table are kept in
    their order, followed by the labels of the scores that were created and
    were not labels before; and a table holding none of the ten attributes
    is returned unchanged: a score without any attribute is not created. *)
Theorem puntajes_conservan_la_tabla :
  forall datos datos' : Dataset,
    crear_scores datos = Ok datos' ->
    (forall n,
        ~ In n ["score_fisico"; "score_tecnico"; "score_mental"] ->
        serie datos' n = serie datos n) /\
    (exists nuevas,
        etiquetas datos' = etiquetas datos ++ nuevas /\
        forall n, In n nuevas ->
                  In n ["score_fisico"; "score_tecnico"; "score_mental"] /\
                  ~ In n (etiquetas datos)) /\
    ((forall nombre attrs a,
         In (nombre, attrs) puntajes -> In a attrs -> ~ In a (etiquetas datos)) ->
     datos' = datos).
Proof.
  intros datos datos'. unfold crear_scores.
  destruct (crear_score "score_fisico" atributos_fisicos datos) as [d1 |] eqn:E1;
    [| discriminate].
  cbn [bind].
  destruct (crear_score "score_tecnico" atributos_tecnicos d1) as [d2 |] eqn:E2;
    [| discriminate].
  cbn [bind]. intro E3.
  destruct (crear_score_forma _ _ _ _ E1) as (A1 & B1 & C1).
  destruct (crear_score_forma _ _ _ _ E2) as (A2 & B2 & C2).
  destruct (crear_score_forma _ _ _ _ E3) as (A3 & B3 & C3).
  split; [| split].
  - intros n Hn. simpl in Hn.
    rewrite A3, A2, A1; [reflexivity | | |]; intros ->; apply Hn; tauto.
  - assert (H1 : exists n1, etiquetas d1 = etiquetas datos ++ n1 /\
                 forall n, In n n1 -> n = "score_fisico" /\ ~ In n (etiquetas datos)).
    { destruct B1 as [-> | [Hn ->]].
      - exists []. split; [now rewrite app_nil_r | intros n []].
      - exists ["score_fisico"]. split; [reflexivity |]. intros n [<- | []]. tauto. }
    destruct H1 as (n1 & L1 & N1).
    assert (H2 : exists n2, etiquetas d2 = etiquetas d1 ++ n2 /\
                 forall n, In n n2 -> n = "score_tecnico" /\ ~ In n (etiquetas d1)).
    { destruct B2 as [-> | [Hn ->]].
      - exists []. split; [now rewrite app_nil_r | intros n []].
      - exists ["score_tecnico"]. split; [reflexivity |]. intros n [<- | []]. tauto. }
    destruct H2 as (n2 & L2 & N2).
    assert (H3 : exists n3, etiquetas datos' = etiquetas d2 ++ n3 /\
                 forall n, In n n3 -> n = "score_mental" /\ ~ In n (etiquetas d2)).
    { destruct B3 as [-> | [Hn ->]].
      - exists []. split; [now rewrite app_nil_r | intros n []].
      - exists ["score_mental"]. split; [reflexivity |]. intros n [<- | []]. tauto. }
    destruct H3 as (n3 & L3 & N3).
    exists (n1 ++ n2 ++ n3). split.
    + rewrite L3, L2, L1, <- !app_assoc. reflexivity.
    + intros n Hn. apply in_app_or in Hn. destruct Hn as [Hn | Hn].
      * destruct (N1 n Hn) as [-> Hno]. simpl. tauto.
      * apply in_app_or in Hn. destruct Hn as [Hn | Hn].
        -- destruct (N2 n Hn) as [-> Hno]. split; [simpl; tauto |].
           intro H. apply Hno. rewrite L1. apply in_or_app. now left.
        -- destruct (N3 n Hn) as [-> Hno]. split; [simpl; tauto |].
           intro H. apply Hno. rewrite L2, L1. apply in_or_app. left.
           apply in_or_app. now left.
  - intro Hno.
    assert (D1 : d1 = datos).
    { apply C1. intros a Ha. apply (Hno "score_fisico" atributos_fisicos a); simpl; tauto. }
    subst d1.
    assert (D2 : d2 = datos).
    { apply C2. intros a Ha. apply (Hno "score_tecnico" atributos_tecnicos a); simpl; tauto. }
    subst d2.
    apply C3. intros a Ha. apply (Hno "score_mental" atributos_mentales a); simpl; tauto.
Qed.

Lemma puntajes_conservan_la_tabla_witness :
  exists datos',
    crear_scores Ejemplos.jugadores = Ok datos' /\
    serie datos' "finishing" = serie Ejemplos.jugadores "finishing".
Proof.
  eexists. split; [vm_compute; reflexivity |].
  refine (proj1 (puntajes_conservan_la_tabla Ejemplos.jugadores _ _) "finishing" _).
  - vm_compute. reflexivity.
  - simpl. intuition discriminate.
Defined.

Lemma media_de_presentes_ext (d d0 : Dataset) (attrs : list string) (i : nat) :
  (forall a, In a attrs -> serie d a = serie d0 a) ->
  media_de_presentes d attrs i = media_de_presentes d0 attrs i.
Proof.
  intro H. unfold media_de_presentes. now rewrite (valores_fila_ext d d0 attrs i H).
Qed.

Lemma nth_map_seq {A} (f : nat -> A) (filas i : nat) (x : A) :
  (i < filas)%nat -> nth i (map f (seq 0 filas)) x = f i.
Proof.
  intro H. rewrite (nth_indep _ x (f O)) by now rewrite length_map, length_seq.
  rewrite map_nth, seq_nth by exact H. reflexivity.
Qed.

Lemma etiquetas_crecen (n : string) (d d' : Dataset) (a : string) :
  etiquetas d' = etiquetas d \/ (~ In n (etiquetas d) /\ etiquetas d' = etiquetas d ++ [n]) ->
  In a (etiquetas d) -> In a (etiquetas d').
Proof.
  intros [-> | [_ ->]] H; [exact H | apply in_or_app; now left].
Qed.

(** X19.  On a table with distinct labels where none of the ten attributes
    is a text column, the three score blocks go through, keep the number
    of rows, and every score with at least one attribute in the table is a
    numeric column with one cell per row: the mean, as binary64 computes
    it, of the numbers the row holds for the attributes of that score,
    absent attributes and nulls skipped, a null when the row holds none.
    So no score depends on another or on the order of the blocks. *)
Theorem puntajes_son_medias :
  forall datos : Dataset,
    NoDup (etiquetas datos) ->
    (forall nombre attrs a vs,
        In (nombre, attrs) puntajes -> In a attrs ->
        serie datos a <> Some (Categorica vs)) ->
    exists datos',
      crear_scores datos = Ok datos' /\
      n_filas datos' = n_filas datos /\
      forall nombre attrs,
        In (nombre, attrs) puntajes ->
        (exists a, In a attrs /\ In a (etiquetas datos)) ->
        exists s,
          serie datos' nombre = Some (Numerica s) /\
          List.length s = n_filas datos /\
          forall i, (i < n_filas datos)%nat ->
            nth i s None = media_de_presentes datos attrs i.
Proof.
  intros datos Hnd Hnum.
  assert (Final : forall d nombre attrs,
             serie d nombre
             = Some (Numerica (map (media_de_presentes datos attrs) (seq 0 (n_filas datos)))) ->
             exists s,
               serie d nombre = Some (Numerica s) /\
               List.length s = n_filas datos /\
               forall i, (i < n_filas datos)%nat ->
                 nth i s None = media_de_presentes datos attrs i).
  { intros d nombre attrs Hs. eexists. split; [exact Hs |].
    split; [now rewrite length_map, length_seq |].
    intros i Hi. now rewrite (nth_map_seq _ _ i None Hi). }
  (* score_fisico *)
  destruct (crear_score_paso "score_fisico" atributos_fisicos datos Hnd) as (d1 & E1 & Hnd1 & F1 & S1).
  { intros a vs Ha. apply (Hnum "score_fisico" atributos_fisicos); [simpl; tauto | exact Ha]. }
  destruct (crear_score_forma _ _ _ _ E1) as (A1 & B1 & _).
  (* score_tecnico *)
  assert (T1 : forall a, In a atributos_tecnicos -> serie d1 a = serie datos a).
  { intros a Ha. apply A1.
    apply (atributo_no_es_puntaje "score_tecnico" atributos_tecnicos a); [simpl; tauto | exact Ha]. }
  destruct (crear_score_paso "score_tecnico" atributos_tecnicos d1 Hnd1) as (d2 & E2 & Hnd2 & F2 & S2).
  { intros a vs Ha. rewrite (T1 a Ha).
    apply (Hnum "score_tecnico" atributos_tecnicos); [simpl; tauto | exact Ha]. }
  destruct (crear_score_forma _ _ _ _ E2) as (A2 & B2 & _).
  (* score_mental *)
  assert (T2 : forall a, In a atributos_mentales -> serie d2 a = serie datos a).
  { intros a Ha.
    destruct (atributo_no_es_puntaje "score_mental" atributos_mentales a) as (N1 & N2 & _);
      [simpl; tauto | exact Ha |].
    now rewrite A2, A1. }
  destruct (crear_score_paso "score_mental" atributos_mentales d2 Hnd2) as (d3 & E3 & Hnd3 & F3 & S3).
  { intros a vs Ha. rewrite (T2 a Ha).
    apply (Hnum "score_mental" atributos_mentales); [simpl; tauto | exact Ha]. }
  destruct (crear_score_forma _ _ _ _ E3) as (A3 & B3 & _).
  exists d3. split; [| split].
  - unfold crear_scores. rewrite E1. cbn [bind]. rewrite E2. cbn [bind]. exact E3.
  - congruence.
  - intros nombre attrs Hp (a & Ha & Hin). apply Final.
    simpl in Hp. destruct Hp as [Hp | [Hp | [Hp | []]]]; injection Hp as <- <-.
    + rewrite A3, A2 by discriminate. apply S1. now exists a.
    + rewrite A3 by discriminate. rewrite S2.
      * rewrite F1. do 2 f_equal. apply map_ext. intro i.
        now apply media_de_presentes_ext.
      * exists a. split; [exact Ha |]. exact (etiquetas_crecen _ _ _ a B1 Hin).
    + rewrite S3.
      * rewrite F2, F1. do 2 f_equal. apply map_ext. intro i.
        now apply media_de_presentes_ext.
      * exists a. split; [exact Ha |].
        exact (etiquetas_crecen _ _ _ a B2 (etiquetas_crecen _ _ _ a B1 Hin)).
Qed.

Lemma puntajes_son_medias_witness :
  exists datos',
    crear_scores
      [("ball_control", Numerica [Some 80; None; Some 30]);
       ("dribbling", Numerica [Some 60; None; None]);
       ("stamina", Numerica [Some 50; Some 70; None])] = Ok datos' /\
    n_filas datos' = 3%nat /\
    exists s,
      serie datos' "score_tecnico" = Some (Numerica s) /\
      nth 0 s None
      = media_de_presentes
          [("ball_control", Numerica [Some 80; None; Some 30]);
           ("dribbling", Numerica [Some 60; None; None]);
           ("stamina", Numerica [Some 50; Some 70; None])] atributos_tecnicos 0.
Proof.
  destruct (puntajes_son_medias
              [("ball_control", Numerica [Some 80; None; Some 30]);
               ("dribbling", Numerica [Some 60; None; None]);
               ("stamina", Numerica [Some 50; Some 70; None])]) as (datos' & H & Hf & Hs).
  - simpl. repeat (constructor; [simpl; intuition discriminate |]). constructor.
  - intros nombre attrs a vs Hp Ha.
    simpl in Hp. destruct Hp as [Hp | [Hp | [Hp | []]]]; injection Hp as <- <-; simpl in Ha;
      repeat (destruct Ha as [<- | Ha]; [discriminate |]); contradiction.
  - exists datos'. split; [exact H |]. split; [exact Hf |].
    destruct (Hs "score_tecnico" atributos_tecnicos) as (s & Hs1 & _ & Hs3).
    + simpl. tauto.
    + exists "ball_control". simpl. tauto.
    + exists s. split; [exact Hs1 |]. apply (Hs3 O). simpl. lia.
Defined.


(** ** Stage 3: what a null is filled with *)

Lemma para_cada_app {S X} (paso : S -> X -> Resultado S) (l1 l2 : list X) (st : S) :
  para_cada paso (l1 ++ l2) st = bind (para_cada paso l1 st) (para_cada paso l2).
Proof.
  revert st. induction l1 as [| x l1 IH]; intro st; [reflexivity |].
  simpl. destruct (paso st x) as [st1 | e]; [apply IH | reflexivity].
Qed.

(** A loop whose iterations on other labels leave the Series of [n] alone
    leaves it alone when it does not visit [n]. *)
Lemma para_cada_fuera (paso : Dataset -> string -> Resultado Dataset) (n : string) :
  (forall d m d', paso d m = Ok d' -> m <> n -> serie d' n = serie d n) ->
  forall l d d', ~ In n l -> para_cada paso l d = Ok d' -> serie d' n = serie d n.
Proof.
  intros Hotro l. induction l as [| m l IH]; intros d d' Hn H.
  - injection H as <-. reflexivity.
  - simpl in H. destruct (paso d m) as [d1 |] eqn:E; [| discriminate].
    cbn [bind] in H. rewrite (IH d1 d'); [| simpl in Hn; tauto | exact H].
    apply (Hotro d m d1 E). simpl in Hn. intro Hm. apply Hn. now left.
Qed.


Lemma imputar_categorica_otro_paso (d : Dataset) (m : string) (d' : Dataset) (n : string) :
  imputar_categorica d m = Ok d' -> m <> n -> serie d' n = serie d n.
Proof.
  intros H Hne. apply (imputar_categorica_otro d d' m n H). congruence.
Qed.


(** The iteration of the second loop on a text Series that is not
    excluded. *)
Lemma imputar_categorica_valor (d d' : Dataset) (n : string) (vs : list (option string))
  (claves : list (option string)) :
  imputar_categorica d n = Ok d' ->
  ~ In n categoricas_excluidas ->
  serie d n = Some (Categorica vs) ->
  serie d "posicion_inferida" = Some (Categorica claves) ->
  serie d' n = Some (Categorica (relleno_categorico (celdas (Categorica claves)) vs)).
Proof.
  intros H Hex Hs Hk. unfold imputar_categorica in H.
  apply en_lista_false in Hex. rewrite Hex, Hs in H.
  unfold relleno_categorico.
  destruct (isnull_any vs); [| injection H as <-; exact Hs].
  unfold claves_posicion in H. rewrite Hk in H. cbn [bind] in H.
  injection H as <-. exact (serie_asignar_mismo n _ d _ Hs).
Qed.


(** The second loop, seen from one text Series. *)
Lemma imputar_categoricas_valor (datos datos' : Dataset) (n : string)
  (vs claves : list (option string)) :
  para_cada imputar_categorica (columnas_object datos) datos = Ok datos' ->
  ~ In n categoricas_excluidas ->
  serie datos n = Some (Categorica vs) ->
  serie datos "posicion_inferida" = Some (Categorica claves) ->
  serie datos' n = Some (Categorica (relleno_categorico (celdas (Categorica claves)) vs)).
Proof.
  intros H Hex Hs Hk.
  destruct (etiquetas_filtradas_particion (fun nc => es_categorica (snd nc)) datos n
              (Categorica vs) Hs eq_refl) as (l1 & l2 & E & H1 & H2).
  unfold columnas_object in H. rewrite E, para_cada_app in H.
  destruct (para_cada imputar_categorica l1 datos) as [d1 |] eqn:E1; [| discriminate].
  cbn [bind para_cada] in H.
  destruct (imputar_categorica d1 n) as [d2 |] eqn:E2; [| discriminate].
  cbn [bind] in H.
  rewrite (para_cada_fuera imputar_categorica n (fun d m d' => imputar_categorica_otro_paso d m d' n) l2 d2 datos' H2 H).
  apply (imputar_categorica_valor d1 d2 n vs claves E2 Hex).
  - rewrite (para_cada_fuera imputar_categorica n (fun d m d' => imputar_categorica_otro_paso d m d' n) l1 datos d1 H1 E1).
    exact Hs.
  - apply (imputar_categoricas_excluida l1 datos d1 "posicion_inferida" _ E1);
      [simpl; tauto | exact Hk].
Qed.

Lemma fillna_nth {A} (vs rellenos : list (option A)) (i : nat) :
  List.length rellenos = List.length vs ->
  nth i (fillna vs rellenos) None
  = match nth i vs None with
    | Some x => Some x
    | None => nth i rellenos None
    end.
Proof.
  revert rellenos i. induction vs as [| v vs IH]; intros rellenos i Hlen.
  - destruct rellenos; [| discriminate]. destruct i; reflexivity.
  - destruct rellenos as [| r rellenos]; [discriminate |].
    injection Hlen as Hlen.
    destruct v as [x |], i as [| i]; simpl; try reflexivity; now apply IH.
Qed.


Lemma transform_nth {A} (agg : list (option A) -> option A) (claves : list valor)
  (vs : list (option A)) (i : nat) :
  nth i (transform agg claves vs) None
  = match nth i claves None with
    | Some k => agg (grupo k claves vs)
    | None => None
    end.
Proof.
  unfold transform.
  exact (map_nth (fun clave => match clave with
                               | Some k => agg (grupo k claves vs)
                               | None => None
                               end) claves None i).
Qed.

Lemma celdas_nth (claves : list (option string)) (i : nat) :
  nth i (celdas (Categorica claves)) None = option_map ETexto (nth i claves None).
Proof. exact (map_nth (option_map ETexto) claves None i). Qed.





(** *** The order of texts and the mode *)

Lemma compare_texto_trans (s1 s2 s3 : string) :
  String.compare s1 s2 <> Gt -> String.compare s2 s3 <> Gt -> String.compare s1 s3 <> Gt.
Proof.
  revert s2 s3. induction s1 as [| c1 s1 IH]; intros [| c2 s2] [| c3 s3]; simpl;
    try congruence.
  destruct (Ascii.compare c1 c2) eqn:E12; [| | congruence].
  - apply Ascii.compare_eq_iff in E12. subst c2.
    destruct (Ascii.compare c1 c3); [apply IH | congruence | congruence].
  - intros _. destruct (Ascii.compare c2 c3) eqn:E23; [| | congruence].
    + apply Ascii.compare_eq_iff in E23. subst c3. rewrite E12. congruence.
    + intros _. unfold Ascii.compare in *.
      rewrite N.compare_lt_iff in E12, E23.
      assert (H : (N_of_ascii c1 < N_of_ascii c3)%N) by lia.
      apply N.compare_lt_iff in H. rewrite H. congruence.
Qed.

Lemma leb_texto_trans (s1 s2 s3 : string) :
  String.leb s1 s2 = true -> String.leb s2 s3 = true -> String.leb s1 s3 = true.
Proof.
  unfold String.leb. intros H1 H2.
  assert (H := compare_texto_trans s1 s2 s3).
  destruct (String.compare s1 s2); try discriminate;
    destruct (String.compare s2 s3); try discriminate;
    destruct (String.compare s1 s3); try reflexivity;
    exfalso; apply H; congruence.
Qed.

Lemma leb_texto_refl (s : string) : String.leb s s = true.
Proof. destruct (String.leb_total s s); assumption. Qed.

Lemma unicos_ordenados (l : list (option string)) :
  StronglySorted (fun x y => String.leb x y = true) (unicos l).
Proof.
  unfold unicos. apply OrdenarTexto.StronglySorted_sort.
  intros x y z. apply leb_texto_trans.
Qed.

Section Mejor.

Variable cuenta : string -> nat.

Let elegir (mejor : option string) (c : string) : option string :=
  match mejor with
  | None => Some c
  | Some b => if Nat.ltb (cuenta b) (cuenta c) then Some c else Some b
  end.

(** The scan that [moda] makes keeps the first of the most frequent. *)
Lemma mejor_barrido (s : list string) :
  forall b,
    StronglySorted (fun x y => String.leb x y = true) (b :: s) ->
    exists m,
      fold_left elegir s (Some b) = Some m /\ In m (b :: s) /\
      forall c, In c (b :: s) ->
                (cuenta c <= cuenta m)%nat /\
                (cuenta c = cuenta m -> String.leb m c = true).
Proof.
  induction s as [| c s IH]; intros b Hs.
  - exists b. split; [reflexivity |]. split; [now left |].
    intros c [<- | []]. split; [lia | intros _; apply leb_texto_refl].
  - inversion Hs as [| ? ? Hs' Hb]; subst.
    inversion Hs' as [| ? ? Hs'' Hc]; subst.
    inversion Hb as [| ? ? Hbc Hbs]; subst.
    cbn [fold_left elegir].
    destruct (Nat.ltb_spec (cuenta b) (cuenta c)) as [Hlt | Hge].
    + destruct (IH c Hs') as (m & Hm & Hin & Hmax).
      exists m. split; [exact Hm |]. split; [now right |].
      intros x [<- | Hx]; [| exact (Hmax x Hx)].
      destruct (Hmax c (or_introl eq_refl)) as [Hcm _]. split; lia.
    + assert (Hs1 : StronglySorted (fun x y => String.leb x y = true) (b :: s))
        by (constructor; assumption).
      destruct (IH b Hs1) as (m & Hm & Hin & Hmax).
      exists m. split; [exact Hm |].
      split; [destruct Hin as [<- | Hin]; [now left | right; now right] |].
      intros x [<- | [<- | Hx]].
      * apply Hmax. now left.
      * destruct (Hmax b (or_introl eq_refl)) as [Hbm Hbt]. split; [lia |].
        intro Heq. assert (Hbm' : cuenta b = cuenta m) by lia.
        assert (Hmb := Hbt Hbm').
        destruct Hin as [<- | Hin]; [exact Hbc |].
        rewrite Forall_forall in Hbs.
        assert (E : m = b) by (apply String.leb_antisym; [exact Hmb | exact (Hbs m Hin)]).
        subst m. exact Hbc.
      * apply Hmax. now right.
Qed.

End Mejor.

(** [s.mode()[0]] is a most frequent value of the Series, the first in the
    order of texts among the most frequent; there is none exactly when the
    Series holds no value. *)
Lemma moda_mas_frecuente (l : list (option string)) :
  (moda l = None <-> forall s, ~ In (Some s) l) /\
  (forall m, moda l = Some m ->
             In (Some m) l /\
             forall s, In (Some s) l ->
                       (count_occ string_dec (no_nulos l) s
                        <= count_occ string_dec (no_nulos l) m)%nat /\
                       (count_occ string_dec (no_nulos l) s
                        = count_occ string_dec (no_nulos l) m ->
                        String.leb m s = true)).
Proof.
  assert (Hs := unicos_ordenados l).
  unfold moda.
  destruct (unicos l) as [| b s] eqn:E.
  - split.
    + split; [| reflexivity]. intros _ x Hx. apply unicos_In in Hx. now rewrite E in Hx.
    + discriminate.
  - cbn [fold_left].
    destruct (mejor_barrido (count_occ string_dec (no_nulos l)) s b Hs)
      as (m & Hm & Hin & Hmax).
    cbv zeta in Hm. rewrite Hm. split.
    + split; [discriminate |]. intro H. exfalso. apply (H b).
      apply unicos_In. rewrite E. now left.
    + intros m' [= <-]. split.
      * apply unicos_In. now rewrite E.
      * intros x Hx. apply Hmax. rewrite <- E. now apply unicos_In.
Qed.

(** The value of a row of a filled text column whose cell was null. *)
Lemma relleno_categorico_fila (claves vs : list (option string)) (i : nat) (k : string) :
  List.length claves = List.length vs ->
  (i < List.length vs)%nat -> nth i vs None = None -> nth i claves None = Some k ->
  nth i (relleno_categorico (celdas (Categorica claves)) vs) None
  = moda_o_unknown (valores_del_grupo k claves vs).
Proof.
  intros Hlen Hi Hv Hk. unfold relleno_categorico.
  assert (Hnul : isnull_any vs = true).
  { apply isnull_any_true. rewrite <- Hv. now apply nth_In. }
  rewrite Hnul, fillna_nth.
  - rewrite Hv, transform_nth, celdas_nth, Hk. reflexivity.
  - rewrite transform_length. simpl. now rewrite length_map.
Qed.

(** X21.  What stage 3 puts in a null of a text column that is not
    excluded, for a row whose position is known: the most frequent value
    of the column over the rows of the same position, the first in the
    order of texts when several are the most frequent; and the text
    Unknown when no row of that position holds a value. *)
Theorem imputacion_por_grupo_de_textos :
  forall (datos datos' : Dataset) (n : string) (vs claves : list (option string)),
    imputar datos = Ok datos' ->
    ~ In n categoricas_excluidas ->
    serie datos n = Some (Categorica vs) ->
    serie datos "posicion_inferida" = Some (Categorica claves) ->
    List.length claves = List.length vs ->
    exists vs',
      serie datos' n = Some (Categorica vs') /\
      forall i k,
        (i < List.length vs)%nat -> nth i vs None = None -> nth i claves None = Some k ->
        let del_grupo := valores_del_grupo k claves vs in
        let veces := count_occ string_dec (no_nulos del_grupo) in
        ((forall s, ~ In (Some s) del_grupo) -> nth i vs' None = Some "Unknown") /\
        ((exists s, In (Some s) del_grupo) ->
         exists m,
           nth i vs' None = Some m /\ In (Some m) del_grupo /\
           forall s, In (Some s) del_grupo ->
                     (veces s <= veces m)%nat /\
                     (veces s = veces m -> String.leb m s = true)).
Proof.
  intros datos datos' n vs claves H Hex Hs Hk Hlen. unfold imputar in H.
  destruct (para_cada imputar_numerica (columnas_numericas datos) datos) as [datos1 |] eqn:E1;
    [| discriminate].
  cbn [bind] in H.
  assert (Hs1 := imputar_numericas_conserva _ datos datos1 n vs E1 Hs).
  assert (Hk1 := imputar_numericas_conserva _ datos datos1 _ claves E1 Hk).
  exists (relleno_categorico (celdas (Categorica claves)) vs). split.
  - exact (imputar_categoricas_valor datos1 datos' n vs claves H Hex Hs1 Hk1).
  - intros i k Hi Hv Hki del_grupo veces.
    rewrite (relleno_categorico_fila claves vs i k Hlen Hi Hv Hki). fold del_grupo.
    destruct (moda_mas_frecuente del_grupo) as [Hnone Hsome].
    unfold moda_o_unknown. split.
    + intro Hno. apply Hnone in Hno. now rewrite Hno.
    + intros (s & Hin). destruct (moda del_grupo) as [m |] eqn:Em.
      * exists m. split; [reflexivity |]. exact (Hsome m eq_refl).
      * exfalso. exact (proj1 Hnone eq_refl s Hin).
Qed.

Lemma imputacion_por_grupo_de_textos_witness :
  exists datos' vs',
    imputar [("preferred_foot", Categorica [Some "right"; None; Some "left"; None]);
             ("posicion_inferida",
              Categorica [Some "Defensa"; Some "Defensa"; Some "Defensa"; Some "Portero"])]
    = Ok datos' /\
    serie datos' "preferred_foot" = Some (Categorica vs') /\
    nth 3 vs' None = Some "Unknown".
Proof.
  assert (E : exists d,
             imputar [("preferred_foot", Categorica [Some "right"; None; Some "left"; None]);
                      ("posicion_inferida",
                       Categorica [Some "Defensa"; Some "Defensa"; Some "Defensa";
                                   Some "Portero"])] = Ok d)
    by (eexists; vm_compute; reflexivity).
  destruct E as (datos' & E).
  destruct (imputacion_por_grupo_de_textos _ datos' "preferred_foot"
              [Some "right"; None; Some "left"; None]
              [Some "Defensa"; Some "Defensa"; Some "Defensa"; Some "Portero"] E)
    as (vs' & Hs & Hf).
  - simpl. intuition discriminate.
  - reflexivity.
  - reflexivity.
  - reflexivity.
  - exists datos', vs'. split; [exact E |]. split; [exact Hs |].
    destruct (Hf 3%nat "Portero") as (Hu & _); [simpl; lia | reflexivity | reflexivity |].
    apply Hu. intros s Hin. vm_compute in Hin. intuition discriminate.
Defined.


(** ** Stage 7 and the range of a column *)

(** Clipping at the bounds of stage 7 never takes a value out of the range
    of its column. *)
Lemma recortar_rango (vs : list (option Q)) (lo hi q : Q) :
  (forall x, In (Some x) vs -> lo <= x <= hi) ->
  In (Some q) (recortar vs) -> lo <= q <= hi.
Proof.
  intros Hr. unfold recortar.
  destruct (quantile vs (1 # 4)) as [Q1 |] eqn:E1; [| apply Hr].
  destruct (quantile vs (3 # 4)) as [Q3 |] eqn:E3; [| apply Hr].
  destruct (Qlt_bool 0 (Q3 - Q1)) eqn:Eb; [| apply Hr].
  assert (H1 : lo <= Q1 <= hi) by (apply (quantile_en_rango vs (1 # 4)); try assumption; lra).
  assert (H3 : lo <= Q3 <= hi) by (apply (quantile_en_rango vs (3 # 4)); try assumption; lra).
  apply Qlt_bool_iff in Eb.
  unfold clip. intro H. apply in_map_iff in H.
  destruct H as ([x |] & E & Hx); [| discriminate]. simpl in E. injection E as <-.
  destruct (Hr x Hx) as [Hx1 Hx2].
  destruct (Qlt_bool x (Q1 - (3 # 2) * (Q3 - Q1))) eqn:Ea.
  - apply Qlt_bool_iff in Ea. lra.
  - destruct (Qlt_bool (Q3 + (3 # 2) * (Q3 - Q1)) x) eqn:Ec.
    + apply Qlt_bool_iff in Ec. lra.
    + lra.
Qed.

Lemma tratar_outliers_rango (datos : Dataset) (n : string) (vs' : list (option Q))
  (lo hi : Q) :
  serie (fst (tratar_outliers datos)) n = Some (Numerica vs') ->
  (forall vs x, serie datos n = Some (Numerica vs) -> In (Some x) vs -> lo <= x <= hi) ->
  forall q, In (Some q) vs' -> lo <= q <= hi.
Proof.
  rewrite tratar_outliers_serie. intros H Hr q Hq.
  destruct (serie datos n) as [[vs | vs] |] eqn:Hs.
  - destruct (en_lista n columnas_clave); cbn in H; injection H as <-.
    + apply (recortar_rango vs lo hi q); [intros x Hx; now apply (Hr vs) | exact Hq].
    + now apply (Hr vs q).
  - destruct (en_lista n columnas_clave); discriminate.
  - destruct (en_lista n columnas_clave); discriminate.
Qed.

(** X22.  Stage 7 never takes a value out of the range of its column: the
    values of a numeric column after the stage lie within any bounds of
    the values it had before. *)
Theorem rango_tras_las_etapas :
  forall (datos : Dataset) (n : string) (vs vs' : list (option Q)) (lo hi : Q),
    serie datos n = Some (Numerica vs) ->
    serie (fst (tratar_outliers datos)) n = Some (Numerica vs') ->
    (forall x, In (Some x) vs -> lo <= x <= hi) ->
    forall q, In (Some q) vs' -> lo <= q <= hi.
Proof.
  intros datos n vs vs' lo hi Hs Hs' Hr q Hq.
  apply (tratar_outliers_rango datos n vs' lo hi Hs'); [| exact Hq].
  intros ws x Hws. rewrite Hs in Hws. injection Hws as <-. apply Hr.
Qed.

Lemma rango_tras_las_etapas_witness :
  exists vs' q,
    serie (fst (tratar_outliers
                  [("potential", Numerica [Some 1; Some 2; Some 3; Some 4; Some 5; Some 1000])]))
      "potential" = Some (Numerica vs') /\
    nth 5 vs' None = Some q /\ 0 <= q <= 1000.
Proof.
  eexists. eexists. split; [vm_compute; reflexivity |]. split; [reflexivity |].
  refine (rango_tras_las_etapas
            [("potential", Numerica [Some 1; Some 2; Some 3; Some 4; Some 5; Some 1000])]
            "potential" [Some 1; Some 2; Some 3; Some 4; Some 5; Some 1000]
            _ 0 1000 _ _ _ _ _).
  - reflexivity.
  - vm_compute. reflexivity.
  - intros x Hx. simpl in Hx.
    repeat (destruct Hx as [Hx | Hx]; [injection Hx as <-; split; discriminate |]).
    contradiction.
  - simpl. tauto.
Defined.


(** ** More on stage 5: what is left after encoding *)

Lemma datos_encoded_indicadores (datos : Dataset) (sel : list string) (m : string)
  (c : columna) :
  In (m, c) (datos_encoded datos sel) ->
  exists vs, c = Numerica vs /\ forall x, In x vs -> x = Some 0 \/ x = Some 1.
Proof.
  unfold datos_encoded. intro H. apply in_flat_map in H. destruct H as (n & _ & H).
  destruct (serie datos n) as [[ws | ws] |]; try contradiction.
  apply get_dummies_In in H. destruct H as (v & _ & _ & ->).
  exists (indicador v ws). split; [reflexivity |]. intros x. apply indicador_cero_o_uno.
Qed.

(** X23.  What stage 5 leaves.  The table returned is the table given
    without the selected columns, in the same order, followed by the
    indicator columns, all numeric with cells 0 or 1.  Every numeric column
    is kept.  The only text columns left are those of the four excluded
    labels (date, birthday, player_name, posicion_inferida) and those with
    more than 15 distinct values. *)
Theorem codificacion_texto_restante :
  forall datos datos' : Dataset,
    codificar datos = Ok datos' ->
    (exists seleccion indicadores,
        columnas_categoricas_onehot datos = Ok seleccion /\
        datos' = drop seleccion datos ++ indicadores /\
        forall m c, In (m, c) indicadores ->
                    exists vs, c = Numerica vs /\
                               forall x, In x vs -> x = Some 0 \/ x = Some 1) /\
    (forall n vs, In (n, Numerica vs) datos -> In (n, Numerica vs) datos') /\
    (forall n ws,
        In (n, Categorica ws) datos' ->
        In (n, Categorica ws) datos /\
        (In n categoricas_excluidas \/ (15 < nunique ws)%nat)).
Proof.
  intros datos datos' H.
  destruct (columnas_categoricas_onehot datos) as [sel |] eqn:Hsel.
  2:{ unfold codificar in H. rewrite Hsel in H. discriminate. }
  rewrite (codificar_forma datos sel Hsel) in H. injection H as <-.
  assert (Hcar := columnas_categoricas_onehot_In datos sel Hsel).
  split; [| split].
  - exists sel, (datos_encoded datos sel). split; [reflexivity |]. split; [reflexivity |].
    intros m c. apply datos_encoded_indicadores.
  - intros n vs Hin. apply in_or_app. left. apply drop_In. split; [exact Hin |].
    intro Hn. apply Hcar in Hn. destruct Hn as (_ & ws & Hs & _).
    assert (E := serie_unica n datos _ _ Hs Hin). discriminate.
  - intros n ws Hin. apply in_app_or in Hin. destruct Hin as [Hin | Hin].
    2:{ apply datos_encoded_numericas in Hin. discriminate. }
    apply drop_In in Hin. destruct Hin as [Hin Hno]. split; [exact Hin |].
    destruct (in_dec string_dec n categoricas_excluidas) as [Hex | Hex]; [now left |].
    right.
    assert (Hobj : In n (columnas_object datos)).
    { apply columnas_object_In. now exists ws. }
    destruct (seleccion_necesita_series datos _ [] sel Hsel n Hobj Hex) as (c & Hc).
    assert (E := serie_unica n datos _ _ Hc Hin). subst c.
    destruct (Nat.leb_spec (nunique ws) 15) as [Hle | Hgt]; [| exact Hgt].
    exfalso. apply Hno. apply Hcar. split; [exact Hex |]. now exists ws.
Qed.

Lemma codificacion_texto_restante_witness :
  exists datos',
    codificar Ejemplos.jugadores = Ok datos' /\
    In ("finishing", Numerica [Some 95; Some 60; Some 10; None]) datos'.
Proof.
  assert (E : exists d, codificar Ejemplos.jugadores = Ok d)
    by (eexists; vm_compute; reflexivity).
  destruct E as (datos' & E). exists datos'. split; [exact E |].
  refine (proj1 (proj2 (codificacion_texto_restante Ejemplos.jugadores datos' E))
            "finishing" _ _).
  simpl. tauto.
Defined.
